(** * camera.js: pose comparison demo, scoring and scheduling

    A shallow embedding of [src/camera.js].  The script keeps two
    module-level results ([userResult], [imgResult]), scores the live
    left-elbow angle against the reference one in [recalculate], and runs
    two asynchronous flows started by [bindPage]: the frame loop
    ([detectPoseInRealTime] / [poseDetectionFrame]) and the one-shot
    reference estimation ([testImageAndEstimatePoses]).

    Numbers.  JavaScript numbers are IEEE 754 binary64 values.  A number
    is [NaN], an infinity, or [Fin q]: the binary64 number nearest to the
    rational [q] (ties to even), as a decimal literal denotes it.  Every
    operation reads its operands that way, computes the exact rational
    result and rounds it to binary64 again, overflowing to an infinity
    from 2^1024 on.  The two zeros are not told apart: nothing in this
    script depends on the sign of a zero (its only divisor is the
    constant [distance] = 20).

    Asynchrony.  An [async] function is cut at its [await]s.  The page
    state holds the list of pending continuations; an event of the host
    (a promise settles, the display refreshes) resumes one of them, which
    then runs to its next suspension without interruption.  Every call on
    a collaborator is appended to a trace. *)

From Stdlib Require Import ZArith QArith Qround Qabs Qpower.
From Stdlib Require Import List String Bool Lia Lqa.
From Stdlib Require Import DecimalString.
From Stdlib Require Reals Lra.
From Stdlib Require DecimalZ.
From Stdlib Require SpecFloat.
Import ListNotations.

Set Implicit Arguments.

(* ================================================================== *)
(** ** JavaScript numbers *)

Module JS.

Inductive number : Type :=
| NaN
| Inf (negative : bool)
| Fin (q : Q).

(** [Math.round] yields an integer-valued number, an infinity or
    [NaN]. *)
Inductive rounded : Type :=
| RNaN
| RInf (negative : bool)
| RInt (z : Z).

(** *** Rounding to binary64 *)

(** The integer [k] such that 2^k <= q < 2^(k+1), for [q > 0]. *)
Definition ilog2 (q : Q) : Z :=
  if Qle_bool 1 q then Z.log2 (Qfloor q)
  else (- Z.log2_up (Qceiling (/ q)))%Z.

(** The nearest integer, halves to the even one. *)
Definition rne (q : Q) : Z :=
  let f := Qfloor q in
  match Qcompare (q - inject_Z f) (1 # 2) with
  | Lt => f
  | Gt => (f + 1)%Z
  | Eq => if Z.even f then f else (f + 1)%Z
  end.

(** The exponent of the last place of the binary64 numbers around
    [q > 0]: 53 significant bits, and no exponent below -1074. *)
Definition exponent (q : Q) : Z := Z.max (-1074) (ilog2 q - 52).

(** The multiple of 2^[exponent q] nearest to [q > 0]. *)
Definition nearest (q : Q) : Q :=
  inject_Z (rne (q / 2 ^ exponent q)) * 2 ^ exponent q.

(** Round to nearest, ties to even, exponents unbounded above. *)
Definition rnd (q : Q) : Q :=
  match Qcompare q 0 with
  | Eq => 0
  | Gt => nearest q
  | Lt => - nearest (- q)
  end.

(** The binary64 number nearest to [q]: finite, in lowest terms, or an
    infinity when the rounded magnitude reaches 2^1024. *)
Definition binary64 (q : Q) : number :=
  let v := rnd q in
  if Qle_bool (2 ^ 1024) (Qabs v) then Inf (Qle_bool v 0) else Fin (Qred v).

(** The binary64 number a value stands for. *)
Definition read (a : number) : number :=
  match a with
  | Fin q => binary64 q
  | _ => a
  end.

(** [q < 0] *)
Definition is_negative (q : Q) : bool := negb (Qle_bool 0 q).

(** *** Operations *)

Definition sub (a b : number) : number :=
  match read a, read b with
  | Fin x, Fin y => binary64 (x - y)
  | Inf s, Fin _ => Inf s
  | Fin _, Inf s => Inf (negb s)
  | Inf s, Inf t => if Bool.eqb s t then NaN else Inf s
  | _, _ => NaN
  end.

Definition mul (a b : number) : number :=
  match read a, read b with
  | Fin x, Fin y => binary64 (x * y)
  | Inf s, Fin y | Fin y, Inf s =>
      if Qeq_bool y 0 then NaN else Inf (xorb s (is_negative y))
  | Inf s, Inf t => Inf (xorb s t)
  | _, _ => NaN
  end.

(** Division; a zero divisor is taken to be +0. *)
Definition div (a b : number) : number :=
  match read a, read b with
  | Fin x, Fin y =>
      if Qeq_bool y 0
      then (if Qeq_bool x 0 then NaN else Inf (is_negative x))
      else binary64 (x / y)
  | Inf s, Fin y => Inf (xorb s (is_negative y))
  | Fin _, Inf _ => Fin 0
  | _, _ => NaN
  end.

Definition Math_abs (a : number) : number :=
  match read a with
  | NaN => NaN
  | Inf _ => Inf false
  | Fin x => binary64 (Qabs x)
  end.

(** [a <= b]: false as soon as one side is [NaN]. *)
Definition le (a b : number) : bool :=
  match read a, read b with
  | Fin x, Fin y => Qle_bool x y
  | Inf true, (Inf _ | Fin _) => true
  | (Inf _ | Fin _), Inf false => true
  | _, _ => false
  end.

(** [a >= b] *)
Definition ge (a b : number) : bool := le b a.

(** ToBoolean on a number: [0] and [NaN] are falsy. *)
Definition ToBoolean (a : number) : bool :=
  match read a with
  | NaN => false
  | Inf _ => true
  | Fin x => negb (Qeq_bool x 0)
  end.

(** [Math.round]: nearest integer, halves towards +infinity. *)
Definition Math_round (a : number) : rounded :=
  match read a with
  | NaN => RNaN
  | Inf s => RInf s
  | Fin x => RInt (Qfloor (x + (1 # 2)))
  end.

(** ToString on the result of [Math.round]; integers are printed in
    decimal, which is what JavaScript does below 10^21. *)
Definition ToString (r : rounded) : string :=
  match r with
  | RNaN => "NaN"%string
  | RInf false => "Infinity"%string
  | RInf true => "-Infinity"%string
  | RInt z => NilZero.string_of_int (Z.to_int z)
  end.

Definition of_Z (z : Z) : number := Fin (inject_Z z).

End JS.

Import JS.

Arguments JS.binary64 : simpl never.
Arguments JS.sub : simpl never.
Arguments JS.mul : simpl never.
Arguments JS.div : simpl never.
Arguments JS.Math_abs : simpl never.
Arguments JS.le : simpl never.
Arguments JS.ToBoolean : simpl never.
Arguments JS.Math_round : simpl never.

Declare Scope js_scope.
Delimit Scope js_scope with js.
Bind Scope js_scope with number.
Infix "-" := JS.sub : js_scope.
Infix "*" := JS.mul : js_scope.
Infix "/" := JS.div : js_scope.
Infix "<=?" := JS.le : js_scope.
Infix ">=?" := JS.ge : js_scope.

(* ================================================================== *)
(** ** The Standard Library's IEEE 754 arithmetic, for comparison *)

(** A number of the Standard Library's specification of IEEE 754
    arithmetic, as a number of this development. *)
Definition of_spec (f : SpecFloat.spec_float) : number :=
  match f with
  | SpecFloat.S754_zero _ => Fin 0
  | SpecFloat.S754_infinity s => Inf s
  | SpecFloat.S754_nan => NaN
  | SpecFloat.S754_finite s m e =>
      Fin ((if s then - inject_Z (Zpos m) else inject_Z (Zpos m)) * 2 ^ e)
  end.

(** The binary64 number nearest to m * 2^e, by the Standard Library. *)
Definition spec64 (m e : Z) : SpecFloat.spec_float :=
  SpecFloat.binary_normalize 53 1024 m e false.

Definition same_number (a b : number) : bool :=
  match a, b with
  | NaN, NaN => true
  | Inf s, Inf t => Bool.eqb s t
  | Fin x, Fin y => Qeq_bool x y
  | _, _ => false
  end.

Definition agree (a b : SpecFloat.spec_float) : bool :=
  same_number (JS.sub (of_spec a) (of_spec b))
              (of_spec (SpecFloat.SFsub 53 1024 a b))
  && same_number (JS.mul (of_spec a) (of_spec b))
                 (of_spec (SpecFloat.SFmul 53 1024 a b))
  && same_number (JS.div (of_spec a) (of_spec b))
                 (of_spec (SpecFloat.SFdiv 53 1024 a b))
  && Bool.eqb (JS.le (of_spec a) (of_spec b)) (SpecFloat.SFleb a b).

(** Pairs of operands: 8.5 and 20, 1 and 0.425, 0.575 and 100 (the score
    of the angles 90 and 98.5); 21 and 0.9999999999999999; 3 and 0.7;
    0.1 and 0.3; the least subnormal number; the greatest finite number
    and its opposite; some others. *)
Definition samples : list (SpecFloat.spec_float * SpecFloat.spec_float) :=
  [ (spec64 17 (-1), spec64 20 0);
    (spec64 1 0, spec64 7656119366529843 (-54));
    (spec64 2589569785738035 (-52), spec64 100 0);
    (spec64 21 0, spec64 9007199254740991 (-53));
    (spec64 3 0, spec64 3152519739159347 (-52));
    (spec64 3602879701896397 (-55), spec64 5404319552844595 (-54));
    (spec64 1 (-1074), spec64 3 0);
    (spec64 9007199254740991 971, spec64 (-9007199254740991) 971);
    (spec64 9007199254740991 971, spec64 1 (-1074));
    (spec64 (-7) 0, spec64 1 (-1022));
    (spec64 1 0, spec64 3 0);
    (spec64 123456789 (-20), spec64 (-987654321) 30) ].

(* ================================================================== *)
(** ** Data returned by the pose model *)

Record Vector2D : Type := { x : number; y : number }.

Record Keypoint : Type := {
  kscore : number;
  position : Vector2D;
  part : string
}.

Record Pose : Type := {
  score : number;
  keypoints : list Keypoint
}.

(** [keypoints[i]]: [None] is [undefined]. *)
Definition index (kps : list Keypoint) (i : nat) : option Keypoint :=
  nth_error kps i.

(* ================================================================== *)
(** ** guiState *)

Inductive Algorithm : Type :=
| single_pose
| multi_pose
| other_algorithm (name : string).

Record InputConfig : Type := {
  architecture : string;
  outputStride : Z;
  inputResolution : Z;
  multiplier : number;
  quantBytes : Z
}.

Record SinglePoseDetection : Type := {
  s_minPoseConfidence : number;
  s_minPartConfidence : number
}.

Record MultiPoseDetection : Type := {
  maxPoseDetections : Z;
  m_minPoseConfidence : number;
  m_minPartConfidence : number;
  nmsRadius : number
}.

Record Output : Type := {
  showVideo : bool;
  showSkeleton : bool;
  showPoints : bool;
  showBoundingBox : bool
}.

Inductive PoseNet : Type := posenet_model.

(** The case of the [switch] in [poseDetectionFrame] that was entered. *)
Inductive SwitchCase : Type :=
| case_single_pose
| case_multi_pose.

Record GuiState : Type := {
  algorithm : Algorithm;
  input : InputConfig;
  singlePoseDetection : SinglePoseDetection;
  multiPoseDetection : MultiPoseDetection;
  output : Output;
  net : option PoseNet;
  gui_image : string
}.

Definition defaultQuantBytes : Z := 2.
Definition defaultResNetMultiplier : number := Fin 1.
Definition defaultResNetStride : Z := 32.
Definition defaultResNetInputResolution : Z := 250.

Definition guiState0 : GuiState := {|
  algorithm := single_pose;
  input := {| architecture := "ResNet50";
              outputStride := defaultResNetStride;
              inputResolution := defaultResNetInputResolution;
              multiplier := defaultResNetMultiplier;
              quantBytes := defaultQuantBytes |};
  singlePoseDetection := {| s_minPoseConfidence := Fin (7 # 10);
                            s_minPartConfidence := Fin (7 # 10) |};
  multiPoseDetection := {| maxPoseDetections := 5;
                           m_minPoseConfidence := Fin (15 # 100);
                           m_minPartConfidence := Fin (1 # 10);
                           nmsRadius := Fin 30 |};
  output := {| showVideo := true;
               showSkeleton := true;
               showPoints := true;
               showBoundingBox := false |};
  net := None;
  gui_image := "Vs9p4Sj.jpg"
|}.

Definition set_net (n : option PoseNet) (g : GuiState) : GuiState :=
  {| algorithm := algorithm g; input := input g;
     singlePoseDetection := singlePoseDetection g;
     multiPoseDetection := multiPoseDetection g;
     output := output g; net := n; gui_image := gui_image g |}.

Definition set_algorithm (a : Algorithm) (g : GuiState) : GuiState :=
  {| algorithm := a; input := input g;
     singlePoseDetection := singlePoseDetection g;
     multiPoseDetection := multiPoseDetection g;
     output := output g; net := net g; gui_image := gui_image g |}.

Definition imageBucket : string := "https://i.imgur.com/".
Definition distance : number := of_Z 20.

Record Result : Type := { leftElbow : number }.

(* ================================================================== *)
(** ** Effects, pending continuations and the page state *)

(** Identity of a tensor created by [tf.browser.fromPixels]. *)
Definition tensor : Type := nat.

Inductive Source : Type :=
| Video
| Tensor (t : tensor).

Inductive DecodingMethod : Type :=
| single_person
| multi_person.

(** The calls the script makes on its collaborators, in program order.
    [Recalculate img user] records an invocation of [recalculate] with the
    two angles it reads. *)
Inductive Effect : Type :=
| ToggleLoadingUI (b : bool)
| PosenetLoad
| LoadVideo
| InfoText (s : string)
| EstimatePoses (src : Source) (flipHorizontal : bool) (m : DecodingMethod)
| LoadImage (url : string)
| FromPixels (t : tensor)
| Dispose (t : tensor)
| RequestAnimationFrame
| Recalculate (img user : number)
| SetInnerHTML (s : string)
| ClearRect
| DrawVideo
| DrawKeypoints (kps : list Keypoint) (minPartConfidence : number)
| DrawSkeleton (kps : list Keypoint) (minPartConfidence : number)
| DrawBoundingBox (kps : list Keypoint).

(** A suspended piece of the script: an [await] whose promise is not
    settled yet, or a callback registered with [requestAnimationFrame]. *)
Inductive Pending : Type :=
| AwaitPosenetLoad                      (* bindPage, at posenet.load *)
| AwaitLoadVideo                        (* bindPage, at loadVideo *)
| AwaitFrameEstimate (a : SwitchCase)   (* poseDetectionFrame, at estimatePoses *)
| AnimationFrameRequest                 (* requestAnimationFrame(poseDetectionFrame) *)
| AwaitLoadImage                        (* testImageAndEstimatePoses, at loadImage *)
| AwaitReferenceEstimate (input : tensor). (* testImageAndEstimatePoses, at estimatePoses *)

Record State : Type := {
  guiState : GuiState;
  userResult : Result;
  imgResult : Result;
  image : option string;            (* null, or the loaded image *)
  predictedPoses : option Pose;     (* null / undefined, or a pose *)
  score_placeholder : string;       (* innerHTML of #score-placeholder *)
  tensors : list tensor;            (* tensors created and not disposed *)
  fresh : tensor;                   (* next tensor identity *)
  pending : list Pending;
  uncaught : list string;           (* rejections nobody handles *)
  trace : list Effect
}.

Definition with_guiState (g : GuiState) (s : State) : State :=
  {| guiState := g; userResult := userResult s; imgResult := imgResult s;
     image := image s; predictedPoses := predictedPoses s;
     score_placeholder := score_placeholder s; tensors := tensors s;
     fresh := fresh s; pending := pending s; uncaught := uncaught s;
     trace := trace s |}.

Definition with_userResult (r : Result) (s : State) : State :=
  {| guiState := guiState s; userResult := r; imgResult := imgResult s;
     image := image s; predictedPoses := predictedPoses s;
     score_placeholder := score_placeholder s; tensors := tensors s;
     fresh := fresh s; pending := pending s; uncaught := uncaught s;
     trace := trace s |}.

Definition with_imgResult (r : Result) (s : State) : State :=
  {| guiState := guiState s; userResult := userResult s; imgResult := r;
     image := image s; predictedPoses := predictedPoses s;
     score_placeholder := score_placeholder s; tensors := tensors s;
     fresh := fresh s; pending := pending s; uncaught := uncaught s;
     trace := trace s |}.

Definition with_image (i : option string) (s : State) : State :=
  {| guiState := guiState s; userResult := userResult s;
     imgResult := imgResult s;
     image := i; predictedPoses := predictedPoses s;
     score_placeholder := score_placeholder s; tensors := tensors s;
     fresh := fresh s; pending := pending s; uncaught := uncaught s;
     trace := trace s |}.

Definition with_predictedPoses (p : option Pose) (s : State) : State :=
  {| guiState := guiState s; userResult := userResult s;
     imgResult := imgResult s;
     image := image s; predictedPoses := p;
     score_placeholder := score_placeholder s; tensors := tensors s;
     fresh := fresh s; pending := pending s; uncaught := uncaught s;
     trace := trace s |}.

Definition with_score_placeholder (h : string) (s : State) : State :=
  {| guiState := guiState s; userResult := userResult s;
     imgResult := imgResult s;
     image := image s; predictedPoses := predictedPoses s;
     score_placeholder := h; tensors := tensors s;
     fresh := fresh s; pending := pending s; uncaught := uncaught s;
     trace := trace s |}.

Definition with_tensors (ts : list tensor) (n : tensor) (s : State) : State :=
  {| guiState := guiState s; userResult := userResult s;
     imgResult := imgResult s;
     image := image s; predictedPoses := predictedPoses s;
     score_placeholder := score_placeholder s; tensors := ts;
     fresh := n; pending := pending s; uncaught := uncaught s;
     trace := trace s |}.

Definition with_pending (ps : list Pending) (s : State) : State :=
  {| guiState := guiState s; userResult := userResult s;
     imgResult := imgResult s;
     image := image s; predictedPoses := predictedPoses s;
     score_placeholder := score_placeholder s; tensors := tensors s;
     fresh := fresh s; pending := ps; uncaught := uncaught s;
     trace := trace s |}.

Definition with_uncaught (es : list string) (s : State) : State :=
  {| guiState := guiState s; userResult := userResult s;
     imgResult := imgResult s;
     image := image s; predictedPoses := predictedPoses s;
     score_placeholder := score_placeholder s; tensors := tensors s;
     fresh := fresh s; pending := pending s; uncaught := es;
     trace := trace s |}.

Definition with_trace (tr : list Effect) (s : State) : State :=
  {| guiState := guiState s; userResult := userResult s;
     imgResult := imgResult s;
     image := image s; predictedPoses := predictedPoses s;
     score_placeholder := score_placeholder s; tensors := tensors s;
     fresh := fresh s; pending := pending s; uncaught := uncaught s;
     trace := tr |}.

(** Primitive actions on the state. *)
Definition emit (e : Effect) (s : State) : State :=
  with_trace (trace s ++ [e]) s.

Definition suspend (k : Pending) (s : State) : State :=
  with_pending (pending s ++ [k]) s.

Definition throw (e : string) (s : State) : State :=
  with_uncaught (uncaught s ++ [e]) s.

(** [element.innerHTML = h] on the score placeholder. *)
Definition set_innerHTML (h : string) (s : State) : State :=
  emit (SetInnerHTML h) (with_score_placeholder h s).

Definition tensor_eqb : tensor -> tensor -> bool := Nat.eqb.

(** [tf.browser.fromPixels(image)] *)
Definition fromPixels (s : State) : tensor * State :=
  let t := fresh s in
  (t, emit (FromPixels t) (with_tensors (tensors s ++ [t]) (S t) s)).

(** [input.dispose()] *)
Definition dispose (t : tensor) (s : State) : State :=
  emit (Dispose t)
       (with_tensors (filter (fun u => negb (tensor_eqb u t)) (tensors s))
                     (fresh s) s).

(** The script as loaded: the module-level [let]s and [guiState]. *)
Definition loaded (html : string) : State := {|
  guiState := guiState0;
  userResult := {| leftElbow := of_Z 0 |};
  imgResult := {| leftElbow := of_Z 0 |};
  image := None;
  predictedPoses := None;
  score_placeholder := html;
  tensors := [];
  fresh := O;
  pending := [];
  uncaught := [];
  trace := []
|}.

(* ================================================================== *)
(** ** The script *)

Section Script.

(** [calculateAngle] is imported from ./utils, which is not part of this
    file: it is a parameter of the development, a function that returns a
    number ([NaN] included) for every triple of arguments.  Its arguments
    are array reads, so each may be [undefined] ([None]). *)
Variable calculateAngle :
  option Keypoint -> option Keypoint -> option Keypoint -> number.

Local Open Scope js_scope.

(** [recalculate], lines 265-271. *)
Definition recalculate (s0 : State) : State :=
  let s := emit (Recalculate (leftElbow (imgResult s0))
                             (leftElbow (userResult s0))) s0 in
  if ToBoolean (leftElbow (userResult s))
     && (Math_abs (leftElbow (imgResult s) - leftElbow (userResult s))
         <=? distance)
  then
    let percent :=
      (of_Z 1 - Math_abs (leftElbow (imgResult s) - leftElbow (userResult s))
                / distance) * of_Z 100 in
    set_innerHTML ("SCORE" ++ ": " ++ ToString (Math_round percent)) s
  else s.

(** The callback of [poses.forEach], lines 161-175. *)
Definition forEach_pose (minPoseConfidence minPartConfidence : number)
    (s : State) (p : Pose) : State :=
  if score p >=? minPoseConfidence then
    let s := with_userResult
               {| leftElbow := calculateAngle (index (keypoints p) 9)
                                              (index (keypoints p) 7)
                                              (index (keypoints p) 5) |} s in
    let s := recalculate s in
    let s := if showPoints (output (guiState s))
             then emit (DrawKeypoints (keypoints p) minPartConfidence) s
             else s in
    let s := if showSkeleton (output (guiState s))
             then emit (DrawSkeleton (keypoints p) minPartConfidence) s
             else s in
    if showBoundingBox (output (guiState s))
    then emit (DrawBoundingBox (keypoints p)) s
    else s
  else s.

(** [poseDetectionFrame] after its [await]: lines 130-133 or 143-146, then
    149-177.  [a] is the case of the [switch] that was entered. *)
Definition poseDetectionFrame_resume (a : SwitchCase) (estimated : list Pose)
    (s : State) : State :=
  let poses := [] ++ estimated in
  let minPoseConfidence :=
    match a with
    | case_single_pose =>
        s_minPoseConfidence (singlePoseDetection (guiState s))
    | case_multi_pose =>
        m_minPoseConfidence (multiPoseDetection (guiState s))
    end in
  let minPartConfidence :=
    match a with
    | case_single_pose =>
        s_minPartConfidence (singlePoseDetection (guiState s))
    | case_multi_pose =>
        m_minPartConfidence (multiPoseDetection (guiState s))
    end in
  let s := emit ClearRect s in
  let s := if showVideo (output (guiState s)) then emit DrawVideo s else s in
  let s := fold_left (forEach_pose minPoseConfidence minPartConfidence)
                     poses s in
  suspend AnimationFrameRequest (emit RequestAnimationFrame s).

(** A call of [poseDetectionFrame], up to its first suspension. *)
Definition poseDetectionFrame (s : State) : State :=
  match algorithm (guiState s) with
  | single_pose =>
      match net (guiState s) with
      | None => throw "TypeError" s
      | Some _ =>
          suspend (AwaitFrameEstimate case_single_pose)
                  (emit (EstimatePoses Video true single_person) s)
      end
  | multi_pose =>
      match net (guiState s) with
      | None => throw "TypeError" s
      | Some _ =>
          suspend (AwaitFrameEstimate case_multi_pose)
                  (emit (EstimatePoses Video true multi_person) s)
      end
  | other_algorithm _ =>
      (* no case of the switch matches: no await, the body runs on *)
      let s := emit ClearRect s in
      let s := if showVideo (output (guiState s)) then emit DrawVideo s
               else s in
      suspend AnimationFrameRequest (emit RequestAnimationFrame s)
  end.

(** [detectPoseInRealTime], lines 107-181: once the canvas is sized, the
    first call of [poseDetectionFrame]. *)
Definition detectPoseInRealTime (s : State) : State :=
  poseDetectionFrame s.

(** [disposePoses], lines 202-206. *)
Definition disposePoses (s : State) : State :=
  match predictedPoses s with
  | Some _ => with_predictedPoses None s
  | None => s
  end.

(** [testImageAndEstimatePoses] up to [await loadImage], lines 208-213. *)
Definition testImageAndEstimatePoses (s : State) : State :=
  let s := disposePoses s in
  suspend AwaitLoadImage
          (emit (LoadImage (imageBucket ++ gui_image (guiState s))) s).

(** ... from the loaded image to [await net.estimatePoses], 213-219. *)
Definition testImage_loaded (s : State) : State :=
  let s := with_image (Some (imageBucket ++ gui_image (guiState s))%string) s in
  let '(input, s) := fromPixels s in
  suspend (AwaitReferenceEstimate input)
          (emit (EstimatePoses (Tensor input) false single_person) s).

(** ... and from the estimated poses to the end, lines 226-232. *)
Definition testImage_estimated (input : tensor) (poses : list Pose)
    (s : State) : State :=
  let s := with_predictedPoses (nth_error poses 0) s in
  match predictedPoses s with
  | None => throw "TypeError" s          (* undefined.score *)
  | Some p =>
      let s :=
        if score p >=? s_minPoseConfidence (singlePoseDetection (guiState s))
        then with_imgResult
               {| leftElbow := calculateAngle (index (keypoints p) 9)
                                              (index (keypoints p) 7)
                                              (index (keypoints p) 5) |} s
        else s in
      dispose input s
  end.

(** [bindPage], lines 239-263, cut at its two [await]s. *)
Definition bindPage (s : State) : State :=
  suspend AwaitPosenetLoad (emit PosenetLoad (emit (ToggleLoadingUI true) s)).

Definition bindPage_net (s : State) : State :=
  suspend AwaitLoadVideo (emit LoadVideo (emit (ToggleLoadingUI false) s)).

Definition bindPage_video (s : State) : State :=
  let s := emit (ToggleLoadingUI false) s in
  let s := with_guiState (set_net (Some posenet_model) (guiState s)) s in
  let s := detectPoseInRealTime s in
  testImageAndEstimatePoses s.

Definition bindPage_catch (e : string) (s : State) : State :=
  let s := emit (InfoText ("this browser does not support video capture,"
                           ++ "or this device does not have a camera")) s in
  throw e s.

(* ------------------------------------------------------------------ *)
(** *** The host: settling promises and firing animation frames *)

Inductive Outcome : Type :=
| Loaded                        (* posenet.load / loadVideo / loadImage *)
| Estimated (poses : list Pose) (* estimatePoses resolved *)
| Rejected (e : string)         (* the awaited promise rejected *)
| FrameTime.                    (* the display refresh fires the callback *)

(** An event settles the [i]-th pending continuation with an outcome. *)
Record Event : Type := { target : nat; outcome : Outcome }.

Fixpoint remove_nth {A : Type} (i : nat) (l : list A) : list A :=
  match i, l with
  | _, [] => []
  | O, _ :: l' => l'
  | S i', a :: l' => a :: remove_nth i' l'
  end.

Definition resume (k : Pending) (o : Outcome) (s : State) : option State :=
  match k, o with
  | AwaitPosenetLoad, Loaded => Some (bindPage_net s)
  | AwaitPosenetLoad, Rejected e => Some (throw e s)
  | AwaitLoadVideo, Loaded => Some (bindPage_video s)
  | AwaitLoadVideo, Rejected e => Some (bindPage_catch e s)
  | AwaitFrameEstimate a, Estimated poses =>
      Some (poseDetectionFrame_resume a poses s)
  | AwaitFrameEstimate _, Rejected e => Some (throw e s)
  | AnimationFrameRequest, FrameTime => Some (poseDetectionFrame s)
  | AwaitLoadImage, Loaded => Some (testImage_loaded s)
  | AwaitReferenceEstimate input, Estimated poses =>
      Some (testImage_estimated input poses s)
  | AwaitReferenceEstimate _, Rejected e => Some (throw e s)
  | _, _ => None
  end.

Definition step (s : State) (ev : Event) : option State :=
  match nth_error (pending s) (target ev) with
  | None => None
  | Some k =>
      resume k (outcome ev)
             (with_pending (remove_nth (target ev) (pending s)) s)
  end.

Fixpoint run (s : State) (evs : list Event) : option State :=
  match evs with
  | [] => Some s
  | ev :: evs' =>
      match step s ev with
      | None => None
      | Some s' => run s' evs'
      end
  end.

(** The last line of the script: [bindPage()]. *)
Definition start (html : string) : State := bindPage (loaded html).

Definition reachable (s : State) : Prop :=
  exists html evs, run (start html) evs = Some s.

End Script.

(* ================================================================== *)
(** ** Observations used in the statements *)

(** The text [recalculate] writes for the integer score [z]. *)
Definition score_text (z : Z) : string :=
  ("SCORE: " ++ ToString (RInt z))%string.

(** The effects performed between two states of one execution. *)
Definition effects_since (before after : State) : list Effect :=
  skipn (List.length (trace before)) (trace after).

(** One invocation of [recalculate] in state [s] displays score [z]. *)
Definition displays (s : State) (z : Z) : Prop :=
  effects_since s (recalculate s)
  = [Recalculate (leftElbow (imgResult s)) (leftElbow (userResult s));
     SetInnerHTML (score_text z)]
  /\ score_placeholder (recalculate s) = score_text z.

(** One invocation of [recalculate] in state [s] writes nothing: the
    placeholder keeps its content. *)
Definition no_score (s : State) : Prop :=
  effects_since s (recalculate s)
  = [Recalculate (leftElbow (imgResult s)) (leftElbow (userResult s))]
  /\ score_placeholder (recalculate s) = score_placeholder s.

(** round((1 - delta / 20) * 100), each operation rounded to binary64 as
    the script computes it. *)
Definition round_percent (delta : Q) : Z :=
  Qfloor (rnd (rnd (1 - rnd (delta / 20)) * 100) + (1 # 2)).

(** The same formula over the rationals, without any rounding but the
    last. *)
Definition exact_percent (delta : Q) : Z :=
  Qfloor ((1 - delta / 20) * 100 + (1 # 2)).

(** The score of a live angle against a reference angle: none unless the
    live angle is truthy and the difference of the two, computed in
    binary64, is at most 20. *)
Definition score_of (img user : number) : option Z :=
  if ToBoolean user then
    match Math_abs (JS.sub img user) with
    | Fin d => if Qle_bool d 20 then Some (round_percent d) else None
    | _ => None
    end
  else None.

(** The writes to the score placeholder among some effects. *)
Fixpoint writes (tr : list Effect) : list string :=
  match tr with
  | [] => []
  | SetInnerHTML h :: tr' => h :: writes tr'
  | _ :: tr' => writes tr'
  end.

(** The invocations of [recalculate] among some effects, each with the
    reference and the live angle it compared. *)
Fixpoint comparisons (tr : list Effect) : list (number * number) :=
  match tr with
  | [] => []
  | Recalculate i u :: tr' => (i, u) :: comparisons tr'
  | _ :: tr' => comparisons tr'
  end.


(** The claim that no write occurs whenever the difference of the two
    angles (finite numbers, each read as a binary64 number) exceeds the
    tolerance 20. *)
Definition out_of_tolerance_never_writes : Prop :=
  forall (s : State) (r l : Q),
    leftElbow (imgResult s) = Fin r -> leftElbow (userResult s) = Fin l ->
    20 < Qabs (rnd r - rnd l) ->
    writes (effects_since s (recalculate s)) = [].

(** A state of the page with the two angles set. *)
Definition page (img user : number) (html : string) : State :=
  with_userResult {| leftElbow := user |}
    (with_imgResult {| leftElbow := img |} (loaded html)).

(** The effects of one invocation of [recalculate] that reads the
    reference angle [img] and the live angle [user]. *)
Definition recalculate_effects (img user : number) : list Effect :=
  trace (recalculate (page img user "")).

(** Fields that scoring and drawing never touch. *)
Definition same_outside_display (s s' : State) : Prop :=
  guiState s' = guiState s /\ imgResult s' = imgResult s
  /\ image s' = image s /\ predictedPoses s' = predictedPoses s
  /\ tensors s' = tensors s /\ fresh s' = fresh s
  /\ pending s' = pending s /\ uncaught s' = uncaught s.

(** Frame-loop continuations among the pending ones. *)
Definition is_frame_estimate (k : Pending) : bool :=
  match k with AwaitFrameEstimate _ => true | _ => false end.

Definition is_frame_request (k : Pending) : bool :=
  match k with AnimationFrameRequest => true | _ => false end.

(** Estimation calls of the frame loop that are issued and not settled. *)
Definition in_flight (s : State) : nat :=
  List.length (filter is_frame_estimate (pending s)).

(** Animation-frame callbacks registered and not fired. *)
Definition scheduled (s : State) : nat :=
  List.length (filter is_frame_request (pending s)).

(** Continuations that can still lead to a call of [poseDetectionFrame]:
    the two awaits of [bindPage] and the two suspensions of the loop. *)
Definition loop_token (k : Pending) : nat :=
  match k with
  | AwaitPosenetLoad | AwaitLoadVideo
  | AwaitFrameEstimate _ | AnimationFrameRequest => 1
  | AwaitLoadImage | AwaitReferenceEstimate _ => 0
  end.

Fixpoint loop_tokens (ks : list Pending) : nat :=
  match ks with
  | [] => O
  | k :: ks' => (loop_token k + loop_tokens ks')%nat
  end.

(** Estimation calls on the video among some effects. *)
Fixpoint frame_calls (tr : list Effect) : nat :=
  match tr with
  | [] => O
  | EstimatePoses Video _ _ :: tr' => S (frame_calls tr')
  | _ :: tr' => frame_calls tr'
  end.

(** The reference load has started and has not run to its end. *)
Definition reference_loading (s : State) : Prop :=
  In AwaitLoadImage (pending s)
  \/ exists t, In (AwaitReferenceEstimate t) (pending s).

Section Observations.

Variable calculateAngle :
  option Keypoint -> option Keypoint -> option Keypoint -> number.

(** The angle feature of a pose: left wrist (9), left elbow (7), left
    shoulder (5). *)
Definition elbow (p : Pose) : number :=
  calculateAngle (index (keypoints p) 9) (index (keypoints p) 7)
                 (index (keypoints p) 5).

Definition draw_effects (g : GuiState) (minPartConfidence : number)
    (p : Pose) : list Effect :=
  (if showPoints (output g)
   then [DrawKeypoints (keypoints p) minPartConfidence] else [])
  ++ (if showSkeleton (output g)
      then [DrawSkeleton (keypoints p) minPartConfidence] else [])
  ++ (if showBoundingBox (output g)
      then [DrawBoundingBox (keypoints p)] else []).

(** What the [forEach] callback does for one pose, given the cached
    reference angle [img]. *)
Definition pose_effects (g : GuiState)
    (minPoseConfidence minPartConfidence : number) (img : number)
    (p : Pose) : list Effect :=
  if JS.ge (score p) minPoseConfidence
  then recalculate_effects img (elbow p)
       ++ draw_effects g minPartConfidence p
  else [].

(** The scores of the poses of one frame against the reference angle
    [img], in order: each pose is scored from its own angle alone, and a
    pose without a score contributes nothing. *)
Definition scores_of (img : number) (ps : list Pose) : list Z :=
  flat_map (fun p => match score_of img (elbow p) with
                     | Some z => [z]
                     | None => []
                     end) ps.

End Observations.

(** A stand-in for [calculateAngle] that reports [q] degrees for every
    triple; it instantiates the parameter when the script is run on
    concrete inputs. *)
Definition constant_angle (q : Q) :
  option Keypoint -> option Keypoint -> option Keypoint -> number :=
  fun _ _ _ => Fin q.

(** The [i]-th pending continuation is settled with outcome [o]. *)
Definition settle (i : nat) (o : Outcome) : Event :=
  {| target := i; outcome := o |}.

(** A pose with overall confidence [c] and keypoints [kps]. *)
Definition pose_of (c : Q) (kps : list Keypoint) : Pose :=
  {| score := Fin c; keypoints := kps |}.

(** Seventeen keypoints, as the pose model returns them. *)
Definition sample_keypoints : list Keypoint :=
  repeat {| kscore := Fin (9 # 10);
            position := {| x := Fin 120; y := Fin 80 |};
            part := "keypoint" |} 17.

(** The page from the start of the script to the moment the camera is
    ready: the model is loaded, then the video. *)
Definition startup : list Event := [settle 0 Loaded; settle 0 Loaded].

(** The thresholds a tick uses after its [await]. *)
Definition minPoseConfidence_of (a : SwitchCase) (g : GuiState) : number :=
  match a with
  | case_single_pose => s_minPoseConfidence (singlePoseDetection g)
  | case_multi_pose => m_minPoseConfidence (multiPoseDetection g)
  end.

Definition minPartConfidence_of (a : SwitchCase) (g : GuiState) : number :=
  match a with
  | case_single_pose => s_minPartConfidence (singlePoseDetection g)
  | case_multi_pose => m_minPartConfidence (multiPoseDetection g)
  end.

(** Whether tensor [t] has been disposed among some effects. *)
Definition disposed (t : tensor) (tr : list Effect) : bool :=
  existsb (fun e => match e with
                    | Dispose u => tensor_eqb u t
                    | _ => false
                    end) tr.

(** The page once [bindPage] has run to its end: model and camera are
    ready, the first tick and the reference load are under way. *)
Definition camera_ready (html : string) : State :=
  bindPage_video
    (with_pending [] (bindPage_net (with_pending [] (start html)))).

(* ================================================================== *)
(** ** AngleCalculator *)

Module AngleCalculator.

Import Reals.
Local Open Scope R_scope.

(** Modelled from the spec: the 2-D joint positions that [calculateAngle]
    of ./utils (missing from the sources) takes; confidence is ignored
    there, section 4.1. *)
Record Point : Type := { px : R; py : R }.

(** Modelled from the spec: the failure signal of the missing
    [calculateAngle], sections 4.1 and 7. *)
Inductive Signal : Type := DegenerateGeometry.

(** Modelled from the spec: the vector from the vertex to a point, for the
    two-vector formula of the missing [calculateAngle]. *)
Definition ray (vertex p : Point) : R * R :=
  (px p - px vertex, py p - py vertex).

(** Modelled from the spec: dot product of the missing [calculateAngle]'s
    formula. *)
Definition dot (u w : R * R) : R := fst u * fst w + snd u * snd w.

(** Modelled from the spec: vector length in the missing
    [calculateAngle]'s formula. *)
Definition norm (u : R * R) : R := sqrt (dot u u).

(** Modelled from the spec: the degenerate case of the missing
    [calculateAngle], a point that coincides with the vertex. *)
Definition coincide (a b : Point) : bool :=
  if Req_dec_T (px a) (px b)
  then if Req_dec_T (py a) (py b) then true else false
  else false.

(** Modelled from the spec: [calculateAngle] of ./utils, which is not part
    of the sources at hand.  Section 4.1: the angle at [vertex] between the
    rays to [pointA] and [pointB], by the dot-product / arccosine formula,
    in degrees; a vertex that coincides with [pointA] or [pointB] is
    guarded and fails with [DegenerateGeometry].  The points are taken over
    the real numbers. *)
Definition angleOf (vertex pointA pointB : Point) : Signal + R :=
  if coincide vertex pointA || coincide vertex pointB
  then inl DegenerateGeometry
  else
    let u := ray vertex pointA in
    let w := ray vertex pointB in
    inr (acos (dot u w / (norm u * norm w)) * 180 / PI).

End AngleCalculator.

(* ================================================================== *)
(** ** The camera: [setupCamera] and [loadVideo] *)

Module Camera.

(** [window.innerWidth], [window.innerHeight]. *)
Record Window : Type := { innerWidth : number; innerHeight : number }.

(** Lines 21-22. *)
Definition videoWidth (w : Window) : number :=
  JS.mul (innerWidth w) (Fin (7 # 10)).
Definition videoHeight (w : Window) : number := innerHeight w.

(** [navigator.mediaDevices], when it is there, and whether it has a
    [getUserMedia] method. *)
Record MediaDevices : Type := { getUserMedia : bool }.
Record Navigator : Type := { mediaDevices : option MediaDevices }.

(** A media stream handed out by the browser. *)
Inductive Stream : Type := stream (id : nat).

(** The <video> element: [None] is a property that was never assigned. *)
Record Video : Type := {
  width : option number;
  height : option number;
  srcObject : option Stream;
  onloadedmetadata : bool;          (* a handler is registered *)
  played : nat                      (* calls of video.play() *)
}.

(** The argument of [getUserMedia]; [None] is [undefined]. *)
Record VideoConstraints : Type := {
  facingMode : string;
  c_width : option number;
  c_height : option number
}.
Record Constraints : Type := { audio : bool; c_video : VideoConstraints }.

Inductive Waiting : Type :=
| AwaitGetUserMedia       (* setupCamera, at getUserMedia *)
| AwaitLoadedMetadata.    (* setupCamera's promise, resolved by the handler *)

(** The promise returned by [loadVideo]. *)
Inductive Promise : Type :=
| Unsettled
| Resolved
| RejectedWith (e : string).

Record CameraState : Type := {
  video : Video;
  waiting : option Waiting;
  requests : list Constraints;      (* calls of getUserMedia, in order *)
  promise : Promise
}.

Definition unavailable : string :=
  "Browser API navigator.mediaDevices.getUserMedia not available".

(** [loadVideo()], lines 54-59, which enters [setupCamera], lines 27-52,
    and runs it to its first suspension.  [mobile] is the result of
    [isMobile()], a function of ./utils. *)
Definition loadVideo (nav : Navigator) (mobile : bool) (w : Window)
    (v : Video) : CameraState :=
  let available :=
    match mediaDevices nav with
    | None => false
    | Some md => getUserMedia md
    end in
  if negb available then
    {| video := v; waiting := None; requests := [];
       promise := RejectedWith unavailable |}
  else
    let v := {| width := Some (videoWidth w); height := Some (videoHeight w);
                srcObject := srcObject v;
                onloadedmetadata := onloadedmetadata v;
                played := played v |} in
    {| video := v; waiting := Some AwaitGetUserMedia;
       requests :=
         [{| audio := false;
             c_video :=
               {| facingMode := "user";
                  c_width := if mobile then None else Some (videoWidth w);
                  c_height := if mobile then None
                              else Some (videoHeight w) |} |}];
       promise := Unsettled |}.

Inductive CameraEvent : Type :=
| Granted (st : Stream)     (* getUserMedia resolved *)
| Denied (e : string)       (* getUserMedia rejected *)
| LoadedMetadata.           (* the video fires loadedmetadata *)

(** The rest of [setupCamera] and of [loadVideo], event by event. *)
Definition camera_step (c : CameraState) (ev : CameraEvent)
    : option CameraState :=
  match waiting c, ev with
  | Some AwaitGetUserMedia, Granted st =>
      (* video.srcObject = stream; the handler is set; lines 45-51 *)
      Some {| video := {| width := width (video c);
                          height := height (video c);
                          srcObject := Some st;
                          onloadedmetadata := true;
                          played := played (video c) |};
              waiting := Some AwaitLoadedMetadata;
              requests := requests c;
              promise := promise c |}
  | Some AwaitGetUserMedia, Denied e =>
      Some {| video := video c; waiting := None; requests := requests c;
              promise := RejectedWith e |}
  | Some AwaitLoadedMetadata, LoadedMetadata =>
      (* setupCamera resolves; loadVideo plays and returns; lines 55-58 *)
      Some {| video := {| width := width (video c);
                          height := height (video c);
                          srcObject := srcObject (video c);
                          onloadedmetadata := onloadedmetadata (video c);
                          played := S (played (video c)) |};
              waiting := None;
              requests := requests c;
              promise := Resolved |}
  | _, _ => None
  end.

Fixpoint camera_run (c : CameraState) (evs : list CameraEvent)
    : option CameraState :=
  match evs with
  | [] => Some c
  | ev :: evs' =>
      match camera_step c ev with
      | None => None
      | Some c' => camera_run c' evs'
      end
  end.

(** A <video> element nothing was assigned to. *)
Definition blank : Video :=
  {| width := None; height := None; srcObject := None;
     onloadedmetadata := false; played := O |}.

(** What [bindPage] receives at [await loadVideo()]. *)
Definition settled (p : Promise) : option Outcome :=
  match p with
  | Unsettled => None
  | Resolved => Some Loaded
  | RejectedWith e => Some (Rejected e)
  end.

End Camera.

(* ================================================================== *)
(** ** Observations on whole runs *)

(** [guiState] once [bindPage] has stored the model. *)
Definition ready_gui : GuiState := set_net (Some posenet_model) guiState0.

(** The two awaits of [bindPage]. *)
Definition is_bind (k : Pending) : bool :=
  match k with
  | AwaitPosenetLoad | AwaitLoadVideo => true
  | _ => false
  end.

(** The two awaits of [testImageAndEstimatePoses]. *)
Definition is_reference_wait (k : Pending) : bool :=
  match k with
  | AwaitLoadImage | AwaitReferenceEstimate _ => true
  | _ => false
  end.

(** The calls made on behalf of the reference image. *)
Definition is_reference_effect (e : Effect) : bool :=
  match e with
  | LoadImage _ | FromPixels _ | Dispose _ => true
  | EstimatePoses (Tensor _) _ _ => true
  | _ => false
  end.

Definition reference_effects (tr : list Effect) : list Effect :=
  filter is_reference_effect tr.

(** The full sequence of calls of a reference load that runs to its end. *)
Definition reference_script : list Effect :=
  [LoadImage "https://i.imgur.com/Vs9p4Sj.jpg";
   FromPixels O;
   EstimatePoses (Tensor O) false single_person;
   Dispose O].

(** An estimation call on the video that is not the single-person call
    with mirrored keypoints. *)
Definition is_other_video_call (e : Effect) : bool :=
  match e with
  | EstimatePoses Video true single_person => false
  | EstimatePoses Video _ _ => true
  | _ => false
  end.

(** The initial value of both results. *)
Definition zero_result : Result := {| leftElbow := of_Z 0 |}.

(** How far the reference load has come, read off a state. *)
Inductive reference_flow (calculateAngle :
    option Keypoint -> option Keypoint -> option Keypoint -> number)
    (s : State) : Prop :=
| flow_not_started :
    reference_effects (trace s) = [] ->
    guiState s = guiState0 ->
    tensors s = [] -> fresh s = O ->
    imgResult s = zero_result -> predictedPoses s = None ->
    (forall k, In k (pending s) -> is_bind k = true) ->
    reference_flow calculateAngle s
| flow_loading :
    reference_effects (trace s) = firstn 1 reference_script ->
    guiState s = ready_gui ->
    tensors s = [] -> fresh s = O ->
    imgResult s = zero_result -> predictedPoses s = None ->
    In AwaitLoadImage (pending s) ->
    List.length (filter is_reference_wait (pending s)) = 1%nat ->
    filter is_bind (pending s) = [] ->
    reference_flow calculateAngle s
| flow_estimating :
    reference_effects (trace s) = firstn 3 reference_script ->
    guiState s = ready_gui ->
    tensors s = [O] -> fresh s = 1%nat ->
    imgResult s = zero_result -> predictedPoses s = None ->
    In (AwaitReferenceEstimate O) (pending s) ->
    List.length (filter is_reference_wait (pending s)) = 1%nat ->
    filter is_bind (pending s) = [] ->
    reference_flow calculateAngle s
| flow_aborted :
    reference_effects (trace s) = firstn 3 reference_script ->
    guiState s = ready_gui ->
    tensors s = [O] -> fresh s = 1%nat ->
    imgResult s = zero_result -> predictedPoses s = None ->
    filter is_reference_wait (pending s) = [] ->
    filter is_bind (pending s) = [] ->
    uncaught s <> [] ->
    reference_flow calculateAngle s
| flow_finished (p : Pose) :
    reference_effects (trace s) = reference_script ->
    guiState s = ready_gui ->
    tensors s = [] -> fresh s = 1%nat ->
    predictedPoses s = Some p ->
    imgResult s
    = (if JS.ge (score p) (Fin (7 # 10))
       then {| leftElbow := elbow calculateAngle p |}
       else zero_result) ->
    filter is_reference_wait (pending s) = [] ->
    filter is_bind (pending s) = [] ->
    reference_flow calculateAngle s.

(** A score between 0 and 100, as [recalculate] prints it. *)
Definition percent_text (h : string) : Prop :=
  exists z : Z, (0 <= z <= 100)%Z /\ h = score_text z.

(** The event does not reject the promise it settles. *)
Definition no_rejection (ev : Event) : bool :=
  match outcome ev with
  | Rejected _ => false
  | _ => true
  end.

(** The pose does not reach the confidence threshold. *)
Definition below (thr : number) (p : Pose) : bool :=
  negb (JS.ge (score p) thr).

(** The last element of a list, if any. *)
Fixpoint last_of {A : Type} (l : list A) : option A :=
  match l with
  | [] => None
  | [a] => Some a
  | _ :: l' => last_of l'
  end.

(** A session in which everything succeeds: the reference image is
    loaded and estimated with confidence 0.9, then a tick resolves with a
    pose of confidence 1. *)
Definition full_session : list Event :=
  startup ++ [settle 1 Loaded;
              settle 1 (Estimated [pose_of (9 # 10) sample_keypoints]);
              settle 0 (Estimated [pose_of 1 sample_keypoints])].

(** The same session up to the end of the reference load. *)
Definition reference_session : list Event :=
  startup ++ [settle 1 Loaded;
              settle 1 (Estimated [pose_of (9 # 10) sample_keypoints])].

(** A session in which the estimation of the first tick is rejected. *)
Definition broken_session : list Event :=
  startup ++ [settle 0 (Rejected "context lost")].

(** The page after the events [evs], all angles being 10 degrees. *)
Definition after (evs : list Event) : State :=
  match run (constant_angle 10) (start "") evs with
  | Some s => s
  | None => start ""
  end.

(** A drawing call as the initial [guiState] allows it: points and
    skeleton with the single-pose part threshold 0.7, no bounding box. *)
Definition default_drawing (e : Effect) : Prop :=
  match e with
  | DrawKeypoints _ mp | DrawSkeleton _ mp => mp = Fin (7 # 10)
  | DrawBoundingBox _ => False
  | _ => True
  end.

(** How many of the effects satisfy [f]. *)
Definition count (f : Effect -> bool) (tr : list Effect) : nat :=
  List.length (filter f tr).

Definition is_clear (e : Effect) : bool :=
  match e with ClearRect => true | _ => false end.

Definition is_video_drawn (e : Effect) : bool :=
  match e with DrawVideo => true | _ => false end.

Definition is_next_frame (e : Effect) : bool :=
  match e with RequestAnimationFrame => true | _ => false end.

Definition is_points (e : Effect) : bool :=
  match e with DrawKeypoints _ _ => true | _ => false end.

Definition is_skeleton (e : Effect) : bool :=
  match e with DrawSkeleton _ _ => true | _ => false end.

Definition is_comparison (e : Effect) : bool :=
  match e with Recalculate _ _ => true | _ => false end.

(** The canvas was redrawn the same number of times in every way: per
    frame the video once and one request of the next frame, per
    comparison the points once and the skeleton once. *)
Definition balanced (es : list Effect) : Prop :=
  count is_video_drawn es = count is_clear es
  /\ count is_next_frame es = count is_clear es
  /\ count is_points es = count is_comparison es
  /\ count is_skeleton es = count is_comparison es.

(* ================================================================== *)
(** ** Rounding to binary64 *)

(* The lemmas on numbers take all their arguments explicitly. *)
Unset Implicit Arguments.

Lemma pow2_pos (k : Z) : 0 < 2 ^ k.
Proof. apply Qpower_0_lt. reflexivity. Qed.

Lemma pow2_add (a b : Z) : 2 ^ (a + b) == 2 ^ a * 2 ^ b.
Proof. apply Qpower_plus. discriminate. Qed.

Lemma pow2_le (a b : Z) : (a <= b)%Z -> 2 ^ a <= 2 ^ b.
Proof. intros H. apply Qpower_le_compat_l; [exact H|discriminate]. Qed.

Lemma pow2_lt (a b : Z) : (a < b)%Z -> 2 ^ a < 2 ^ b.
Proof. intros H. apply Qpower_lt_compat_l; [exact H|reflexivity]. Qed.

Lemma pow2_lt_inv (a b : Z) : 2 ^ a < 2 ^ b -> (a < b)%Z.
Proof. intros H. apply (Qpower_lt_compat_l_inv 2); [exact H|reflexivity]. Qed.

Lemma pow2_Z (n : Z) : (0 <= n)%Z -> inject_Z (2 ^ n) == 2 ^ n.
Proof. intros H. rewrite Zpower_Qpower by exact H. reflexivity. Qed.

Lemma pow2_opp (n : Z) : 2 ^ (- n) == / 2 ^ n.
Proof. apply Qpower_opp. Qed.

(** [ilog2 q] is the binary logarithm of [q], rounded down. *)
Lemma ilog2_spec (q : Q) :
  0 < q -> 2 ^ ilog2 q <= q /\ q < 2 ^ (ilog2 q + 1).
Proof.
  intros Hq. unfold ilog2. destruct (Qle_bool 1 q) eqn:E.
  - apply Qle_bool_iff in E.
    assert (F : (1 <= Qfloor q)%Z).
    { change 1%Z with (Qfloor 1). apply Qfloor_resp_le. exact E. }
    destruct (Z.log2_spec (Qfloor q)) as [L U]; [lia|].
    pose proof (Z.log2_nonneg (Qfloor q)) as N.
    split.
    + rewrite <- pow2_Z by exact N.
      apply Qle_trans with (inject_Z (Qfloor q)); [|apply Qfloor_le].
      rewrite <- Zle_Qle. exact L.
    + rewrite <- pow2_Z by lia.
      apply Qlt_le_trans with (inject_Z (Qfloor q + 1)); [apply Qlt_floor|].
      rewrite <- Zle_Qle. lia.
  - assert (L1 : q < 1).
    { apply Qnot_le_lt. intros H. apply Qle_bool_iff in H. congruence. }
    assert (I1 : 1 < / q).
    { apply Qlt_shift_inv_l; [exact Hq|]. lra. }
    set (c := Qceiling (/ q)).
    assert (C1 : (1 < c)%Z).
    { rewrite Zlt_Qlt. apply Qlt_le_trans with (/ q); [exact I1|].
      apply Qle_ceiling. }
    destruct (Z.log2_up_spec c C1) as [L U].
    pose proof (Z.log2_up_pos c C1) as N.
    set (j := Z.log2_up c) in *.
    assert (Hc : / q <= inject_Z c) by apply Qle_ceiling.
    assert (Hc' : inject_Z (c - 1) < / q) by apply Qceiling_lt.
    assert (Q1 : q * / q == 1).
    { apply Qmult_inv_r. intros H. rewrite H in Hq. discriminate Hq. }
    split.
    + rewrite pow2_opp. apply Qle_shift_inv_r; [apply pow2_pos|].
      rewrite <- pow2_Z by lia.
      assert (U' : inject_Z c <= inject_Z (2 ^ j)) by (rewrite <- Zle_Qle; exact U).
      rewrite <- Q1. rewrite Qmult_le_l by exact Hq.
      apply Qle_trans with (inject_Z c); assumption.
    + replace (- j + 1)%Z with (- (j - 1))%Z by lia.
      rewrite pow2_opp. apply Qlt_shift_inv_l; [apply pow2_pos|].
      rewrite <- pow2_Z by lia.
      assert (L' : inject_Z (2 ^ (j - 1)) <= inject_Z (c - 1)).
      { rewrite <- Zle_Qle. replace (j - 1)%Z with (Z.pred j) by lia. lia. }
      rewrite <- Q1. rewrite Qmult_lt_l by exact Hq.
      apply Qle_lt_trans with (inject_Z (c - 1)); assumption.
Qed.

Lemma ilog2_unique (q : Q) (k : Z) :
  2 ^ k <= q -> q < 2 ^ (k + 1) -> ilog2 q = k.
Proof.
  intros L U.
  assert (Hq : 0 < q) by (eapply Qlt_le_trans; [apply pow2_pos|exact L]).
  destruct (ilog2_spec q Hq) as [L' U'].
  assert (A : (k < ilog2 q + 1)%Z).
  { apply pow2_lt_inv. eapply Qle_lt_trans; eassumption. }
  assert (B : (ilog2 q < k + 1)%Z).
  { apply pow2_lt_inv. eapply Qle_lt_trans; eassumption. }
  lia.
Qed.

Lemma ilog2_comp (x y : Q) : x == y -> ilog2 x = ilog2 y.
Proof.
  intros H. unfold ilog2.
  rewrite (Qfloor_comp _ _ H), (Qceiling_comp (/ x) (/ y)) by (rewrite H; reflexivity).
  replace (Qle_bool 1 x) with (Qle_bool 1 y); [reflexivity|].
  apply eq_true_iff_eq. rewrite !Qle_bool_iff, H. reflexivity.
Qed.

Lemma ilog2_mono (x y : Q) : 0 < x -> x <= y -> (ilog2 x <= ilog2 y)%Z.
Proof.
  intros Hx H.
  assert (Hy : 0 < y) by (eapply Qlt_le_trans; eassumption).
  destruct (ilog2_spec x Hx) as [Lx _].
  destruct (ilog2_spec y Hy) as [_ Uy].
  assert (A : (ilog2 x < ilog2 y + 1)%Z).
  { apply pow2_lt_inv. eapply Qle_lt_trans; [exact Lx|].
    eapply Qle_lt_trans; eassumption. }
  lia.
Qed.

Lemma rne_comp (x y : Q) : x == y -> rne x = rne y.
Proof.
  intros H. unfold rne. rewrite (Qfloor_comp _ _ H).
  replace (Qcompare (x - inject_Z (Qfloor y)) (1 # 2))
    with (Qcompare (y - inject_Z (Qfloor y)) (1 # 2)); [reflexivity|].
  apply Qcompare_comp; [rewrite H|]; reflexivity.
Qed.

Lemma rne_cases (q : Q) :
  (rne q = Qfloor q /\ q - inject_Z (Qfloor q) <= 1 # 2)
  \/ (rne q = (Qfloor q + 1)%Z /\ 1 # 2 <= q - inject_Z (Qfloor q)).
Proof.
  unfold rne.
  destruct (Qcompare_spec (q - inject_Z (Qfloor q)) (1 # 2)) as [H|H|H].
  - destruct (Z.even (Qfloor q)); [left|right]; split; auto; rewrite H;
      apply Qle_refl.
  - left. split; [reflexivity|apply Qlt_le_weak; exact H].
  - right. split; [reflexivity|apply Qlt_le_weak; exact H].
Qed.

Lemma rne_Z (z : Z) : rne (inject_Z z) = z.
Proof.
  unfold rne. rewrite Qfloor_Z.
  assert (E : inject_Z z - inject_Z z == 0) by ring.
  rewrite E. reflexivity.
Qed.


(** Rounding to the nearest integer is monotone. *)
Lemma rne_mono (x y : Q) : x <= y -> (rne x <= rne y)%Z.
Proof.
  intros H. pose proof (Qfloor_resp_le _ _ H) as F.
  destruct (Z.eq_dec (Qfloor x) (Qfloor y)) as [E|N].
  - unfold rne. rewrite <- E.
    destruct (Qcompare_spec (x - inject_Z (Qfloor x)) (1 # 2)) as [A|A|A];
      destruct (Qcompare_spec (y - inject_Z (Qfloor x)) (1 # 2)) as [B|B|B];
      try destruct (Z.even (Qfloor x)); try lia; exfalso; lra.
  - destruct (rne_cases x) as [[-> _]|[-> _]];
      destruct (rne_cases y) as [[-> _]|[-> _]]; lia.
Qed.

Lemma pow2_sub (a b : Z) : 2 ^ (a - b) == 2 ^ a / 2 ^ b.
Proof. apply Qpower_minus. discriminate. Qed.

Lemma pow2_nonzero (k : Z) : ~ 2 ^ k == 0.
Proof. pose proof (pow2_pos k) as H. intros E. rewrite E in H. discriminate H. Qed.

Lemma exponent_comp (x y : Q) : x == y -> exponent x = exponent y.
Proof. intros H. unfold exponent. rewrite (ilog2_comp _ _ H). reflexivity. Qed.

Lemma exponent_min (q : Q) : (-1074 <= exponent q)%Z.
Proof. unfold exponent. lia. Qed.

(** A number lies below 2^53 units in its last place, and at or above
    2^52 of them unless the last place is the least one of the format. *)
Lemma exponent_spec (q : Q) :
  0 < q ->
  q < 2 ^ (exponent q + 53)
  /\ (exponent q = (-1074)%Z \/ 2 ^ (exponent q + 52) <= q).
Proof.
  intros Hq. destruct (ilog2_spec q Hq) as [L U]. unfold exponent. split.
  - eapply Qlt_le_trans; [exact U|]. apply pow2_le. lia.
  - destruct (Z.max_spec (-1074) (ilog2 q - 52)) as [[_ ->]|[_ ->]];
      [right|left; reflexivity].
    replace (ilog2 q - 52 + 52)%Z with (ilog2 q) by lia. exact L.
Qed.

Lemma exponent_mono (x y : Q) :
  0 < x -> x <= y -> (exponent x <= exponent y)%Z.
Proof.
  intros Hx H. pose proof (ilog2_mono x y Hx H). unfold exponent. lia.
Qed.

Lemma pow2_split (e k : Z) : 2 ^ (e + k) == 2 ^ k * 2 ^ e.
Proof. rewrite pow2_add. ring. Qed.

Lemma scaled_lt (q : Q) (e k : Z) :
  q < 2 ^ (e + k) -> q / 2 ^ e < 2 ^ k.
Proof.
  intros H. apply Qlt_shift_div_r; [apply pow2_pos|].
  rewrite <- pow2_add. replace (k + e)%Z with (e + k)%Z by lia. exact H.
Qed.

Lemma scaled_le (q : Q) (e k : Z) :
  q <= 2 ^ (e + k) -> q / 2 ^ e <= 2 ^ k.
Proof.
  intros H. apply Qle_shift_div_r; [apply pow2_pos|].
  rewrite <- pow2_add. replace (k + e)%Z with (e + k)%Z by lia. exact H.
Qed.

Lemma scaled_ge (q : Q) (e k : Z) :
  2 ^ (e + k) <= q -> 2 ^ k <= q / 2 ^ e.
Proof.
  intros H. apply Qle_shift_div_l; [apply pow2_pos|].
  rewrite <- pow2_add. replace (k + e)%Z with (e + k)%Z by lia. exact H.
Qed.

Lemma nearest_comp (x y : Q) : x == y -> nearest x = nearest y.
Proof.
  intros H. unfold nearest. rewrite (exponent_comp _ _ H).
  rewrite (rne_comp (x / 2 ^ exponent y) (y / 2 ^ exponent y))
    by (rewrite H; reflexivity).
  reflexivity.
Qed.

(** The significand of the nearest number lies between 0 and 2^53, and
    reaches 2^52 except in the lowest binade. *)
Lemma significand_bounds (q : Q) :
  0 < q ->
  (0 <= rne (q / 2 ^ exponent q) <= 2 ^ 53)%Z
  /\ (exponent q = (-1074)%Z \/ (2 ^ 52 <= rne (q / 2 ^ exponent q))%Z).
Proof.
  intros Hq. destruct (exponent_spec q Hq) as [U L].
  assert (P : 0 <= q / 2 ^ exponent q).
  { apply Qle_shift_div_l; [apply pow2_pos|]. lra. }
  split; [split|].
  - rewrite <- (rne_Z 0). apply rne_mono. exact P.
  - rewrite <- (rne_Z (2 ^ 53)). apply rne_mono.
    rewrite pow2_Z by lia. apply Qlt_le_weak, scaled_lt. exact U.
  - destruct L as [L|L]; [left; exact L|right].
    rewrite <- (rne_Z (2 ^ 52)). apply rne_mono.
    rewrite pow2_Z by lia. apply scaled_ge. exact L.
Qed.

Lemma nearest_nonneg (q : Q) : 0 < q -> 0 <= nearest q.
Proof.
  intros Hq. destruct (significand_bounds q Hq) as [[L _] _].
  unfold nearest. apply Qmult_le_0_compat.
  - change 0 with (inject_Z 0). rewrite <- Zle_Qle. exact L.
  - apply Qlt_le_weak, pow2_pos.
Qed.

(** Rounding is monotone, also across a change of exponent. *)
Lemma nearest_mono (x y : Q) : 0 < x -> x <= y -> nearest x <= nearest y.
Proof.
  intros Hx H.
  assert (Hy : 0 < y) by (eapply Qlt_le_trans; eassumption).
  pose proof (exponent_mono x y Hx H) as E.
  destruct (significand_bounds x Hx) as [[_ Ux] _].
  destruct (significand_bounds y Hy) as [_ Ly].
  unfold nearest.
  destruct (Z.eq_dec (exponent x) (exponent y)) as [Eq|Ne].
  - rewrite Eq. apply Qmult_le_compat_r; [|apply Qlt_le_weak, pow2_pos].
    rewrite <- Zle_Qle. apply rne_mono.
    apply Qmult_le_compat_r; [exact H|].
    apply Qlt_le_weak, Qinv_lt_0_compat, pow2_pos.
  - destruct Ly as [Ly|Ly]; [pose proof (exponent_min x); lia|].
    apply Qle_trans with (2 ^ (exponent x + 53)).
    + rewrite pow2_split.
      apply Qmult_le_compat_r; [|apply Qlt_le_weak, pow2_pos].
      rewrite <- (pow2_Z 53) by lia. rewrite <- Zle_Qle. exact Ux.
    + apply Qle_trans with (2 ^ (exponent y + 52)); [apply pow2_le; lia|].
      rewrite pow2_split.
      apply Qmult_le_compat_r; [|apply Qlt_le_weak, pow2_pos].
      rewrite <- (pow2_Z 52) by lia. rewrite <- Zle_Qle. exact Ly.
Qed.

(** Every number with a significand of at most 53 bits and an exponent
    of the format is its own nearest number. *)
Lemma nearest_fixed (M e : Z) :
  (0 < M <= 2 ^ 53)%Z -> (-1074 <= e)%Z ->
  nearest (inject_Z M * 2 ^ e) == inject_Z M * 2 ^ e.
Proof.
  intros HM He. set (v := inject_Z M * 2 ^ e).
  assert (Hv : 0 < v).
  { unfold v. apply Qmult_lt_0_compat; [|apply pow2_pos].
    change 0 with (inject_Z 0). rewrite <- Zlt_Qlt. lia. }
  destruct (Z.eq_dec M (2 ^ 53)) as [EM|NM].
  - assert (V : v == 2 ^ (e + 53)).
    { unfold v. rewrite EM, (pow2_Z 53) by lia. rewrite pow2_split.
      reflexivity. }
    assert (L : ilog2 v = (e + 53)%Z).
    { apply ilog2_unique; rewrite V; [apply Qle_refl|apply pow2_lt; lia]. }
    assert (E : exponent v = (e + 1)%Z) by (unfold exponent; lia).
    unfold nearest. rewrite E.
    rewrite (rne_comp (v / 2 ^ (e + 1)) (inject_Z (2 ^ 52))).
    + rewrite rne_Z, V, (pow2_Z 52) by lia.
      rewrite <- pow2_add. replace (52 + (e + 1))%Z with (e + 53)%Z by lia.
      reflexivity.
    + rewrite V, (pow2_Z 52) by lia. rewrite <- pow2_sub.
      replace (e + 53 - (e + 1))%Z with 52%Z by lia. reflexivity.
  - assert (U : v < 2 ^ (e + 53)).
    { unfold v. rewrite pow2_split.
      apply Qmult_lt_compat_r; [apply pow2_pos|].
      rewrite <- (pow2_Z 53) by lia. rewrite <- Zlt_Qlt. lia. }
    destruct (ilog2_spec v Hv) as [L _].
    assert (I : (ilog2 v < e + 53)%Z).
    { apply pow2_lt_inv. eapply Qle_lt_trans; eassumption. }
    assert (E : (exponent v <= e)%Z) by (unfold exponent; lia).
    unfold nearest. set (ev := exponent v) in *.
    assert (S : v / 2 ^ ev == inject_Z (M * 2 ^ (e - ev))).
    { unfold v. rewrite inject_Z_mult, (pow2_Z (e - ev)) by lia.
      rewrite pow2_sub. field. apply pow2_nonzero. }
    rewrite (rne_comp _ _ S), rne_Z.
    rewrite inject_Z_mult, (pow2_Z (e - ev)) by lia.
    rewrite pow2_sub. unfold v. field. apply pow2_nonzero.
Qed.

Lemma nearest_idem (q : Q) :
  0 < q -> 0 < nearest q -> nearest (nearest q) == nearest q.
Proof.
  intros Hq Hn. destruct (significand_bounds q Hq) as [[L U] _].
  unfold nearest at 2 3. apply nearest_fixed; [|apply exponent_min].
  split; [|exact U].
  destruct (Z.eq_dec (rne (q / 2 ^ exponent q)) 0) as [E|N]; [|lia].
  unfold nearest in Hn. rewrite E in Hn. exfalso.
  change (inject_Z 0) with 0 in Hn. rewrite Qmult_0_l in Hn. discriminate Hn.
Qed.


(** ** Rounding of all rationals *)

Lemma rnd_comp (x y : Q) : x == y -> rnd x = rnd y.
Proof.
  intros H. unfold rnd.
  replace (Qcompare x 0) with (Qcompare y 0)
    by (apply Qcompare_comp; [symmetry; exact H|reflexivity]).
  rewrite (nearest_comp x y H), (nearest_comp (- x) (- y))
    by (rewrite H; reflexivity).
  reflexivity.
Qed.

Lemma rnd_pos (q : Q) : 0 < q -> rnd q = nearest q.
Proof.
  intros H. unfold rnd.
  destruct (Qcompare_spec q 0) as [E|E|E]; [|exfalso; lra|reflexivity].
  rewrite E in H. discriminate H.
Qed.

Lemma rnd_neg (q : Q) : q < 0 -> rnd q = - nearest (- q).
Proof.
  intros H. unfold rnd.
  destruct (Qcompare_spec q 0) as [E|E|E]; [|reflexivity|exfalso; lra].
  rewrite E in H. discriminate H.
Qed.

Lemma rnd_zero (q : Q) : q == 0 -> rnd q = 0.
Proof.
  intros H. unfold rnd.
  destruct (Qcompare_spec q 0) as [E|E|E]; [reflexivity| |];
    rewrite H in E; discriminate E.
Qed.

(** Rounding is symmetric. *)
Lemma rnd_opp (q : Q) : rnd (- q) == - rnd q.
Proof.
  destruct (Qcompare_spec q 0) as [H|H|H].
  - rewrite (rnd_zero q H), (rnd_zero (- q)) by (rewrite H; reflexivity).
    reflexivity.
  - rewrite (rnd_neg q H), (rnd_pos (- q)) by lra. ring.
  - rewrite (rnd_pos q H), (rnd_neg (- q)) by lra.
    rewrite (nearest_comp (- - q) q) by ring. reflexivity.
Qed.

Lemma rnd_nonneg (q : Q) : 0 <= q -> 0 <= rnd q.
Proof.
  intros H. destruct (Qcompare_spec q 0) as [E|E|E].
  - rewrite (rnd_zero q E). apply Qle_refl.
  - lra.
  - rewrite (rnd_pos q E). apply nearest_nonneg. exact E.
Qed.

Lemma rnd_nonpos (q : Q) : q <= 0 -> rnd q <= 0.
Proof.
  intros H. pose proof (rnd_nonneg (- q)) as P. rewrite rnd_opp in P. lra.
Qed.

(** Rounding is monotone. *)
Lemma rnd_mono (x y : Q) : x <= y -> rnd x <= rnd y.
Proof.
  intros H.
  destruct (Qlt_le_dec 0 x) as [Hx|Hx].
  - rewrite (rnd_pos x Hx), (rnd_pos y) by lra. apply nearest_mono; assumption.
  - destruct (Qlt_le_dec 0 y) as [Hy|Hy].
    + apply Qle_trans with 0; [apply rnd_nonpos|apply rnd_nonneg]; lra.
    + destruct (Qcompare_spec y 0) as [E|E|E]; [| |lra].
      * rewrite (rnd_zero y E). apply rnd_nonpos. exact Hx.
      * rewrite (rnd_neg y E), (rnd_neg x) by lra.
        apply Qopp_le_compat. apply nearest_mono; lra.
Qed.

(** Rounding a rounded number changes nothing. *)
Lemma rnd_idem (q : Q) : rnd (rnd q) == rnd q.
Proof.
  assert (P : forall x, 0 < x -> rnd (nearest x) == nearest x).
  { intros x Hx. pose proof (nearest_nonneg x Hx) as N.
    destruct (Qcompare_spec (nearest x) 0) as [E|E|E]; [|lra|].
    - rewrite (rnd_zero _ E), E. reflexivity.
    - rewrite (rnd_pos _ E). apply nearest_idem; assumption. }
  destruct (Qcompare_spec q 0) as [H|H|H].
  - rewrite (rnd_zero q H). reflexivity.
  - rewrite (rnd_neg q H), rnd_opp, P by lra. reflexivity.
  - rewrite (rnd_pos q H). apply P. exact H.
Qed.

(** Rounding commutes with the absolute value. *)
Lemma rnd_abs (q : Q) : rnd (Qabs q) == Qabs (rnd q).
Proof.
  destruct (Qlt_le_dec q 0) as [H|H].
  - rewrite (rnd_comp (Qabs q) (- q)) by (apply Qabs_neg; lra).
    rewrite rnd_opp, (Qabs_neg (rnd q)); [reflexivity|].
    apply rnd_nonpos. lra.
  - rewrite (rnd_comp (Qabs q) q) by (apply Qabs_pos; exact H).
    rewrite Qabs_pos; [reflexivity|apply rnd_nonneg; exact H].
Qed.

(** Rounding never crosses a number of the format. *)
Lemma rnd_between (lo q hi : Q) :
  rnd lo == lo -> rnd hi == hi -> lo <= q <= hi -> lo <= rnd q <= hi.
Proof.
  intros L U [A B]. split.
  - apply Qle_trans with (rnd lo); [rewrite L; apply Qle_refl|].
    apply rnd_mono. exact A.
  - apply Qle_trans with (rnd hi); [apply rnd_mono; exact B|].
    rewrite U. apply Qle_refl.
Qed.

(* ================================================================== *)
(** ** Numbers *)

Lemma Qle_bool_comp (a b c d : Q) :
  a == c -> b == d -> Qle_bool a b = Qle_bool c d.
Proof.
  intros H1 H2. apply eq_true_iff_eq. rewrite !Qle_bool_iff, H1, H2.
  reflexivity.
Qed.

Lemma binary64_comp (x y : Q) : x == y -> binary64 x = binary64 y.
Proof. intros H. unfold binary64. rewrite (rnd_comp x y H). reflexivity. Qed.

Lemma binary64_Fin (q v : Q) :
  binary64 q = Fin v -> v == rnd q /\ Qabs (rnd q) < 2 ^ 1024 /\ v = Qred v.
Proof.
  unfold binary64. cbv zeta.
  destruct (Qle_bool (2 ^ 1024) (Qabs (rnd q))) eqn:E; [discriminate|].
  intros [= <-]. split; [apply Qred_correct|]. split.
  - apply Qnot_le_lt. intros H. apply Qle_bool_iff in H. congruence.
  - symmetry. apply Qred_complete. apply Qred_correct.
Qed.

Lemma binary64_finite (q : Q) :
  Qabs (rnd q) < 2 ^ 1024 -> binary64 q = Fin (Qred (rnd q)).
Proof.
  intros H. unfold binary64. cbv zeta.
  destruct (Qle_bool (2 ^ 1024) (Qabs (rnd q))) eqn:E; [|reflexivity].
  apply Qle_bool_iff in E. exfalso. apply (Qlt_not_le _ _ H). exact E.
Qed.

(** A binary64 number is read as itself. *)
Lemma binary64_idem (q v : Q) : binary64 q = Fin v -> binary64 v = Fin v.
Proof.
  intros H. destruct (binary64_Fin q v H) as (E & B & R).
  rewrite (binary64_comp v (rnd q) E).
  rewrite binary64_finite.
  - rewrite R. f_equal. apply Qred_complete. rewrite rnd_idem, E. reflexivity.
  - rewrite rnd_idem. exact B.
Qed.

Lemma read_binary64 (q : Q) : read (binary64 q) = binary64 q.
Proof.
  destruct (binary64 q) as [| |v] eqn:E; try reflexivity.
  cbn [read]. exact (binary64_idem q v E).
Qed.

Lemma read_read (a : number) : read (read a) = read a.
Proof. destruct a; try reflexivity. cbn [read]. apply read_binary64. Qed.

Lemma read_cases (a : number) :
  read a = NaN \/ (exists s, read a = Inf s)
  \/ (exists v, read a = Fin v /\ binary64 v = Fin v).
Proof.
  destruct a as [|s|q]; cbn [read]; [left; reflexivity|right; left; eauto|].
  destruct (binary64 q) as [|s|v] eqn:E; [left; reflexivity|right; left; eauto|].
  right. right. exists v. split; [reflexivity|]. exact (binary64_idem q v E).
Qed.

Lemma binary64_0 : binary64 0 = Fin 0.
Proof. vm_compute. reflexivity. Qed.

Lemma binary64_1 : binary64 1 = Fin 1.
Proof. vm_compute. reflexivity. Qed.

Lemma binary64_20 : binary64 20 = Fin 20.
Proof. vm_compute. reflexivity. Qed.

Lemma binary64_100 : binary64 100 = Fin 100.
Proof. vm_compute. reflexivity. Qed.

(** Between two binary64 numbers a computation stays finite and
    between them. *)
Lemma binary64_between (lo hi q : Q) :
  binary64 lo = Fin lo -> binary64 hi = Fin hi -> lo <= q <= hi ->
  exists v, binary64 q = Fin v /\ v == rnd q /\ lo <= v <= hi.
Proof.
  intros L U H.
  destruct (binary64_Fin lo lo L) as (EL & BL & _).
  destruct (binary64_Fin hi hi U) as (EU & BU & _).
  assert (B : lo <= rnd q <= hi).
  { apply rnd_between; [symmetry; exact EL|symmetry; exact EU|exact H]. }
  assert (F : Qabs (rnd q) < 2 ^ 1024).
  { rewrite <- EL in BL. rewrite <- EU in BU.
    apply Qabs_Qlt_condition in BL. apply Qabs_Qlt_condition in BU.
    apply Qabs_Qlt_condition. split; lra. }
  exists (Qred (rnd q)). split; [apply binary64_finite; exact F|].
  split; [apply Qred_correct|]. rewrite Qred_correct. exact B.
Qed.

Lemma binary64_nonneg (q v : Q) : 0 <= q -> binary64 q = Fin v -> 0 <= v.
Proof.
  intros H E. destruct (binary64_Fin q v E) as (Ev & _). rewrite Ev.
  apply rnd_nonneg. exact H.
Qed.

Lemma binary64_nonneg_Inf (q : Q) (s : bool) :
  0 <= q -> binary64 q = Inf s -> s = false.
Proof.
  intros H. unfold binary64. cbv zeta.
  destruct (Qle_bool (2 ^ 1024) (Qabs (rnd q))) eqn:E; [|discriminate].
  intros [= <-]. apply not_true_is_false. intros F.
  apply Qle_bool_iff in F. apply Qle_bool_iff in E.
  pose proof (rnd_nonneg q H) as P.
  assert (Z0 : rnd q == 0) by lra.
  rewrite Z0 in E. pose proof (pow2_pos 1024) as PP.
  change (Qabs 0) with 0 in E. lra.
Qed.

Lemma read_distance : read distance = Fin 20.
Proof. vm_compute. reflexivity. Qed.

Lemma read_one : read (of_Z 1) = Fin 1.
Proof. vm_compute. reflexivity. Qed.

Lemma read_hundred : read (of_Z 100) = Fin 100.
Proof. vm_compute. reflexivity. Qed.

(** On these operands, which include the ones of a score of 57, a
    difference that rounds to 20, a product with 0.7, subnormal numbers
    and an overflow, subtraction, multiplication, division and comparison
    give what the Standard Library's specification of binary64 gives. *)
Example agrees_with_the_standard_library :
  forallb (fun ab => agree (fst ab) (snd ab)) samples = true.
Proof. vm_compute. reflexivity. Qed.

(** Three computations of the script in binary64: the percentage of the
    angles 90 and 98.5 is 57.49999999999999, the difference of 21 and
    0.9999999999999999 is 20, and 3 * 0.7 is 2.0999999999999996. *)
Example binary64_computations :
  JS.mul (JS.sub (of_Z 1)
                 (JS.div (Math_abs (JS.sub (Fin 90) (Fin (197 # 2))))
                         (of_Z 20)))
         (of_Z 100)
  = Fin (8092405580431359 # 2 ^ 47)
  /\ JS.sub (Fin 21) (Fin (9999999999999999 # 10000000000000000)) = Fin 20
  /\ JS.mul (Fin 3) (Fin (7 # 10)) = Fin (1182194902184755 # 2 ^ 49).
Proof. vm_compute. repeat split; reflexivity. Qed.

(** The difference the guard of [recalculate] admits. *)
Lemma guard_delta (a b : number) :
  le (Math_abs (sub a b)) distance = true ->
  exists d, Math_abs (sub a b) = Fin d /\ binary64 d = Fin d
            /\ 0 <= d <= 20.
Proof.
  unfold Math_abs.
  destruct (read (sub a b)) as [|s|x]; unfold le at 1.
  - cbn [read]. discriminate.
  - cbn [read]. rewrite read_distance. discriminate.
  - rewrite read_binary64, read_distance.
    destruct (binary64 (Qabs x)) as [|s|d] eqn:E; [discriminate| |].
    + rewrite (binary64_nonneg_Inf (Qabs x) s (Qabs_nonneg x) E). discriminate.
    + intros H. apply Qle_bool_iff in H. exists d.
      split; [reflexivity|]. split; [exact (binary64_idem _ _ E)|].
      split; [exact (binary64_nonneg _ _ (Qabs_nonneg x) E)|exact H].
Qed.

Lemma round_percent_comp (d1 d2 : Q) :
  d1 == d2 -> round_percent d1 = round_percent d2.
Proof.
  intros H. unfold round_percent.
  rewrite (rnd_comp (d1 / 20) (d2 / 20)) by (rewrite H; reflexivity).
  reflexivity.
Qed.

(** The score computed in binary64 never increases with the
    difference. *)
Lemma round_percent_mono (d1 d2 : Q) :
  d1 <= d2 -> (round_percent d2 <= round_percent d1)%Z.
Proof.
  intros H. unfold round_percent. apply Qfloor_resp_le.
  apply Qplus_le_l. apply rnd_mono.
  apply Qmult_le_compat_r; [|discriminate]. apply rnd_mono.
  apply Qplus_le_r. apply Qopp_le_compat. apply rnd_mono.
  apply Qmult_le_compat_r; [exact H|discriminate].
Qed.

Lemma round_percent_0 : round_percent 0 = 100%Z.
Proof. vm_compute. reflexivity. Qed.

Lemma round_percent_20 : round_percent 20 = 0%Z.
Proof. vm_compute. reflexivity. Qed.

Lemma round_percent_range (d : Q) :
  0 <= d <= 20 -> (0 <= round_percent d <= 100)%Z.
Proof.
  intros [L U]. rewrite <- round_percent_0, <- round_percent_20.
  split; apply round_percent_mono; assumption.
Qed.

(** The percentage of [recalculate] on an admitted difference. *)
Lemma percent_round (d : Q) :
  binary64 d = Fin d -> 0 <= d <= 20 ->
  Math_round (mul (sub (of_Z 1) (div (Fin d) distance)) (of_Z 100))
  = RInt (round_percent d).
Proof.
  intros Bd Hd.
  assert (X : exists x, div (Fin d) distance = Fin x /\ binary64 x = Fin x
                        /\ x == rnd (d / 20) /\ 0 <= x <= 1).
  { unfold div. cbn [read]. rewrite Bd, read_distance.
    change (Qeq_bool 20 0) with false. cbv iota.
    destruct (binary64_between 0 1 (d / 20) binary64_0 binary64_1)
      as (x & E & V & B).
    { unfold Qdiv. change (/ 20) with (1 # 20). lra. }
    exists x. rewrite E. repeat split; try tauto.
    exact (binary64_idem _ _ E). }
  destruct X as (x & -> & Bx & Ex & Hx).
  assert (Y : exists y, sub (of_Z 1) (Fin x) = Fin y /\ binary64 y = Fin y
                        /\ y == rnd (1 - x) /\ 0 <= y <= 1).
  { unfold sub. rewrite read_one. cbn [read]. rewrite Bx.
    destruct (binary64_between 0 1 (1 - x) binary64_0 binary64_1)
      as (y & E & V & B); [lra|].
    exists y. rewrite E. repeat split; try tauto.
    exact (binary64_idem _ _ E). }
  destruct Y as (y & -> & By & Ey & Hy).
  assert (P : exists p, mul (Fin y) (of_Z 100) = Fin p /\ binary64 p = Fin p
                        /\ p == rnd (y * 100)).
  { unfold mul. rewrite read_hundred. cbn [read]. rewrite By.
    destruct (binary64_between 0 100 (y * 100) binary64_0 binary64_100)
      as (p & E & V & B); [lra|].
    exists p. rewrite E. repeat split; try tauto.
    exact (binary64_idem _ _ E). }
  destruct P as (p & -> & Bp & Ep).
  unfold Math_round. cbn [read]. rewrite Bp. f_equal.
  unfold round_percent. apply Qfloor_comp.
  rewrite Ep.
  rewrite (rnd_comp (y * 100) (rnd (1 - rnd (d / 20)) * 100)); [reflexivity|].
  rewrite Ey. rewrite (rnd_comp (1 - x) (1 - rnd (d / 20))); [reflexivity|].
  rewrite Ex. reflexivity.
Qed.





Set Implicit Arguments.

(* ================================================================== *)
(** ** Scoring: [recalculate] *)

Lemma effects_since_app (s s' : State) (es : list Effect) :
  trace s' = trace s ++ es -> effects_since s s' = es.
Proof.
  intros H. unfold effects_since. rewrite H.
  rewrite skipn_app, skipn_all, Nat.sub_diag. reflexivity.
Qed.

Lemma effects_since_emit (s : State) (e : Effect) :
  effects_since s (emit e s) = [e].
Proof. apply effects_since_app. reflexivity. Qed.

Lemma effects_since_emit_write (s : State) (e : Effect) (h : string) :
  effects_since s (set_innerHTML h (emit e s)) = [e; SetInnerHTML h].
Proof.
  apply effects_since_app. simpl. rewrite <- app_assoc. reflexivity.
Qed.

Lemma to_int_not_nil (z : Z) :
  Z.to_int z <> Decimal.Pos Decimal.Nil /\ Z.to_int z <> Decimal.Neg Decimal.Nil.
Proof.
  split; intros H; pose proof (DecimalZ.of_to z) as E; rewrite H in E;
    simpl in E; subst z; discriminate H.
Qed.

Lemma ToString_RInt_inj (z1 z2 : Z) :
  ToString (RInt z1) = ToString (RInt z2) -> z1 = z2.
Proof.
  simpl. intros H.
  destruct (to_int_not_nil z1) as [P1 N1].
  destruct (to_int_not_nil z2) as [P2 N2].
  pose proof (NilZero.isi _ P1 N1) as E1.
  pose proof (NilZero.isi _ P2 N2) as E2.
  rewrite H in E1. rewrite E1 in E2. injection E2 as E.
  rewrite <- (DecimalZ.of_to z1), <- (DecimalZ.of_to z2), E. reflexivity.
Qed.

Lemma score_text_inj (z1 z2 : Z) : score_text z1 = score_text z2 -> z1 = z2.
Proof.
  unfold score_text. intros H. apply ToString_RInt_inj.
  simpl in H. injection H as H. exact H.
Qed.

Lemma Math_abs_read (a : number) : read (Math_abs a) = Math_abs a.
Proof.
  unfold Math_abs. destruct (read a); try reflexivity. apply read_binary64.
Qed.

Lemma Math_abs_Fin (a : number) (d : Q) :
  Math_abs a = Fin d -> 0 <= d /\ binary64 d = Fin d.
Proof.
  unfold Math_abs. destruct (read a) as [|s|x]; try discriminate.
  intros E. split; [exact (binary64_nonneg _ _ (Qabs_nonneg x) E)|].
  exact (binary64_idem _ _ E).
Qed.

(** The guard and the percentage of [recalculate], against [score_of]. *)
Lemma score_of_spec (a b : number) :
  (ToBoolean b && JS.le (Math_abs (JS.sub a b)) distance = true
   /\ exists z : Z,
        score_of a b = Some z
        /\ Math_round (JS.mul (JS.sub (of_Z 1)
                                 (JS.div (Math_abs (JS.sub a b)) distance))
                              (of_Z 100)) = RInt z)
  \/ (ToBoolean b && JS.le (Math_abs (JS.sub a b)) distance = false
      /\ score_of a b = None).
Proof.
  unfold score_of. destruct (ToBoolean b); [|right; split; reflexivity].
  cbn [andb].
  destruct (JS.le (Math_abs (JS.sub a b)) distance) eqn:G.
  - left. split; [reflexivity|].
    destruct (guard_delta a b G) as (d & E & Bd & Hd).
    exists (round_percent d). rewrite E.
    assert (L : Qle_bool d 20 = true) by (apply Qle_bool_iff; tauto).
    rewrite L. split; [reflexivity|]. apply percent_round; assumption.
  - right. split; [reflexivity|].
    destruct (Math_abs (JS.sub a b)) as [|s|d] eqn:E; try reflexivity.
    unfold JS.le in G. rewrite <- E, Math_abs_read, E, read_distance in G.
    rewrite G. reflexivity.
Qed.

Lemma recalculate_score_of (s : State) :
  recalculate s
  = let s1 := emit (Recalculate (leftElbow (imgResult s))
                                (leftElbow (userResult s))) s in
    match score_of (leftElbow (imgResult s)) (leftElbow (userResult s)) with
    | Some z => set_innerHTML (score_text z) s1
    | None => s1
    end.
Proof.
  unfold recalculate. cbv zeta.
  change (imgResult (emit ?e s)) with (imgResult s).
  change (userResult (emit ?e s)) with (userResult s).
  destruct (score_of_spec (leftElbow (imgResult s))
                          (leftElbow (userResult s)))
    as [(G & z & S & R)|(G & S)]; rewrite G, S; [rewrite R|]; reflexivity.
Qed.

Lemma score_of_Some (a b : number) (z : Z) :
  score_of a b = Some z ->
  ToBoolean b = true
  /\ exists d : Q,
       Math_abs (JS.sub a b) = Fin d /\ 0 <= d <= 20 /\ z = round_percent d.
Proof.
  unfold score_of. destruct (ToBoolean b); [|discriminate].
  destruct (Math_abs (JS.sub a b)) as [|s|d] eqn:E; try discriminate.
  destruct (Qle_bool d 20) eqn:L; [|discriminate].
  intros [= <-]. split; [reflexivity|]. exists d.
  apply Qle_bool_iff in L. destruct (Math_abs_Fin _ E) as [N _]. auto.
Qed.

Lemma score_of_Fin (a b : number) (d : Q) :
  ToBoolean b = true -> Math_abs (JS.sub a b) = Fin d ->
  score_of a b = if Qle_bool d 20 then Some (round_percent d) else None.
Proof. intros T E. unfold score_of. rewrite T, E. reflexivity. Qed.

Lemma score_of_range (a b : number) (z : Z) :
  score_of a b = Some z -> (0 <= z <= 100)%Z.
Proof.
  intros H. destruct (score_of_Some _ _ H) as (_ & d & _ & Hd & ->).
  apply round_percent_range. exact Hd.
Qed.

Lemma displays_iff (s : State) (z : Z) :
  displays s z
  <-> score_of (leftElbow (imgResult s)) (leftElbow (userResult s)) = Some z.
Proof.
  unfold displays. rewrite recalculate_score_of. cbv zeta.
  destruct (score_of _ _) as [z'|]; split.
  - intros [H _]. rewrite effects_since_emit_write in H.
    assert (E : score_text z' = score_text z) by congruence.
    apply score_text_inj in E. congruence.
  - intros [= ->]. split; [apply effects_since_emit_write|reflexivity].
  - intros [H _]. rewrite effects_since_emit in H. discriminate H.
  - discriminate.
Qed.

Lemma no_score_iff (s : State) :
  no_score s
  <-> score_of (leftElbow (imgResult s)) (leftElbow (userResult s)) = None.
Proof.
  unfold no_score. rewrite recalculate_score_of. cbv zeta.
  destruct (score_of _ _) as [z'|]; split.
  - intros [H _]. rewrite effects_since_emit_write in H. discriminate H.
  - discriminate.
  - reflexivity.
  - intros _. split; [apply effects_since_emit|reflexivity].
Qed.

Lemma recalculate_effects_score_of (img user : number) :
  recalculate_effects img user
  = Recalculate img user ::
    match score_of img user with
    | Some z => [SetInnerHTML (score_text z)]
    | None => []
    end.
Proof.
  unfold recalculate_effects. rewrite recalculate_score_of. cbv zeta.
  change (leftElbow (imgResult (page img user ""))) with img.
  change (leftElbow (userResult (page img user ""))) with user.
  destruct (score_of img user); reflexivity.
Qed.

(** The difference of two finite angles as the script computes it. *)
Lemma delta_cases (r l : Q) :
  (exists d : Q,
      Math_abs (JS.sub (Fin r) (Fin l)) = Fin d
      /\ d == Qabs (rnd (rnd r - rnd l)))
  \/ Math_abs (JS.sub (Fin r) (Fin l)) = NaN
  \/ Math_abs (JS.sub (Fin r) (Fin l)) = Inf false.
Proof.
  unfold Math_abs, JS.sub. cbn [read].
  destruct (binary64 r) as [|sr|r'] eqn:Er;
    destruct (binary64 l) as [|sl|l'] eqn:El; cbn [read]; auto.
  - destruct (Bool.eqb sr sl); cbn [read]; auto.
  - rewrite read_binary64.
    destruct (binary64 (r' - l')) as [|sx|x] eqn:Ex; auto.
    destruct (binary64 (Qabs x)) as [|sd|d] eqn:Ed; auto.
    + rewrite (binary64_nonneg_Inf _ _ (Qabs_nonneg x) Ed). auto.
    + left. exists d. split; [reflexivity|].
      destruct (binary64_Fin _ _ Er) as (Hr & _).
      destruct (binary64_Fin _ _ El) as (Hl & _).
      destruct (binary64_Fin _ _ Ex) as (Hx & _).
      destruct (binary64_Fin _ _ Ed) as (Hd & _).
      rewrite Hd, rnd_abs, (rnd_comp x (rnd (r' - l')) Hx), rnd_idem.
      rewrite (rnd_comp (r' - l') (rnd r - rnd l)); [reflexivity|].
      rewrite Hr, Hl. reflexivity.
Qed.





(** The formula computed exactly can differ from the score displayed:
    with reference 90 and live angle 98.5 the exact percentage is 57.5,
    which rounds to 58, while the script computes 57.49999999999999 and
    displays 57. *)
Example score_below_exact_formula :
  displays (page (Fin 90) (Fin (197 # 2)) "") 57
  /\ Math_abs (JS.sub (Fin 90) (Fin (197 # 2))) = Fin (17 # 2)
  /\ exact_percent (17 # 2) = 58%Z.
Proof.
  split; [apply displays_iff|split]; vm_compute; reflexivity.
Qed.

Lemma score_of_not_Fin (a b : number) :
  Math_abs (JS.sub a b) = NaN \/ Math_abs (JS.sub a b) = Inf false ->
  score_of a b = None.
Proof.
  intros [E|E]; unfold score_of; rewrite E; destruct (ToBoolean b);
    reflexivity.
Qed.

Lemma no_score_quiet (s : State) :
  no_score s ->
  score_placeholder (recalculate s) = score_placeholder s
  /\ writes (effects_since s (recalculate s)) = [].
Proof. intros [E P]. rewrite E. auto. Qed.

Lemma next_after_20 : rnd (20 + (1 # 2 ^ 48)) == 20 + (1 # 2 ^ 48).
Proof. vm_compute. reflexivity. Qed.

(** C5 (amended).  When the difference of the two angles, as the script
    computes it in binary64, exceeds the tolerance 20, [recalculate]
    performs no write: the score placeholder keeps its previous content.
    That is the case as soon as the exact difference of the two numbers
    is at least 20 + 2^-48.  An exact difference above 20 by less can be
    computed as 20: then SCORE: 0 is written; nothing else ever is. *)
Theorem out_of_tolerance_keeps_score (s : State) (r l : Q) :
  leftElbow (imgResult s) = Fin r ->
  leftElbow (userResult s) = Fin l ->
  20 < Qabs (rnd r - rnd l) ->
  (20 < Qabs (rnd (rnd r - rnd l)) ->
   score_placeholder (recalculate s) = score_placeholder s
   /\ writes (effects_since s (recalculate s)) = [])
  /\ (20 + (1 # 2 ^ 48) <= Qabs (rnd r - rnd l) ->
      score_placeholder (recalculate s) = score_placeholder s
      /\ writes (effects_since s (recalculate s)) = [])
  /\ (no_score s \/ displays s 0).
Proof.
  intros Hr Hl Hd.
  destruct (delta_cases r l) as [(d & E & D)|N].
  - assert (D' : d == rnd (Qabs (rnd r - rnd l))) by (rewrite rnd_abs; exact D).
    assert (R20 : rnd 20 == 20) by (vm_compute; reflexivity).
    assert (G : 20 <= d).
    { rewrite D', <- R20 at 1. apply rnd_mono. apply Qlt_le_weak. exact Hd. }
    assert (Q : Qle_bool d 20 = false -> no_score s).
    { intros L. apply no_score_iff. rewrite Hr, Hl. unfold score_of.
      rewrite E, L. destruct (ToBoolean (Fin l)); reflexivity. }
    split; [|split].
    + intros H. apply no_score_quiet. apply Q.
      apply not_true_is_false. intros L. apply Qle_bool_iff in L.
      rewrite D in L. apply (Qlt_not_le _ _ H). exact L.
    + intros H. apply no_score_quiet. apply Q.
      apply not_true_is_false. intros L. apply Qle_bool_iff in L.
      assert (B : 20 + (1 # 2 ^ 48) <= d).
      { rewrite D', <- next_after_20. apply rnd_mono. exact H. }
      assert (P : 0 < 1 # 2 ^ 48) by reflexivity.
      lra.
    + destruct (Qle_bool d 20) eqn:L; [|left; exact (Q eq_refl)].
      apply Qle_bool_iff in L.
      assert (E20 : d == 20) by lra.
      destruct (ToBoolean (Fin l)) eqn:T.
      * right. apply displays_iff. rewrite Hr, Hl, (@score_of_Fin _ _ _ T E).
        rewrite (Qle_bool_comp _ _ _ 20 E20 (Qeq_refl 20)),
          (round_percent_comp _ _ E20). reflexivity.
      * left. apply no_score_iff. rewrite Hr, Hl. unfold score_of.
        rewrite T. reflexivity.
  - assert (Q : no_score s).
    { apply no_score_iff. rewrite Hr, Hl. apply score_of_not_Fin. exact N. }
    split; [|split]; auto; intros _; apply no_score_quiet; exact Q.
Qed.

Lemma out_of_tolerance_keeps_score_witness :
  (20 < Qabs (rnd (rnd 90 - rnd 111)) ->
   score_placeholder (recalculate (page (Fin 90) (Fin 111) "SCORE: 35"))
   = score_placeholder (page (Fin 90) (Fin 111) "SCORE: 35")
   /\ writes (effects_since (page (Fin 90) (Fin 111) "SCORE: 35")
                (recalculate (page (Fin 90) (Fin 111) "SCORE: 35"))) = [])
  /\ (20 + (1 # 2 ^ 48) <= Qabs (rnd 90 - rnd 111) ->
      score_placeholder (recalculate (page (Fin 90) (Fin 111) "SCORE: 35"))
      = score_placeholder (page (Fin 90) (Fin 111) "SCORE: 35")
      /\ writes (effects_since (page (Fin 90) (Fin 111) "SCORE: 35")
                   (recalculate (page (Fin 90) (Fin 111) "SCORE: 35"))) = [])
  /\ (no_score (page (Fin 90) (Fin 111) "SCORE: 35")
      \/ displays (page (Fin 90) (Fin 111) "SCORE: 35") 0).
Proof.
  apply (@out_of_tolerance_keeps_score
           (page (Fin 90) (Fin 111) "SCORE: 35") 90 111);
    [reflexivity|reflexivity|vm_compute; reflexivity].
Defined.

(** The reference angle 21 and the live angle 0.9999999999999999 differ
    by more than 20, yet the script computes their difference as 20 and
    writes SCORE: 0 over the previous score. *)
Example near_tolerance_scored :
  20 < Qabs (rnd 21 - rnd (9999999999999999 # 10000000000000000))
  /\ Math_abs (JS.sub (Fin 21) (Fin (9999999999999999 # 10000000000000000)))
     = Fin 20
  /\ displays (page (Fin 21) (Fin (9999999999999999 # 10000000000000000))
                    "SCORE: 35") 0
  /\ score_placeholder
       (recalculate (page (Fin 21)
                          (Fin (9999999999999999 # 10000000000000000))
                          "SCORE: 35"))
     = "SCORE: 0"%string.
Proof.
  split; [vm_compute; reflexivity|].
  split; [vm_compute; reflexivity|].
  split; [apply displays_iff|]; vm_compute; reflexivity.
Qed.

(** C5, as stated, fails: on that page the difference exceeds the
    tolerance and a write occurs. *)
Lemma out_of_tolerance_scored : ~ out_of_tolerance_never_writes.
Proof.
  intros C.
  assert (H : writes (effects_since
                        (page (Fin 21)
                              (Fin (9999999999999999 # 10000000000000000))
                              "SCORE: 35")
                        (recalculate
                           (page (Fin 21)
                                 (Fin (9999999999999999 # 10000000000000000))
                                 "SCORE: 35"))) = []).
  { apply (C _ 21 (9999999999999999 # 10000000000000000));
      [reflexivity|reflexivity|vm_compute; reflexivity]. }
  vm_compute in H. discriminate H.
Qed.

(** C9.  When the live angle is 0 (in particular when it still has its
    initial value), [recalculate] performs no write, whatever the reference
    angle is: also when the reference is present and within the tolerance
    of 0. *)
Theorem zero_live_angle_never_scored :
  (forall (s : State) (l : Q),
      leftElbow (userResult s) = Fin l -> l == 0 ->
      score_placeholder (recalculate s) = score_placeholder s
      /\ writes (effects_since s (recalculate s)) = [])
  /\ (forall (img : number) (html : string),
         no_score (with_imgResult {| leftElbow := img |} (loaded html))).
Proof.
  assert (G : forall (s : State) (l : Q),
             leftElbow (userResult s) = Fin l -> l == 0 -> no_score s).
  { intros s l Hl H0. apply no_score_iff. rewrite Hl. unfold score_of.
    assert (T : ToBoolean (Fin l) = false).
    { unfold ToBoolean. cbn [read]. rewrite (binary64_comp l 0 H0), binary64_0.
      reflexivity. }
    rewrite T. reflexivity. }
  split.
  - intros s l Hl H0. apply no_score_quiet. exact (G s l Hl H0).
  - intros img html. apply (G _ 0); reflexivity.
Qed.

Lemma zero_live_angle_never_scored_witness :
  score_placeholder (recalculate (page (Fin 10) (Fin 0) "SCORE: 35"))
  = "SCORE: 35"%string
  /\ writes (effects_since (page (Fin 10) (Fin 0) "SCORE: 35")
               (recalculate (page (Fin 10) (Fin 0) "SCORE: 35"))) = [].
Proof.
  apply (proj1 zero_live_angle_never_scored
               (page (Fin 10) (Fin 0) "SCORE: 35") 0);
    reflexivity.
Defined.

(* ================================================================== *)
(** ** One tick of the frame loop *)

Ltac case_ifs :=
  repeat match goal with
         | |- context [if ?b then _ else _] => destruct b
         end.

Lemma guiState_if_emit (b : bool) (e : Effect) (s : State) :
  guiState (if b then emit e s else s) = guiState s.
Proof. destruct b; reflexivity. Qed.

(** Case analysis on the tests of a sequence of guarded drawing steps,
    then rewriting with [E]. *)
Ltac case_ifs_with E :=
  rewrite ?guiState_if_emit; case_ifs; cbn; rewrite ?E.

Lemma same_outside_display_refl (s : State) : same_outside_display s s.
Proof. unfold same_outside_display. tauto. Qed.

Lemma same_outside_display_trans (s1 s2 s3 : State) :
  same_outside_display s1 s2 -> same_outside_display s2 s3 ->
  same_outside_display s1 s3.
Proof.
  unfold same_outside_display.
  intros (A1 & A2 & A3 & A4 & A5 & A6 & A7 & A8)
         (B1 & B2 & B3 & B4 & B5 & B6 & B7 & B8).
  repeat split; congruence.
Qed.

Lemma recalculate_trace (s : State) :
  trace (recalculate s)
  = trace s ++ recalculate_effects (leftElbow (imgResult s))
                                   (leftElbow (userResult s)).
Proof.
  unfold recalculate_effects, recalculate. cbn.
  destruct (ToBoolean (leftElbow (userResult s))
            && JS.le (Math_abs (JS.sub (leftElbow (imgResult s))
                                       (leftElbow (userResult s))))
                     distance); cbn.
  - rewrite <- app_assoc. reflexivity.
  - reflexivity.
Qed.

Lemma recalculate_same (s : State) :
  same_outside_display s (recalculate s)
  /\ userResult (recalculate s) = userResult s.
Proof.
  unfold recalculate, same_outside_display. case_ifs; cbn; tauto.
Qed.

Section FrameLoop.

Variable calculateAngle :
  option Keypoint -> option Keypoint -> option Keypoint -> number.

Lemma forEach_pose_trace (thr mp : number) (s : State) (p : Pose) :
  trace (forEach_pose calculateAngle thr mp s p)
  = trace s ++ pose_effects calculateAngle (guiState s) thr mp
                            (leftElbow (imgResult s)) p.
Proof.
  unfold forEach_pose, pose_effects, draw_effects.
  destruct (JS.ge (score p) thr); [|rewrite app_nil_r; reflexivity].
  set (s1 := with_userResult _ s).
  destruct (recalculate_same s1) as [(G & _) _].
  change (guiState s1) with (guiState s) in G.
  assert (T : trace (recalculate s1)
              = trace s ++ recalculate_effects (leftElbow (imgResult s))
                                               (elbow calculateAngle p)).
  { rewrite recalculate_trace. reflexivity. }
  revert G T. generalize (recalculate s1). intros r G T. rewrite <- G.
  case_ifs_with T; rewrite <- ?app_assoc; cbn; rewrite ?app_nil_r;
    reflexivity.
Qed.

Lemma forEach_pose_same (thr mp : number) (s : State) (p : Pose) :
  same_outside_display s (forEach_pose calculateAngle thr mp s p).
Proof.
  unfold forEach_pose.
  destruct (JS.ge (score p) thr); [|apply same_outside_display_refl].
  set (s1 := with_userResult _ s).
  destruct (recalculate_same s1) as [R _].
  assert (S1 : same_outside_display s s1)
    by (unfold same_outside_display; cbn; tauto).
  pose proof (same_outside_display_trans S1 R) as Q.
  revert Q. generalize (recalculate s1). intros r Q.
  unfold same_outside_display in *. case_ifs_with Q; tauto.
Qed.

Lemma forEach_pose_userResult (thr mp : number) (s : State) (p : Pose) :
  JS.ge (score p) thr = true ->
  userResult (forEach_pose calculateAngle thr mp s p)
  = {| leftElbow := calculateAngle (index (keypoints p) 9)
                                   (index (keypoints p) 7)
                                   (index (keypoints p) 5) |}.
Proof.
  intros H. unfold forEach_pose. rewrite H.
  set (s1 := with_userResult _ s).
  destruct (recalculate_same s1) as [_ U].
  change (userResult s1) with
    {| leftElbow := calculateAngle (index (keypoints p) 9)
                                   (index (keypoints p) 7)
                                   (index (keypoints p) 5) |} in U.
  revert U. generalize (recalculate s1). intros r U.
  case_ifs_with U; reflexivity.
Qed.

Lemma forEach_pose_placeholder (thr mp : number) (s : State) (p : Pose) :
  JS.ge (score p) thr = true ->
  score_placeholder (forEach_pose calculateAngle thr mp s p)
  = score_placeholder
      (recalculate
         (with_userResult {| leftElbow := elbow calculateAngle p |} s)).
Proof.
  intros H. unfold forEach_pose, elbow. rewrite H.
  generalize (recalculate
                (with_userResult
                   {| leftElbow := calculateAngle (index (keypoints p) 9)
                                                  (index (keypoints p) 7)
                                                  (index (keypoints p) 5) |}
                   s)).
  intros r. case_ifs_with (eq_refl r); reflexivity.
Qed.

Lemma forEach_fold (thr mp : number) (ps : list Pose) (s : State) :
  same_outside_display
    s (fold_left (forEach_pose calculateAngle thr mp) ps s)
  /\ trace (fold_left (forEach_pose calculateAngle thr mp) ps s)
     = trace s
       ++ flat_map (pose_effects calculateAngle (guiState s) thr mp
                                 (leftElbow (imgResult s))) ps.
Proof.
  revert s. induction ps as [|p ps IH]; intros s; cbn [fold_left flat_map].
  - split; [apply same_outside_display_refl|]. rewrite app_nil_r. reflexivity.
  - destruct (IH (forEach_pose calculateAngle thr mp s p)) as [S2 T2].
    pose proof (forEach_pose_same thr mp s p) as S1.
    split; [exact (same_outside_display_trans S1 S2)|].
    rewrite T2, forEach_pose_trace, <- app_assoc.
    destruct S1 as (G & I & _). rewrite G, I. reflexivity.
Qed.

Lemma poseDetectionFrame_resume_spec (a : SwitchCase) (ps : list Pose)
    (s : State) :
  let s' := poseDetectionFrame_resume calculateAngle a ps s in
  trace s'
  = trace s
    ++ [ClearRect]
    ++ (if showVideo (output (guiState s)) then [DrawVideo] else [])
    ++ flat_map (pose_effects calculateAngle (guiState s)
                   (minPoseConfidence_of a (guiState s))
                   (minPartConfidence_of a (guiState s))
                   (leftElbow (imgResult s))) ps
    ++ [RequestAnimationFrame]
  /\ pending s' = pending s ++ [AnimationFrameRequest]
  /\ guiState s' = guiState s /\ imgResult s' = imgResult s
  /\ tensors s' = tensors s /\ uncaught s' = uncaught s.
Proof.
  cbv zeta. unfold poseDetectionFrame_resume.
  change ([] ++ ps) with ps.
  fold (minPoseConfidence_of a (guiState s)).
  fold (minPartConfidence_of a (guiState s)).
  set (s1 := if showVideo (output (guiState (emit ClearRect s)))
             then emit DrawVideo (emit ClearRect s) else emit ClearRect s).
  destruct (forEach_fold (minPoseConfidence_of a (guiState s))
                         (minPartConfidence_of a (guiState s)) ps s1)
    as [(G & I & _ & _ & Te & _ & P & U) T].
  assert (S1 : guiState s1 = guiState s /\ imgResult s1 = imgResult s
               /\ tensors s1 = tensors s /\ pending s1 = pending s
               /\ uncaught s1 = uncaught s
               /\ trace s1 = trace s ++ [ClearRect]
                    ++ (if showVideo (output (guiState s))
                        then [DrawVideo] else [])).
  { subst s1. cbn. destruct (showVideo (output (guiState s))); cbn;
      rewrite <- ?app_assoc; tauto. }
  destruct S1 as (G1 & I1 & Te1 & P1 & U1 & T1).
  cbn. rewrite T, G, I, Te, P, U, G1, I1, Te1, P1, U1, T1.
  rewrite <- !app_assoc. tauto.
Qed.

End FrameLoop.

(* ================================================================== *)
(** ** Scheduling: at most one estimation call of the loop in flight *)

Lemma loop_tokens_app (a b : list Pending) :
  loop_tokens (a ++ b) = (loop_tokens a + loop_tokens b)%nat.
Proof.
  induction a as [|k a IH]; [reflexivity|].
  cbn [app loop_tokens]. rewrite IH. apply Nat.add_assoc.
Qed.

Lemma loop_tokens_remove (l : list Pending) (i : nat) (k : Pending) :
  nth_error l i = Some k ->
  loop_tokens l = (loop_token k + loop_tokens (remove_nth i l))%nat.
Proof.
  revert i. induction l as [|a l IH]; intros [|i] H; try discriminate H.
  - injection H as ->. reflexivity.
  - cbn [nth_error] in H. apply IH in H.
    cbn [remove_nth loop_tokens]. lia.
Qed.

Lemma in_flight_le_tokens (l : list Pending) :
  (List.length (filter is_frame_estimate l)
   + List.length (filter is_frame_request l) <= loop_tokens l)%nat.
Proof.
  induction l as [|k l IH]; [apply Nat.le_refl|].
  destruct k; cbn [filter is_frame_estimate is_frame_request loop_tokens
                   loop_token List.length]; lia.
Qed.

Lemma filter_remove_other (f : Pending -> bool) (l : list Pending)
    (i : nat) (k : Pending) :
  nth_error l i = Some k -> f k = false ->
  filter f (remove_nth i l) = filter f l.
Proof.
  revert i. induction l as [|a l IH]; intros [|i] H F; try discriminate H.
  - injection H as ->. cbn. rewrite F. reflexivity.
  - cbn in H. cbn. rewrite (IH i H F). reflexivity.
Qed.

Lemma frame_calls_app (a b : list Effect) :
  frame_calls (a ++ b) = (frame_calls a + frame_calls b)%nat.
Proof.
  induction a as [|e a IH]; [reflexivity|].
  destruct e as [| | | |[|]| | | | | | | | | | |]; cbn; rewrite ?IH; reflexivity.
Qed.

Lemma frame_calls_recalculate (i u : number) :
  frame_calls (recalculate_effects i u) = O.
Proof.
  unfold recalculate_effects, recalculate. case_ifs; reflexivity.
Qed.

Section Scheduling.

Variable calculateAngle :
  option Keypoint -> option Keypoint -> option Keypoint -> number.

Lemma frame_calls_poses (g : GuiState) (thr mp img : number)
    (ps : list Pose) :
  frame_calls (flat_map (pose_effects calculateAngle g thr mp img) ps) = O.
Proof.
  induction ps as [|p ps IH]; [reflexivity|].
  cbn [flat_map]. rewrite frame_calls_app, IH. unfold pose_effects.
  destruct (JS.ge (score p) thr); [|reflexivity].
  rewrite frame_calls_app, frame_calls_recalculate.
  unfold draw_effects. case_ifs; reflexivity.
Qed.

Lemma poseDetectionFrame_adds (s : State) :
  exists (new : list Pending) (c : nat),
    pending (poseDetectionFrame s) = pending s ++ new
    /\ frame_calls (trace (poseDetectionFrame s))
       = (frame_calls (trace s) + c)%nat
    /\ (loop_tokens new <= 1)%nat
    /\ (c <= List.length (filter is_frame_estimate new))%nat
    /\ (c <= 1)%nat.
Proof.
  unfold poseDetectionFrame.
  destruct (algorithm (guiState s)).
  - destruct (net (guiState s)).
    + exists [AwaitFrameEstimate case_single_pose], 1%nat. cbn.
      rewrite frame_calls_app. cbn. repeat split; auto.
    + exists [], O. cbn. rewrite app_nil_r. repeat split; auto.
  - destruct (net (guiState s)).
    + exists [AwaitFrameEstimate case_multi_pose], 1%nat. cbn.
      rewrite frame_calls_app. cbn. repeat split; auto.
    + exists [], O. cbn. rewrite app_nil_r. repeat split; auto.
  - exists [AnimationFrameRequest], O.
    cbn. destruct (showVideo (output (guiState s))); cbn;
      rewrite !frame_calls_app; cbn; repeat split; auto; lia.
Qed.

Lemma testImageAndEstimatePoses_adds (s : State) :
  pending (testImageAndEstimatePoses s) = pending s ++ [AwaitLoadImage]
  /\ frame_calls (trace (testImageAndEstimatePoses s))
     = frame_calls (trace s).
Proof.
  unfold testImageAndEstimatePoses, disposePoses.
  destruct (predictedPoses s); cbn; rewrite frame_calls_app; cbn;
    split; auto.
Qed.

(** What resuming one continuation does to the pending list and to the
    number of estimation calls issued on the video. *)
Lemma resume_effect (k : Pending) (o : Outcome) (s s' : State) :
  resume calculateAngle k o s = Some s' ->
  exists (new : list Pending) (c : nat),
    pending s' = pending s ++ new
    /\ (loop_tokens new <= loop_token k)%nat
    /\ frame_calls (trace s') = (frame_calls (trace s) + c)%nat
    /\ (c <= List.length (filter is_frame_estimate new))%nat
    /\ (c = 0 \/ (c = 1 /\ is_frame_estimate k = false))%nat.
Proof.
  destruct k, o; cbn [resume]; intros H; try discriminate H;
    injection H as <-.
  - (* posenet.load resolved *)
    exists [AwaitLoadVideo], O. cbn.
    rewrite !frame_calls_app. cbn. repeat split; auto; lia.
  - exists [], O. cbn. rewrite app_nil_r. repeat split; auto; lia.
  - (* loadVideo resolved: the loop starts, then the reference load *)
    unfold bindPage_video, detectPoseInRealTime.
    set (s1 := with_guiState _ _).
    destruct (poseDetectionFrame_adds s1) as (new & c & P & T & K & C & C1).
    destruct (testImageAndEstimatePoses_adds (poseDetectionFrame s1))
      as (P2 & T2).
    exists (new ++ [AwaitLoadImage]), c.
    rewrite P2, T2, P, T. subst s1. cbn. rewrite frame_calls_app. cbn.
    rewrite <- app_assoc, loop_tokens_app, filter_app, length_app. cbn.
    repeat split; auto; lia.
  - unfold bindPage_catch. exists [], O. cbn.
    rewrite app_nil_r, frame_calls_app. cbn. repeat split; auto; lia.
  - (* a tick resumes with the estimated poses *)
    destruct (poseDetectionFrame_resume_spec calculateAngle a poses s)
      as (T & P & _).
    exists [AnimationFrameRequest], O. rewrite P, T.
    rewrite !frame_calls_app, frame_calls_poses.
    destruct (showVideo (output (guiState s))); cbn;
      repeat split; auto; lia.
  - exists [], O. cbn. rewrite app_nil_r. repeat split; auto; lia.
  - (* the animation frame fires: a new tick *)
    destruct (poseDetectionFrame_adds s) as (new & c & P & T & K & C & C1).
    exists new, c. cbn. repeat split; auto; lia.
  - (* the reference image is loaded *)
    unfold testImage_loaded, fromPixels. cbn.
    eexists [_], O. rewrite !frame_calls_app. cbn.
    repeat split; auto; lia.
  - (* the reference estimation resolved *)
    unfold testImage_estimated. destruct poses as [|p poses]; cbn.
    + exists [], O. rewrite app_nil_r. repeat split; auto; lia.
    + exists [], O. rewrite app_nil_r.
      case_ifs; cbn; rewrite ?frame_calls_app; cbn; repeat split; auto; lia.
  - exists [], O. cbn. rewrite app_nil_r. repeat split; auto; lia.
Qed.

Lemma step_effect (s : State) (ev : Event) (s' : State) :
  step calculateAngle s ev = Some s' ->
  exists (k : Pending) (new : list Pending) (c : nat),
    nth_error (pending s) (target ev) = Some k
    /\ pending s' = remove_nth (target ev) (pending s) ++ new
    /\ (loop_tokens new <= loop_token k)%nat
    /\ frame_calls (trace s') = (frame_calls (trace s) + c)%nat
    /\ (c <= List.length (filter is_frame_estimate new))%nat
    /\ (c = 0 \/ (c = 1 /\ is_frame_estimate k = false))%nat.
Proof.
  unfold step. destruct (nth_error (pending s) (target ev)) as [k|] eqn:N;
    [|discriminate].
  intros H. apply resume_effect in H.
  destruct H as (new & c & P & K & T & C & D).
  exists k, new, c. cbn in P, T. auto 10.
Qed.

Lemma step_tokens (s : State) (ev : Event) (s' : State) :
  step calculateAngle s ev = Some s' ->
  (loop_tokens (pending s') <= loop_tokens (pending s))%nat.
Proof.
  intros H. apply step_effect in H.
  destruct H as (k & new & c & N & P & K & _).
  rewrite P, loop_tokens_app, (loop_tokens_remove _ _ N). lia.
Qed.

Lemma run_tokens (evs : list Event) (s s' : State) :
  run calculateAngle s evs = Some s' ->
  (loop_tokens (pending s') <= loop_tokens (pending s))%nat.
Proof.
  revert s. induction evs as [|ev evs IH]; intros s; cbn [run].
  - intros [= ->]. apply Nat.le_refl.
  - destruct (step calculateAngle s ev) as [s1|] eqn:E; [|discriminate].
    intros H. apply IH in H. apply step_tokens in E. lia.
Qed.

Lemma reachable_tokens (s : State) :
  reachable calculateAngle s -> (loop_tokens (pending s) <= 1)%nat.
Proof.
  intros (html & evs & H). apply run_tokens in H. exact H.
Qed.

Lemma reachable_step (s : State) (ev : Event) (s' : State) :
  reachable calculateAngle s -> step calculateAngle s ev = Some s' ->
  reachable calculateAngle s'.
Proof.
  intros (html & evs & H) E. exists html, (evs ++ [ev]).
  revert H. generalize (start html). induction evs as [|e evs IH];
    intros s0; cbn [run app].
  - intros [= ->]. rewrite E. reflexivity.
  - destruct (step calculateAngle s0 e); [apply IH|discriminate].
Qed.

(** C4.  In every reachable state at most one estimation call of the
    frame loop is in flight, and a call in flight excludes a registered
    animation-frame callback.  A step that issues an estimation call on the
    video issues exactly one, starts from a state with none in flight (the
    result of the previous tick has been consumed) and leaves exactly one
    in flight. *)
Theorem single_in_flight (s : State) :
  reachable calculateAngle s ->
  (in_flight s <= 1)%nat
  /\ (in_flight s + scheduled s <= 1)%nat
  /\ forall (ev : Event) (s' : State),
       step calculateAngle s ev = Some s' ->
       (frame_calls (trace s) < frame_calls (trace s'))%nat ->
       in_flight s = O
       /\ frame_calls (trace s') = S (frame_calls (trace s))
       /\ in_flight s' = 1%nat.
Proof.
  intros R. pose proof (reachable_tokens R) as K.
  pose proof (in_flight_le_tokens (pending s)) as L.
  unfold in_flight, scheduled.
  split; [lia|]. split; [lia|].
  intros ev s' E Hc.
  pose proof (reachable_tokens (@reachable_step s ev s' R E)) as K'.
  pose proof (in_flight_le_tokens (pending s')) as L'.
  apply step_effect in E.
  destruct E as (k & new & c & N & P & Kn & T & C & D).
  destruct D as [->|[-> F]]; [lia|].
  assert (Tk : loop_token k = 1%nat).
  { assert (List.length (filter is_frame_estimate new)
            <= loop_tokens new)%nat.
    { pose proof (in_flight_le_tokens new). lia. }
    destruct k; cbn in *; lia. }
  pose proof (loop_tokens_remove _ _ N) as Rm.
  pose proof (in_flight_le_tokens (remove_nth (target ev) (pending s))) as L2.
  rewrite (filter_remove_other is_frame_estimate _ _ N F) in L2.
  split; [lia|]. split; [lia|].
  rewrite P, filter_app, length_app.
  rewrite P, filter_app, length_app in L'.
  rewrite (filter_remove_other is_frame_estimate _ _ N F) in *.
  pose proof (in_flight_le_tokens new). lia.
Qed.

End Scheduling.

(* ================================================================== *)
(** ** Runs of the script *)

Section Runs.

Variable calculateAngle :
  option Keypoint -> option Keypoint -> option Keypoint -> number.

Lemma run_snoc (evs : list Event) (ev : Event) (s s1 : State) :
  run calculateAngle s evs = Some s1 ->
  run calculateAngle s (evs ++ [ev]) = step calculateAngle s1 ev.
Proof.
  revert s. induction evs as [|e evs IH]; intros s; cbn [run app].
  - intros [= ->]. destruct (step calculateAngle s1 ev); reflexivity.
  - destruct (step calculateAngle s e); [apply IH|discriminate].
Qed.

(** One tick on a single pose that passes the confidence gate and whose
    angle has a score against the cached reference: the comparison is made
    and its score is written. *)
Lemma tick_scores (a : SwitchCase) (s : State) (p : Pose) (z : Z) :
  JS.ge (score p) (minPoseConfidence_of a (guiState s)) = true ->
  score_of (leftElbow (imgResult s)) (elbow calculateAngle p) = Some z ->
  let s' := poseDetectionFrame_resume calculateAngle a [p] s in
  comparisons (effects_since s s')
  = [(leftElbow (imgResult s), elbow calculateAngle p)]
  /\ writes (effects_since s s') = [score_text z]
  /\ score_placeholder s' = score_text z.
Proof.
  intros Hg Hz s'.
  destruct (poseDetectionFrame_resume_spec calculateAngle a [p] s)
    as (T & _).
  fold s' in T. rewrite (@effects_since_app _ _ _ T).
  cbn [flat_map]. unfold pose_effects. rewrite Hg.
  rewrite recalculate_effects_score_of, Hz. unfold draw_effects.
  split; [|split].
  - destruct (showVideo (output (guiState s))); case_ifs; reflexivity.
  - destruct (showVideo (output (guiState s))); case_ifs; reflexivity.
  - subst s'. unfold poseDetectionFrame_resume.
    fold (minPoseConfidence_of a (guiState s)).
    cbn [app fold_left].
    change (score_placeholder (suspend ?k (emit ?e ?x)))
      with (score_placeholder x).
    rewrite forEach_pose_placeholder by exact Hg.
    rewrite recalculate_score_of. cbv zeta.
    cbn [imgResult userResult with_userResult leftElbow].
    assert (I : forall b : bool,
               imgResult (if b then emit DrawVideo (emit ClearRect s)
                          else emit ClearRect s) = imgResult s)
      by (intros []; reflexivity).
    rewrite I, Hz. reflexivity.
Qed.

Lemma step_frame_estimated (s : State) (a : SwitchCase)
    (rest : list Pending) (ps : list Pose) :
  pending s = AwaitFrameEstimate a :: rest ->
  step calculateAngle s (settle 0 (Estimated ps))
  = Some (poseDetectionFrame_resume calculateAngle a ps
            (with_pending rest s)).
Proof.
  intros H. unfold step. cbn [target outcome settle]. rewrite H.
  reflexivity.
Qed.

End Runs.

Lemma comparisons_app (a b : list Effect) :
  comparisons (a ++ b) = comparisons a ++ comparisons b.
Proof.
  induction a as [|e a IH]; [reflexivity|].
  destruct e; cbn; rewrite ?IH; reflexivity.
Qed.

Lemma writes_app (a b : list Effect) :
  writes (a ++ b) = writes a ++ writes b.
Proof.
  induction a as [|e a IH]; [reflexivity|].
  destruct e; cbn; rewrite ?IH; reflexivity.
Qed.

Lemma trace_effects_since (s s' : State) (es : list Effect) :
  trace s' = trace s ++ es -> trace s' = trace s ++ effects_since s s'.
Proof.
  intros H. rewrite (@effects_since_app _ _ _ H). exact H.
Qed.

Section Startup.

Variable calculateAngle :
  option Keypoint -> option Keypoint -> option Keypoint -> number.

(** The state in which [bindPage] leaves the page once the camera is
    ready: the first tick of the loop has issued its estimation call, and
    the reference load is only waiting for its image. *)
Lemma startup_state (html : string) :
  exists s0 : State,
    run calculateAngle (start html) startup = Some s0
    /\ pending s0 = [AwaitFrameEstimate case_single_pose; AwaitLoadImage]
    /\ trace s0 = [ToggleLoadingUI true; PosenetLoad; ToggleLoadingUI false;
                   LoadVideo; ToggleLoadingUI false;
                   EstimatePoses Video true single_person;
                   LoadImage "https://i.imgur.com/Vs9p4Sj.jpg"]
    /\ imgResult s0 = {| leftElbow := of_Z 0 |}
    /\ guiState s0 = set_net (Some posenet_model) guiState0
    /\ tensors s0 = [] /\ uncaught s0 = [].
Proof.
  eexists. split; [vm_compute; reflexivity|].
  vm_compute. repeat split; reflexivity.
Qed.

(** The state once the reference estimation has resolved with a pose
    below the confidence threshold: nothing was stored. *)
Lemma low_confidence_reference_state (low_kps : list Keypoint)
    (html : string) :
  exists s1 : State,
    run calculateAngle (start html)
        (startup ++ [settle 1 Loaded;
                     settle 1 (Estimated [pose_of (1 # 2) low_kps])])
    = Some s1
    /\ pending s1 = [AwaitFrameEstimate case_single_pose]
    /\ imgResult s1 = {| leftElbow := of_Z 0 |}
    /\ guiState s1 = set_net (Some posenet_model) guiState0
    /\ tensors s1 = [] /\ uncaught s1 = []
    /\ comparisons (trace s1) = [] /\ writes (trace s1) = [].
Proof.
  eexists. split; [vm_compute; reflexivity|].
  vm_compute. repeat split; reflexivity.
Qed.

(** C2, on the script.  The reference estimation resolves with a pose of
    confidence 0.5, below the threshold 0.7, so no reference angle is ever
    stored; the reference load has run to its end and released its tensor.
    A later tick whose live angle is 10 is nevertheless scored, against the
    initial value 0 of [imgResult.leftElbow]: it displays SCORE: 50. *)
Theorem unset_reference_scored (kps low_kps : list Keypoint) (html : string) :
  calculateAngle (index kps 9) (index kps 7) (index kps 5) = Fin 10 ->
  exists s : State,
    run calculateAngle (start html)
        (startup ++ [settle 1 Loaded;
                     settle 1 (Estimated [pose_of (1 # 2) low_kps]);
                     settle 0 (Estimated [pose_of 1 kps])]) = Some s
    /\ ~ reference_loading s
    /\ leftElbow (imgResult s) = of_Z 0
    /\ tensors s = []
    /\ comparisons (trace s) = [(of_Z 0, Fin 10)]
    /\ writes (trace s) = ["SCORE: 50"%string]
    /\ score_placeholder s = "SCORE: 50"%string.
Proof.
  intros H.
  destruct (low_confidence_reference_state low_kps html)
    as (s1 & R1 & P1 & I1 & G1 & T1 & _ & C1 & W1).
  set (s2 := with_pending [] s1).
  exists (poseDetectionFrame_resume calculateAngle case_single_pose
            [pose_of 1 kps] s2).
  assert (Hi : leftElbow (imgResult s2) = Fin 0)
    by (unfold s2; cbn; rewrite I1; reflexivity).
  assert (Hg : JS.ge (score (pose_of 1 kps))
                 (minPoseConfidence_of case_single_pose (guiState s2)) = true)
    by (unfold s2; cbn; rewrite G1; reflexivity).
  assert (Hz : score_of (leftElbow (imgResult s2))
                        (elbow calculateAngle (pose_of 1 kps)) = Some 50%Z).
  { rewrite Hi. unfold elbow. cbn [keypoints pose_of]. rewrite H.
    vm_compute. reflexivity. }
  destruct (tick_scores calculateAngle case_single_pose s2 (pose_of 1 kps)
                        Hg Hz) as (C & W & D).
  rewrite Hi in C. unfold elbow in C. cbn [keypoints pose_of] in C.
  rewrite H in C.
  destruct (poseDetectionFrame_resume_spec calculateAngle case_single_pose
              [pose_of 1 kps] s2) as (T & P & _ & I & Te & _).
  apply trace_effects_since in T.
  split.
  - change (startup ++ [settle 1 Loaded;
                        settle 1 (Estimated [pose_of (1 # 2) low_kps]);
                        settle 0 (Estimated [pose_of 1 kps])])
      with ((startup ++ [settle 1 Loaded;
                         settle 1 (Estimated [pose_of (1 # 2) low_kps])])
            ++ [settle 0 (Estimated [pose_of 1 kps])]).
    rewrite (@run_snoc calculateAngle _ _ _ _ R1).
    apply step_frame_estimated. exact P1.
  - split.
    { unfold reference_loading. rewrite P. cbn.
      intros [R|[t R]]; destruct R as [R|[]]; discriminate R. }
    rewrite I, Te, T, comparisons_app, writes_app, C, W, D.
    unfold s2. cbn [imgResult tensors trace with_pending].
    rewrite I1, T1, C1, W1. repeat split; reflexivity.
Qed.

End Startup.

Lemma unset_reference_scored_witness :
  exists s : State,
    run (constant_angle 10) (start "")
        (startup ++ [settle 1 Loaded;
                     settle 1 (Estimated [pose_of (1 # 2) sample_keypoints]);
                     settle 0 (Estimated [pose_of 1 sample_keypoints])])
    = Some s
    /\ ~ reference_loading s
    /\ leftElbow (imgResult s) = of_Z 0
    /\ tensors s = []
    /\ comparisons (trace s) = [(of_Z 0, Fin 10)]
    /\ writes (trace s) = ["SCORE: 50"%string]
    /\ score_placeholder s = "SCORE: 50"%string.
Proof.
  exact (@unset_reference_scored (constant_angle 10) sample_keypoints
                                 sample_keypoints "" eq_refl).
Defined.

(* ================================================================== *)
(** ** The reference load and the frame loop side by side *)

Section Reference.

Variable calculateAngle :
  option Keypoint -> option Keypoint -> option Keypoint -> number.

(** C10.  [bindPage] issues the first estimation call of the frame loop
    before the reference load has even requested its image, and
    [imgResult.leftElbow] is the number 0 from the start.  So a state is
    reachable in which the reference load is still pending and a live
    frame has been compared with the reference angle 0 and scored: every
    live angle that has a score against 0 (a truthy angle of magnitude at
    most 20) gets that score written. *)
Theorem scored_before_reference_loaded (kps : list Keypoint) (z : Z)
    (html : string) :
  score_of (of_Z 0)
           (calculateAngle (index kps 9) (index kps 7) (index kps 5))
  = Some z ->
  (exists s0 : State,
      run calculateAngle (start html) startup = Some s0
      /\ trace s0 = [ToggleLoadingUI true; PosenetLoad; ToggleLoadingUI false;
                     LoadVideo; ToggleLoadingUI false;
                     EstimatePoses Video true single_person;
                     LoadImage "https://i.imgur.com/Vs9p4Sj.jpg"]
      /\ pending s0 = [AwaitFrameEstimate case_single_pose; AwaitLoadImage]
      /\ leftElbow (imgResult s0) = of_Z 0)
  /\ exists s : State,
      reachable calculateAngle s
      /\ reference_loading s
      /\ leftElbow (imgResult s) = of_Z 0
      /\ comparisons (trace s)
         = [(of_Z 0,
             calculateAngle (index kps 9) (index kps 7) (index kps 5))]
      /\ writes (trace s) = [score_text z]
      /\ score_placeholder s = score_text z.
Proof.
  intros H.
  destruct (startup_state calculateAngle html)
    as (s0 & R0 & P0 & T0 & I0 & G0 & _).
  split.
  { exists s0. rewrite I0. auto. }
  set (s1 := with_pending [AwaitLoadImage] s0).
  exists (poseDetectionFrame_resume calculateAngle case_single_pose
            [pose_of 1 kps] s1).
  assert (Hi : leftElbow (imgResult s1) = of_Z 0)
    by (unfold s1; cbn; rewrite I0; reflexivity).
  assert (Hg : JS.ge (score (pose_of 1 kps))
                 (minPoseConfidence_of case_single_pose (guiState s1)) = true)
    by (unfold s1; cbn; rewrite G0; vm_compute; reflexivity).
  assert (Hz : score_of (leftElbow (imgResult s1))
                        (elbow calculateAngle (pose_of 1 kps)) = Some z).
  { rewrite Hi. exact H. }
  destruct (tick_scores calculateAngle case_single_pose s1 (pose_of 1 kps)
                        Hg Hz) as (C & W & D).
  rewrite Hi in C. unfold elbow in C. cbn [keypoints pose_of] in C.
  destruct (poseDetectionFrame_resume_spec calculateAngle case_single_pose
              [pose_of 1 kps] s1) as (T & P & _ & I & _).
  apply trace_effects_since in T.
  split.
  { exists html, (startup ++ [settle 0 (Estimated [pose_of 1 kps])]).
    rewrite (@run_snoc calculateAngle _ _ _ _ R0).
    apply step_frame_estimated. exact P0. }
  split.
  { left. rewrite P. cbn. auto. }
  rewrite I, T, comparisons_app, writes_app, C, W, D.
  unfold s1. cbn [imgResult trace with_pending].
  rewrite I0, T0. repeat split; reflexivity.
Qed.

(** C3, on the script.  The reference image is loaded, a tensor is created
    from its pixels and the estimation call is issued; the call fails.
    The reference load is over (its rejection is not handled), and the
    tensor has not been disposed. *)
Theorem rejected_estimation_leaks_tensor (html e : string) :
  exists s : State,
    run calculateAngle (start html)
        (startup ++ [settle 1 Loaded; settle 1 (Rejected e)]) = Some s
    /\ pending s = [AwaitFrameEstimate case_single_pose]
    /\ uncaught s = [e]
    /\ tensors s = [O]
    /\ disposed O (trace s) = false.
Proof.
  eexists. split; [vm_compute; reflexivity|].
  vm_compute. repeat split; reflexivity.
Qed.

(** On the path where the estimation resolves with a pose, the tensor is
    disposed at the end of the reference load. *)
Lemma resolved_estimation_disposes (input : tensor) (p : Pose)
    (ps : list Pose) (s : State) :
  let s' := testImage_estimated calculateAngle input (p :: ps) s in
  ~ In input (tensors s')
  /\ effects_since s s' = [Dispose input]
  /\ uncaught s' = uncaught s.
Proof.
  cbv zeta. unfold testImage_estimated. cbn [nth_error predictedPoses
    with_predictedPoses].
  match goal with
  | |- context [if ?b then _ else _] => destruct b
  end.
  all: split; [|split; [apply effects_since_app; reflexivity|reflexivity]].
  all: cbn; intros F; apply filter_In in F; destruct F as [_ F];
    unfold tensor_eqb in F; rewrite Nat.eqb_refl in F; discriminate F.
Qed.

(** C7.  A pose that passes the confidence gate of the live path and the
    gate of the reference path is given the same angle feature by both:
    [calculateAngle] on its keypoints 9, 7 and 5. *)
Theorem same_angle_feature (a : SwitchCase) (p : Pose) (input : tensor)
    (s1 s2 : State) :
  JS.ge (score p) (minPoseConfidence_of a (guiState s1)) = true ->
  JS.ge (score p) (s_minPoseConfidence (singlePoseDetection (guiState s2)))
  = true ->
  leftElbow (userResult (poseDetectionFrame_resume calculateAngle a [p] s1))
  = leftElbow (imgResult (testImage_estimated calculateAngle input [p] s2))
  /\ leftElbow (imgResult (testImage_estimated calculateAngle input [p] s2))
     = calculateAngle (index (keypoints p) 9) (index (keypoints p) 7)
                      (index (keypoints p) 5).
Proof.
  intros H1 H2.
  assert (R : leftElbow (imgResult
                (testImage_estimated calculateAngle input [p] s2))
              = calculateAngle (index (keypoints p) 9)
                  (index (keypoints p) 7) (index (keypoints p) 5)).
  { unfold testImage_estimated.
    cbn [nth_error predictedPoses with_predictedPoses guiState].
    rewrite H2. reflexivity. }
  split; [|exact R]. rewrite R.
  unfold poseDetectionFrame_resume.
  fold (minPoseConfidence_of a (guiState s1)).
  cbn [app fold_left].
  change (userResult (suspend ?k (emit ?e ?x))) with (userResult x).
  rewrite forEach_pose_userResult by exact H1. reflexivity.
Qed.

Lemma comparisons_poses (g : GuiState) (thr mp img : number)
    (ps : list Pose) :
  comparisons (flat_map (pose_effects calculateAngle g thr mp img) ps)
  = map (fun p => (img, elbow calculateAngle p))
        (filter (fun p => JS.ge (score p) thr) ps).
Proof.
  induction ps as [|p ps IH]; [reflexivity|].
  cbn [flat_map filter]. rewrite comparisons_app, IH.
  unfold pose_effects at 1. destruct (JS.ge (score p) thr); [|reflexivity].
  rewrite comparisons_app.
  replace (comparisons (recalculate_effects img (elbow calculateAngle p)))
    with [(img, elbow calculateAngle p)]
    by (unfold recalculate_effects, recalculate; case_ifs; reflexivity).
  replace (comparisons (draw_effects g mp p)) with (@nil (number * number))
    by (unfold draw_effects; case_ifs; reflexivity).
  reflexivity.
Qed.

Lemma writes_poses (g : GuiState) (thr mp img : number) (ps : list Pose) :
  writes (flat_map (pose_effects calculateAngle g thr mp img) ps)
  = flat_map (fun p => writes (recalculate_effects
                                 img (elbow calculateAngle p)))
             (filter (fun p => JS.ge (score p) thr) ps).
Proof.
  induction ps as [|p ps IH]; [reflexivity|].
  cbn [flat_map filter]. rewrite writes_app, IH.
  unfold pose_effects at 1. destruct (JS.ge (score p) thr); [|reflexivity].
  rewrite writes_app.
  replace (writes (draw_effects g mp p)) with (@nil string)
    by (unfold draw_effects; case_ifs; reflexivity).
  cbn [flat_map]. rewrite app_nil_r. reflexivity.
Qed.

End Reference.

(* ================================================================== *)
(** ** Witnesses on concrete pages *)

Lemma camera_ready_reachable :
  run (constant_angle 10) (start "") startup = Some (camera_ready "").
Proof. vm_compute. reflexivity. Qed.

Lemma single_in_flight_witness :
  (in_flight (camera_ready "") <= 1)%nat
  /\ (in_flight (camera_ready "") + scheduled (camera_ready "") <= 1)%nat
  /\ forall (ev : Event) (s' : State),
       step (constant_angle 10) (camera_ready "") ev = Some s' ->
       (frame_calls (trace (camera_ready ""))
        < frame_calls (trace s'))%nat ->
       in_flight (camera_ready "") = O
       /\ frame_calls (trace s') = S (frame_calls (trace (camera_ready "")))
       /\ in_flight s' = 1%nat.
Proof.
  apply (@single_in_flight (constant_angle 10) (camera_ready "")).
  exists ""%string, startup. vm_compute. reflexivity.
Defined.

Lemma scored_before_reference_loaded_witness :
  (exists s0 : State,
      run (constant_angle 10) (start "") startup = Some s0
      /\ trace s0 = [ToggleLoadingUI true; PosenetLoad; ToggleLoadingUI false;
                     LoadVideo; ToggleLoadingUI false;
                     EstimatePoses Video true single_person;
                     LoadImage "https://i.imgur.com/Vs9p4Sj.jpg"]
      /\ pending s0 = [AwaitFrameEstimate case_single_pose; AwaitLoadImage]
      /\ leftElbow (imgResult s0) = of_Z 0)
  /\ exists s : State,
      reachable (constant_angle 10) s
      /\ reference_loading s
      /\ leftElbow (imgResult s) = of_Z 0
      /\ comparisons (trace s) = [(of_Z 0, Fin 10)]
      /\ writes (trace s) = ["SCORE: 50"%string]
      /\ score_placeholder s = "SCORE: 50"%string.
Proof.
  apply (@scored_before_reference_loaded (constant_angle 10)
           sample_keypoints 50 "").
  vm_compute. reflexivity.
Defined.

Lemma same_angle_feature_witness :
  leftElbow (userResult
     (poseDetectionFrame_resume (constant_angle 10) case_single_pose
        [pose_of (9 # 10) sample_keypoints] (camera_ready "")))
  = leftElbow (imgResult
      (testImage_estimated (constant_angle 10) O
         [pose_of (9 # 10) sample_keypoints] (camera_ready "")))
  /\ leftElbow (imgResult
       (testImage_estimated (constant_angle 10) O
          [pose_of (9 # 10) sample_keypoints] (camera_ready "")))
     = constant_angle 10 (index (keypoints (pose_of (9 # 10) sample_keypoints)) 9)
         (index (keypoints (pose_of (9 # 10) sample_keypoints)) 7)
         (index (keypoints (pose_of (9 # 10) sample_keypoints)) 5).
Proof.
  apply (@same_angle_feature (constant_angle 10) case_single_pose
           (pose_of (9 # 10) sample_keypoints) O
           (camera_ready "") (camera_ready "")); vm_compute; reflexivity.
Defined.

(* ================================================================== *)
(** ** The loop at work *)

(** The first tick resolves, its callback is registered, and the next
    display refresh issues the second estimation call: two calls in all,
    one of them in flight. *)
Example second_tick_issued :
  exists s : State,
    run (constant_angle 10) (start "")
        (startup ++ [settle 0 (Estimated [pose_of 1 sample_keypoints]);
                     settle 1 FrameTime]) = Some s
    /\ pending s = [AwaitLoadImage; AwaitFrameEstimate case_single_pose]
    /\ frame_calls (trace s) = 2%nat
    /\ in_flight s = 1%nat.
Proof.
  eexists. split; [vm_compute; reflexivity|].
  vm_compute. repeat split; reflexivity.
Qed.

(** A failed estimation ends the loop: nothing is pending for it any
    more. *)
Example rejected_tick_ends_loop :
  exists s : State,
    run (constant_angle 10) (start "")
        (startup ++ [settle 0 (Rejected "lost context")]) = Some s
    /\ pending s = [AwaitLoadImage]
    /\ uncaught s = ["lost context"%string].
Proof.
  eexists. split; [vm_compute; reflexivity|].
  vm_compute. repeat split; reflexivity.
Qed.

(** Multi-pose mode, three detected poses of confidence 0.9, 0.1 and 0.2
    against the threshold 0.15: two comparisons, each with the reference
    angle 25 that was cached before the tick. *)
Example multi_pose_tick :
  let s0 := with_imgResult {| leftElbow := Fin 25 |}
              (with_pending [AnimationFrameRequest]
                 (with_guiState (set_algorithm multi_pose
                                   (guiState (camera_ready "")))
                    (camera_ready ""))) in
  exists s : State,
    run (constant_angle 10) s0
        [settle 0 FrameTime;
         settle 0 (Estimated [pose_of (9 # 10) sample_keypoints;
                              pose_of (1 # 10) sample_keypoints;
                              pose_of (2 # 10) sample_keypoints])] = Some s
    /\ comparisons (effects_since s0 s)
       = [(Fin 25, Fin 10); (Fin 25, Fin 10)]
    /\ writes (effects_since s0 s)
       = ["SCORE: 25"%string; "SCORE: 25"%string]
    /\ In (EstimatePoses Video true multi_person) (effects_since s0 s).
Proof.
  cbv zeta. eexists. split; [vm_compute; reflexivity|].
  vm_compute. repeat split; auto.
Qed.

(* ================================================================== *)
(** ** AngleCalculator: failure on degenerate triples, range otherwise *)

Module AngleProperties.

Import Reals Lra AngleCalculator.
Local Open Scope R_scope.

Lemma coincide_true (a b : Point) :
  coincide a b = true <-> (px a = px b /\ py a = py b).
Proof.
  unfold coincide.
  destruct (Req_dec_T (px a) (px b));
    [destruct (Req_dec_T (py a) (py b))|];
    split; intros H; try discriminate; tauto.
Qed.

(** A ray to a point other than the vertex has non-zero length. *)
Lemma dot_self_pos (v p : Point) :
  coincide v p = false -> 0 < dot (ray v p) (ray v p).
Proof.
  intros H. unfold dot, ray. cbn.
  assert (N : ~ (px v = px p /\ py v = py p)).
  { intros C. apply coincide_true in C. congruence. }
  pose proof (Rle_0_sqr (px p - px v)) as Sx.
  pose proof (Rle_0_sqr (py p - py v)) as Sy.
  destruct (Req_dec (px p - px v) 0) as [E|E].
  - destruct (Req_dec (py p - py v) 0) as [F|F].
    + exfalso. apply N. split; lra.
    + apply Rsqr_pos_lt in F. unfold Rsqr in *. lra.
  - apply Rsqr_pos_lt in E. unfold Rsqr in *. lra.
Qed.

Lemma cauchy_schwarz (u w : R * R) : (dot u w)² <= dot u u * dot w w.
Proof.
  destruct u as [a b], w as [c d]. unfold dot, Rsqr. cbn.
  pose proof (Rle_0_sqr (a * d - b * c)) as H. unfold Rsqr in H. nra.
Qed.

Lemma ratio_bounds (x y k : R) :
  0 < y -> 0 <= k -> - (k * y) <= x <= k * y -> - k <= x / y <= k.
Proof.
  intros Hy Hk [L U]. unfold Rdiv.
  assert (E : y * / y = 1) by (apply Rinv_r; lra).
  split.
  - apply Rmult_le_reg_r with y; [exact Hy|].
    rewrite Rmult_assoc, (Rmult_comm (/ y)), E. lra.
  - apply Rmult_le_reg_r with y; [exact Hy|].
    rewrite Rmult_assoc, (Rmult_comm (/ y)), E. lra.
Qed.

(** Away from the degenerate case the quotient handed to the arccosine is
    a cosine: both lengths are non-zero and the quotient is in [-1, 1]. *)
Lemma cosine_bounds (v a b : Point) :
  coincide v a = false -> coincide v b = false ->
  0 < norm (ray v a) * norm (ray v b)
  /\ -1 <= dot (ray v a) (ray v b) / (norm (ray v a) * norm (ray v b)) <= 1.
Proof.
  intros Ha Hb.
  pose proof (dot_self_pos _ _ Ha) as Pa.
  pose proof (dot_self_pos _ _ Hb) as Pb.
  set (u := ray v a) in *. set (w := ray v b) in *.
  assert (Nu : 0 < norm u) by (apply sqrt_lt_R0; exact Pa).
  assert (Nw : 0 < norm w) by (apply sqrt_lt_R0; exact Pb).
  assert (P : 0 < norm u * norm w) by (apply Rmult_lt_0_compat; assumption).
  split; [exact P|].
  assert (S : (norm u * norm w)² = dot u u * dot w w).
  { unfold norm. rewrite Rsqr_mult, !Rsqr_sqrt by lra. reflexivity. }
  pose proof (cauchy_schwarz u w) as CS. rewrite <- S in CS.
  apply Rsqr_le_abs_0 in CS.
  rewrite (Rabs_pos_eq (norm u * norm w)) in CS by lra.
  apply ratio_bounds; [exact P|lra|].
  unfold Rabs in CS. destruct (Rcase_abs (dot u w)); lra.
Qed.

(** C6.  When the vertex coincides with [pointA] or with [pointB],
    [angleOf] fails with [DegenerateGeometry] and yields no number.  For
    every other triple it yields a number of degrees in [0, 180], the
    arccosine being taken of a quotient in [-1, 1] with a non-zero
    divisor. *)
Theorem angleOf_degenerate_or_in_range (vertex pointA pointB : Point) :
  (coincide vertex pointA = true \/ coincide vertex pointB = true ->
   angleOf vertex pointA pointB = inl DegenerateGeometry)
  /\ (coincide vertex pointA = false -> coincide vertex pointB = false ->
      exists d : R,
        angleOf vertex pointA pointB = inr d
        /\ 0 <= d <= 180
        /\ cos (d * PI / 180)
           = dot (ray vertex pointA) (ray vertex pointB)
             / (norm (ray vertex pointA) * norm (ray vertex pointB))).
Proof.
  unfold angleOf. split.
  - intros [H|H]; rewrite H; [reflexivity|].
    rewrite Bool.orb_true_r. reflexivity.
  - intros Ha Hb. rewrite Ha, Hb. cbn [orb]. cbv zeta.
    destruct (cosine_bounds _ _ _ Ha Hb) as [_ B].
    set (c := dot (ray vertex pointA) (ray vertex pointB)
              / (norm (ray vertex pointA) * norm (ray vertex pointB))) in *.
    exists (acos c * 180 / PI). split; [reflexivity|].
    pose proof (acos_bound c) as [L U]. pose proof PI_RGT_0 as P.
    split; [split|].
    + unfold Rdiv. apply Rmult_le_pos;
        [apply Rmult_le_pos; lra|left; apply Rinv_0_lt_compat; lra].
    + apply ratio_bounds; lra.
    + replace (acos c * 180 / PI * PI / 180) with (acos c)
        by (field; lra).
      apply cos_acos. exact B.
Qed.

(** A right angle and a degenerate triple. *)
Lemma angleOf_degenerate_or_in_range_witness :
  angleOf {| px := 0; py := 0 |} {| px := 0; py := 0 |} {| px := 1; py := 0 |}
  = inl DegenerateGeometry
  /\ exists d : R,
       angleOf {| px := 0; py := 0 |} {| px := 1; py := 0 |}
               {| px := 0; py := 1 |} = inr d
       /\ 0 <= d <= 180
       /\ cos (d * PI / 180)
          = dot (ray {| px := 0; py := 0 |} {| px := 1; py := 0 |})
                (ray {| px := 0; py := 0 |} {| px := 0; py := 1 |})
            / (norm (ray {| px := 0; py := 0 |} {| px := 1; py := 0 |})
               * norm (ray {| px := 0; py := 0 |} {| px := 0; py := 1 |})).
Proof.
  split.
  - apply (proj1 (angleOf_degenerate_or_in_range
                    {| px := 0; py := 0 |} {| px := 0; py := 0 |}
                    {| px := 1; py := 0 |})).
    left. apply coincide_true. cbn. split; reflexivity.
  - apply (proj2 (angleOf_degenerate_or_in_range
                    {| px := 0; py := 0 |} {| px := 1; py := 0 |}
                    {| px := 0; py := 1 |})).
    + apply Bool.not_true_is_false. intros C. apply coincide_true in C.
      cbn in C. lra.
    + apply Bool.not_true_is_false. intros C. apply coincide_true in C.
      cbn in C. lra.
Defined.

End AngleProperties.

(* ================================================================== *)
(** ** Further properties of scoring *)

(** X1.  A score displayed by [recalculate] is an integer between 0 and
    100. *)
Theorem displayed_score_in_range (s : State) (z : Z) :
  displays s z -> (0 <= z <= 100)%Z.
Proof.
  intros D. apply displays_iff in D. exact (score_of_range _ _ D).
Qed.

Lemma displayed_score_in_range_witness : (0 <= 75 <= 100)%Z.
Proof.
  apply (@displayed_score_in_range (page (Fin 45) (Fin 40) "") 75).
  apply displays_iff. vm_compute. reflexivity.
Defined.

Lemma last_cons_default {A : Type} (x : A) (l : list A) (d d' : A) :
  last (x :: l) d = last (x :: l) d'.
Proof.
  revert x. induction l as [|y l IH]; intros x; [reflexivity|].
  change (last (y :: l) d = last (y :: l) d'). apply IH.
Qed.

Lemma last_app_default {A : Type} (a b : list A) (d : A) :
  last (a ++ b) d = last b (last a d).
Proof.
  revert d. induction a as [|x a IH]; intros d; [reflexivity|].
  destruct a as [|y a'].
  - destruct b as [|z b']; [reflexivity|].
    change (last (z :: b') d = last (z :: b') x). apply last_cons_default.
  - change (last ((y :: a') ++ b) d = last b (last (y :: a') d)).
    apply IH.
Qed.

Lemma last_of_cons {A : Type} (x : A) (l : list A) :
  last_of (x :: l) = Some (last l x).
Proof.
  revert x. induction l as [|y l IH]; intros x; [reflexivity|].
  change (last_of (y :: l) = Some (last (y :: l) x)).
  rewrite IH. f_equal. destruct l as [|z l]; [reflexivity|].
  change (last (z :: l) y = last (z :: l) x). apply last_cons_default.
Qed.

(** What one comparison writes is a percentage, and the placeholder ends
    up with it. *)
Lemma recalculate_writes (s : State) :
  Forall percent_text
         (writes (recalculate_effects (leftElbow (imgResult s))
                                      (leftElbow (userResult s))))
  /\ score_placeholder (recalculate s)
     = last (writes (recalculate_effects (leftElbow (imgResult s))
                                         (leftElbow (userResult s))))
            (score_placeholder s).
Proof.
  rewrite recalculate_effects_score_of, recalculate_score_of. cbv zeta.
  destruct (score_of (leftElbow (imgResult s)) (leftElbow (userResult s)))
    as [z|] eqn:S; cbn; (split; [|reflexivity]).
  - constructor; [|constructor]. exists z.
    split; [exact (score_of_range _ _ S)|reflexivity].
  - constructor.
Qed.

Section Ticks.

Variable calculateAngle :
  option Keypoint -> option Keypoint -> option Keypoint -> number.

Lemma writes_draw_effects (g : GuiState) (mp : number) (p : Pose) :
  writes (draw_effects g mp p) = [].
Proof. unfold draw_effects. case_ifs; reflexivity. Qed.

Lemma pose_effects_writes (g : GuiState) (thr mp img : number) (p : Pose) :
  writes (pose_effects calculateAngle g thr mp img p)
  = if JS.ge (score p) thr
    then writes (recalculate_effects img (elbow calculateAngle p))
    else [].
Proof.
  unfold pose_effects. destruct (JS.ge (score p) thr); [|reflexivity].
  rewrite writes_app, writes_draw_effects, app_nil_r. reflexivity.
Qed.

(** After the [forEach] the placeholder holds the last write, and
    [userResult] the angle of the last pose that passed the gate. *)
Lemma forEach_fold_state (thr mp : number) (ps : list Pose) (s : State) :
  let s' := fold_left (forEach_pose calculateAngle thr mp) ps s in
  score_placeholder s'
  = last (writes (flat_map (pose_effects calculateAngle (guiState s) thr mp
                                         (leftElbow (imgResult s))) ps))
         (score_placeholder s)
  /\ userResult s'
     = match last_of (filter (fun p => JS.ge (score p) thr) ps) with
       | Some p => {| leftElbow := elbow calculateAngle p |}
       | None => userResult s
       end
  /\ Forall percent_text
       (writes (flat_map (pose_effects calculateAngle (guiState s) thr mp
                                       (leftElbow (imgResult s))) ps)).
Proof.
  cbv zeta. revert s. induction ps as [|p ps IH]; intros s.
  - cbn. repeat split; constructor.
  - cbn [fold_left flat_map filter].
    destruct (IH (forEach_pose calculateAngle thr mp s p)) as (P & U & F).
    destruct (forEach_pose_same calculateAngle thr mp s p) as (G & I & _).
    rewrite G, I in P, F. rewrite P, U.
    rewrite writes_app, last_app_default, pose_effects_writes.
    destruct (JS.ge (score p) thr) eqn:E.
    + rewrite (forEach_pose_placeholder calculateAngle thr mp s p E).
      rewrite (forEach_pose_userResult calculateAngle thr mp s p E).
      set (s1 := with_userResult _ s).
      destruct (recalculate_writes s1) as [F1 P1].
      change (leftElbow (imgResult s1)) with (leftElbow (imgResult s))
        in F1, P1.
      change (leftElbow (userResult s1)) with (elbow calculateAngle p)
        in F1, P1.
      change (score_placeholder s1) with (score_placeholder s) in P1.
      rewrite P1. split; [reflexivity|]. split.
      * destruct (filter (fun p0 => JS.ge (score p0) thr) ps) as [|q qs];
          [reflexivity|].
        change (last_of (p :: q :: qs)) with (last_of (q :: qs)).
        rewrite last_of_cons. reflexivity.
      * apply Forall_app. split; assumption.
    + unfold forEach_pose. rewrite E. cbn [last]. repeat split; assumption.
Qed.

End Ticks.

Section TickProperties.

Variable calculateAngle :
  option Keypoint -> option Keypoint -> option Keypoint -> number.

Lemma writes_tick_effects (g : GuiState) (es : list Effect) :
  writes ([ClearRect] ++ (if showVideo (output g) then [DrawVideo] else [])
          ++ es ++ [RequestAnimationFrame])
  = writes es.
Proof.
  rewrite !writes_app. destruct (showVideo (output g)); cbn;
    rewrite app_nil_r; reflexivity.
Qed.

Lemma tick_fold_state (a : SwitchCase) (ps : list Pose) (s : State) :
  let s' := poseDetectionFrame_resume calculateAngle a ps s in
  let es := flat_map (pose_effects calculateAngle (guiState s)
                        (minPoseConfidence_of a (guiState s))
                        (minPartConfidence_of a (guiState s))
                        (leftElbow (imgResult s))) ps in
  score_placeholder s' = last (writes es) (score_placeholder s)
  /\ userResult s'
     = match last_of (filter (fun p => JS.ge (score p)
                                 (minPoseConfidence_of a (guiState s))) ps)
       with
       | Some p => {| leftElbow := elbow calculateAngle p |}
       | None => userResult s
       end
  /\ Forall percent_text (writes es).
Proof.
  cbv zeta. unfold poseDetectionFrame_resume.
  fold (minPoseConfidence_of a (guiState s)).
  fold (minPartConfidence_of a (guiState s)).
  change ([] ++ ps) with ps.
  change (score_placeholder (suspend ?k (emit ?e ?x)))
    with (score_placeholder x).
  change (userResult (suspend ?k (emit ?e ?x))) with (userResult x).
  set (s1 := if showVideo (output (guiState (emit ClearRect s)))
             then emit DrawVideo (emit ClearRect s) else emit ClearRect s).
  assert (S1 : guiState s1 = guiState s /\ imgResult s1 = imgResult s
               /\ score_placeholder s1 = score_placeholder s
               /\ userResult s1 = userResult s).
  { subst s1. cbn. destruct (showVideo (output (guiState s))); cbn; tauto. }
  destruct S1 as (G1 & I1 & P1 & U1).
  destruct (forEach_fold_state calculateAngle
              (minPoseConfidence_of a (guiState s))
              (minPartConfidence_of a (guiState s)) ps s1) as (P & U & F).
  rewrite G1, I1, P1 in P. rewrite U1 in U. rewrite G1, I1 in F.
  auto.
Qed.

Lemma writes_scores (img : number) (ps : list Pose) :
  flat_map (fun p => writes (recalculate_effects img
                               (elbow calculateAngle p))) ps
  = map score_text (scores_of calculateAngle img ps).
Proof.
  unfold scores_of. induction ps as [|p ps IH]; [reflexivity|].
  cbn [flat_map]. rewrite map_app, <- IH, recalculate_effects_score_of.
  destruct (score_of img (elbow calculateAngle p)); reflexivity.
Qed.

(** C8.  A tick of the multi-pose branch performs one comparison for each
    pose whose confidence reaches the multi-pose threshold, in order, each
    against the reference angle cached when the tick resumes and each with
    the angle of its own pose.  What it writes is, pose by pose, the score
    of that pose's angle against the reference, which depends on no other
    pose.  The cached reference is left as it was.  The results go one
    after the other to the one [userResult] and the one score placeholder
    of the page: after the tick these hold the angle of the last such pose
    and the last score written. *)
Theorem multi_pose_comparisons (ps : list Pose) (s : State) :
  let s' := poseDetectionFrame_resume calculateAngle case_multi_pose ps s in
  let passing :=
    filter (fun p => JS.ge (score p)
                       (m_minPoseConfidence (multiPoseDetection (guiState s))))
           ps in
  let reference := leftElbow (imgResult s) in
  comparisons (effects_since s s')
  = map (fun p => (reference, elbow calculateAngle p)) passing
  /\ List.length (comparisons (effects_since s s')) = List.length passing
  /\ writes (effects_since s s')
     = map score_text (scores_of calculateAngle reference passing)
  /\ imgResult s' = imgResult s
  /\ userResult s'
     = match last_of passing with
       | Some p => {| leftElbow := elbow calculateAngle p |}
       | None => userResult s
       end
  /\ score_placeholder s'
     = last (map score_text (scores_of calculateAngle reference passing))
            (score_placeholder s).
Proof.
  cbv zeta.
  destruct (poseDetectionFrame_resume_spec calculateAngle case_multi_pose ps s)
    as (T & _ & _ & I & _).
  destruct (tick_fold_state case_multi_pose ps s) as (P & U & _).
  rewrite (@effects_since_app _ _ _ T), P, U.
  cbn [minPoseConfidence_of minPartConfidence_of].
  rewrite writes_tick_effects, !comparisons_app.
  rewrite comparisons_poses, writes_poses, writes_scores.
  rewrite length_app, length_app, length_app, length_map.
  destruct (showVideo (output (guiState s))); cbn; rewrite !app_nil_r;
    rewrite ?Nat.add_0_r; auto 10.
Qed.

(** X2.  After a tick the placeholder holds the last score the tick wrote
    (its previous content if it wrote none), [userResult] holds the angle
    of the last pose that passed the confidence gate (its previous value
    if none passed), and every write of the tick is a score between 0 and
    100. *)
Theorem tick_keeps_last (a : SwitchCase) (ps : list Pose) (s : State) :
  let s' := poseDetectionFrame_resume calculateAngle a ps s in
  score_placeholder s'
  = last (writes (effects_since s s')) (score_placeholder s)
  /\ userResult s'
     = match last_of (filter (fun p => JS.ge (score p)
                                 (minPoseConfidence_of a (guiState s))) ps)
       with
       | Some p => {| leftElbow := elbow calculateAngle p |}
       | None => userResult s
       end
  /\ Forall percent_text (writes (effects_since s s')).
Proof.
  cbv zeta.
  destruct (poseDetectionFrame_resume_spec calculateAngle a ps s) as (T & _).
  destruct (tick_fold_state a ps s) as (P & U & F).
  rewrite (@effects_since_app _ _ _ T), writes_tick_effects.
  auto.
Qed.

Lemma below_all_filter (thr : number) (ps : list Pose) :
  forallb (below thr) ps = true ->
  filter (fun p => JS.ge (score p) thr) ps = [].
Proof.
  induction ps as [|p ps IH]; [reflexivity|].
  cbn [forallb filter]. unfold below at 1. intros H.
  apply andb_prop in H. destruct H as [H1 H2].
  destruct (JS.ge (score p) thr); [discriminate H1|]. apply IH. exact H2.
Qed.

(** X3.  A tick none of whose poses reaches the confidence threshold (an
    empty estimation result included) makes no comparison and no write,
    leaves [userResult] and the placeholder as they were, and still
    registers the next animation frame. *)
Theorem low_confidence_tick (a : SwitchCase) (ps : list Pose) (s : State) :
  forallb (below (minPoseConfidence_of a (guiState s))) ps = true ->
  let s' := poseDetectionFrame_resume calculateAngle a ps s in
  comparisons (effects_since s s') = []
  /\ writes (effects_since s s') = []
  /\ userResult s' = userResult s
  /\ score_placeholder s' = score_placeholder s
  /\ pending s' = pending s ++ [AnimationFrameRequest].
Proof.
  intros B. cbv zeta. apply below_all_filter in B.
  destruct (tick_fold_state a ps s) as (P & U & _).
  destruct (poseDetectionFrame_resume_spec calculateAngle a ps s)
    as (T & Pe & _).
  rewrite P, U, B, Pe. rewrite (@effects_since_app _ _ _ T).
  rewrite writes_tick_effects, !comparisons_app.
  rewrite comparisons_poses, writes_poses, B.
  destruct (showVideo (output (guiState s))); cbn; auto.
Qed.

End TickProperties.

Lemma low_confidence_tick_witness :
  let s := camera_ready "SCORE: 35" in
  let s' := poseDetectionFrame_resume (constant_angle 10) case_single_pose
              [pose_of (1 # 2) sample_keypoints] s in
  comparisons (effects_since s s') = []
  /\ writes (effects_since s s') = []
  /\ userResult s' = userResult s
  /\ score_placeholder s' = score_placeholder s
  /\ pending s' = pending s ++ [AnimationFrameRequest].
Proof.
  apply (@low_confidence_tick (constant_angle 10) case_single_pose
           [pose_of (1 # 2) sample_keypoints] (camera_ready "SCORE: 35")).
  vm_compute. reflexivity.
Defined.

(* ================================================================== *)
(** ** Invariants of whole runs *)

Lemma In_remove_nth {A : Type} (x : A) (i : nat) (l : list A) :
  In x (remove_nth i l) -> In x l.
Proof.
  revert i. induction l as [|a l IH]; intros [|i] H; cbn in *; auto.
  destruct H as [H|H]; [auto|]. right. exact (IH i H).
Qed.

Lemma In_remove_nth_other {A : Type} (x k : A) (i : nat) (l : list A) :
  In x l -> nth_error l i = Some k -> x <> k -> In x (remove_nth i l).
Proof.
  revert i. induction l as [|a l IH]; intros [|i] H N D; cbn in *;
    try contradiction.
  - injection N as ->. destruct H as [H|H]; [congruence|exact H].
  - destruct H as [H|H]; [auto|]. right. exact (IH i H N D).
Qed.

Lemma filter_remove_self {A : Type} (f : A -> bool) (l : list A) (i : nat)
    (k : A) :
  nth_error l i = Some k -> f k = true ->
  List.length (filter f l) = S (List.length (filter f (remove_nth i l))).
Proof.
  revert i. induction l as [|a l IH]; intros [|i] H F; try discriminate H.
  - injection H as ->. cbn. rewrite F. reflexivity.
  - cbn [nth_error] in H. cbn [filter remove_nth].
    destruct (f a); cbn [List.length]; rewrite (IH i H F); reflexivity.
Qed.

Lemma filter_remove_any {A : Type} (f : A -> bool) (l : list A) (i : nat) :
  filter f l = [] -> filter f (remove_nth i l) = [].
Proof.
  revert i. induction l as [|a l IH]; intros [|i] H; cbn in *; auto.
  - destruct (f a); [discriminate H|exact H].
  - destruct (f a); [discriminate H|]. apply IH. exact H.
Qed.

Lemma filter_nil_In {A : Type} (f : A -> bool) (l : list A) (x : A) :
  filter f l = [] -> In x l -> f x = false.
Proof.
  intros H I. destruct (f x) eqn:E; [|reflexivity].
  assert (In x (filter f l)) by (apply filter_In; auto).
  rewrite H in *. contradiction.
Qed.

Lemma filter_one_unique {A : Type} (f : A -> bool) (l : list A) (i : nat)
    (x k : A) :
  List.length (filter f l) = 1%nat ->
  In x l -> f x = true -> nth_error l i = Some k -> f k = true ->
  x = k /\ filter f (remove_nth i l) = [].
Proof.
  revert i. induction l as [|a l IH]; intros i L I Fx N Fk;
    [contradiction|].
  destruct i as [|i].
  - injection N as ->. cbn [filter] in L. rewrite Fk in L.
    assert (E : filter f l = []).
    { destruct (filter f l); [reflexivity|discriminate L]. }
    split; [|exact E]. destruct I as [I|I]; [auto|].
    pose proof (filter_nil_In f l x E I). congruence.
  - cbn [nth_error] in N. cbn [filter remove_nth]. cbn [filter] in L.
    destruct (f a) eqn:Fa.
    + assert (E : filter f l = []).
      { destruct (filter f l); [reflexivity|discriminate L]. }
      pose proof (filter_nil_In f l k E (nth_error_In l i N)). congruence.
    + destruct I as [I|I]; [congruence|]. exact (IH i L I Fx N Fk).
Qed.

Lemma loop_tokens_zero_In (l : list Pending) (k : Pending) :
  loop_tokens l = O -> In k l -> loop_token k = O.
Proof.
  induction l as [|a l IH]; [contradiction|].
  cbn [loop_tokens In]. intros H [->|I]; [lia|]. apply IH; [lia|exact I].
Qed.

Section RunInvariants.

Variable calculateAngle :
  option Keypoint -> option Keypoint -> option Keypoint -> number.

Lemma run_snoc_inv (evs : list Event) (ev : Event) (s s' : State) :
  run calculateAngle s (evs ++ [ev]) = Some s' ->
  exists s1, run calculateAngle s evs = Some s1
             /\ step calculateAngle s1 ev = Some s'.
Proof.
  revert s. induction evs as [|e evs IH]; intros s; cbn [run app].
  - destruct (step calculateAngle s ev) as [s1|] eqn:E; [|discriminate].
    intros [= ->]. exists s. auto.
  - destruct (step calculateAngle s e); [apply IH|discriminate].
Qed.

(** Induction over the runs of the script. *)
Lemma run_ind (P : State -> Prop) (html : string) :
  P (start html) ->
  (forall (evs : list Event) (s : State) (ev : Event) (s' : State),
      run calculateAngle (start html) evs = Some s -> P s ->
      step calculateAngle s ev = Some s' -> P s') ->
  forall (evs : list Event) (s : State),
    run calculateAngle (start html) evs = Some s -> P s.
Proof.
  intros H0 HS evs. induction evs as [|ev evs IH] using rev_ind; intros s R.
  - injection R as <-. exact H0.
  - apply run_snoc_inv in R. destruct R as (s1 & R1 & E).
    exact (HS evs s1 ev s R1 (IH s1 R1) E).
Qed.

End RunInvariants.

Lemma reference_effects_app (a b : list Effect) :
  reference_effects (a ++ b) = reference_effects a ++ reference_effects b.
Proof. apply filter_app. Qed.

Lemma reference_effects_recalculate (i u : number) :
  reference_effects (recalculate_effects i u) = [].
Proof.
  unfold recalculate_effects, recalculate. case_ifs; reflexivity.
Qed.

Ltac loop_step_case new :=
  cbn; case_ifs; cbn; rewrite ?reference_effects_app; cbn;
  rewrite ?app_nil_r;
  repeat split; auto;
  try (exists new; rewrite ?app_nil_r; auto);
  try (intros _ E; apply app_eq_nil in E; destruct E as [_ E];
       discriminate E).

Section ReferenceFlow.

Variable calculateAngle :
  option Keypoint -> option Keypoint -> option Keypoint -> number.

Lemma reference_effects_poses (g : GuiState) (thr mp img : number)
    (ps : list Pose) :
  reference_effects (flat_map (pose_effects calculateAngle g thr mp img) ps)
  = [].
Proof.
  induction ps as [|p ps IH]; [reflexivity|].
  cbn [flat_map]. rewrite reference_effects_app, IH, app_nil_r.
  unfold pose_effects. destruct (JS.ge (score p) thr); [|reflexivity].
  rewrite reference_effects_app, reference_effects_recalculate.
  unfold draw_effects. case_ifs; reflexivity.
Qed.

Lemma poseDetectionFrame_resume_same (a : SwitchCase) (ps : list Pose)
    (s : State) :
  let s' := poseDetectionFrame_resume calculateAngle a ps s in
  fresh s' = fresh s /\ predictedPoses s' = predictedPoses s
  /\ image s' = image s.
Proof.
  cbv zeta. unfold poseDetectionFrame_resume. change ([] ++ ps) with ps.
  fold (minPoseConfidence_of a (guiState s)).
  fold (minPartConfidence_of a (guiState s)).
  set (s1 := if showVideo (output (guiState (emit ClearRect s)))
             then emit DrawVideo (emit ClearRect s) else emit ClearRect s).
  destruct (forEach_fold calculateAngle
              (minPoseConfidence_of a (guiState s))
              (minPartConfidence_of a (guiState s)) ps s1)
    as [(_ & _ & Im & Pr & _ & Fr & _) _].
  change (fresh (suspend ?k (emit ?e ?x))) with (fresh x).
  change (predictedPoses (suspend ?k (emit ?e ?x)))
    with (predictedPoses x).
  change (image (suspend ?k (emit ?e ?x))) with (image x).
  rewrite Fr, Pr, Im. subst s1. cbn.
  destruct (showVideo (output (guiState s))); cbn; auto.
Qed.

(** A step of the frame loop leaves everything the reference load works
    with as it is. *)
Lemma loop_step_preserves (k : Pending) (o : Outcome) (s s' : State) :
  is_bind k = false -> is_reference_wait k = false ->
  resume calculateAngle k o s = Some s' ->
  reference_effects (trace s') = reference_effects (trace s)
  /\ guiState s' = guiState s /\ tensors s' = tensors s
  /\ fresh s' = fresh s /\ imgResult s' = imgResult s
  /\ predictedPoses s' = predictedPoses s
  /\ (exists new, pending s' = pending s ++ new
                  /\ filter is_reference_wait new = []
                  /\ filter is_bind new = [])
  /\ (uncaught s <> [] -> uncaught s' <> []).
Proof.
  intros B R.
  destruct k; try discriminate B; try discriminate R;
    destruct o; cbn [resume]; intros H; try discriminate H;
    injection H as <-.
  - (* a tick resumes *)
    destruct (poseDetectionFrame_resume_spec calculateAngle a poses s)
      as (T & P & G & I & Te & U).
    destruct (poseDetectionFrame_resume_same a poses s) as (F & Pr & _).
    rewrite T, G, I, Te, U, F, Pr, !reference_effects_app,
      reference_effects_poses.
    replace (reference_effects
               (if showVideo (output (guiState s)) then [DrawVideo] else []))
      with (@nil Effect)
      by (destruct (showVideo (output (guiState s))); reflexivity).
    cbn [reference_effects filter is_reference_effect app].
    rewrite app_nil_r. repeat split; auto.
    exists [AnimationFrameRequest]. auto.
  - (* the estimation of a tick fails *)
    loop_step_case (@nil Pending).
  - (* the animation frame fires *)
    unfold poseDetectionFrame.
    destruct (algorithm (guiState s)).
    + destruct (net (guiState s));
        [loop_step_case [AwaitFrameEstimate case_single_pose]
        |loop_step_case (@nil Pending)].
    + destruct (net (guiState s));
        [loop_step_case [AwaitFrameEstimate case_multi_pose]
        |loop_step_case (@nil Pending)].
    + loop_step_case [AnimationFrameRequest].
Qed.

End ReferenceFlow.

Section FlowInvariant.

Variable calculateAngle :
  option Keypoint -> option Keypoint -> option Keypoint -> number.

Lemma bind_alone (s : State) (i : nat) (k : Pending) :
  (loop_tokens (pending s) <= 1)%nat ->
  (forall x, In x (pending s) -> is_bind x = true) ->
  nth_error (pending s) i = Some k ->
  remove_nth i (pending s) = [].
Proof.
  intros L A N.
  pose proof (@loop_tokens_remove _ _ _ N) as R.
  assert (Bk : is_bind k = true) by (apply A; exact (nth_error_In _ _ N)).
  assert (Tk : loop_token k = 1%nat) by (destruct k; try discriminate Bk; reflexivity).
  destruct (remove_nth i (pending s)) as [|x l] eqn:E; [reflexivity|].
  assert (Ix : In x (pending s)) by (apply (@In_remove_nth _ x i); rewrite E; left; reflexivity).
  apply A in Ix. cbn [loop_tokens] in R.
  destruct x; try discriminate Ix; cbn in R; lia.
Qed.

Lemma flow_loop_step (k : Pending) (o : Outcome) (i : nat) (s s' : State) :
  is_bind k = false -> is_reference_wait k = false ->
  nth_error (pending s) i = Some k ->
  resume calculateAngle k o (with_pending (remove_nth i (pending s)) s)
  = Some s' ->
  reference_flow calculateAngle s -> reference_flow calculateAngle s'.
Proof.
  intros B R N E F.
  apply (@loop_step_preserves calculateAngle k o _ s' B R) in E.
  cbn [trace guiState tensors fresh imgResult predictedPoses pending uncaught
       with_pending] in E.
  destruct E as (Tr & G & Te & Fr & Im & Pr & (new & P & Nr & Nb) & U).
  assert (KI : In k (pending s)) by exact (nth_error_In _ _ N).
  assert (FR : filter is_reference_wait (pending s')
               = filter is_reference_wait (pending s)).
  { rewrite P, filter_app, Nr, app_nil_r.
    apply (@filter_remove_other is_reference_wait _ _ _ N R). }
  assert (FB : filter is_bind (pending s') = filter is_bind (pending s)).
  { rewrite P, filter_app, Nb, app_nil_r.
    apply (@filter_remove_other is_bind _ _ _ N B). }
  assert (IN : forall x, is_reference_wait x = true ->
                         In x (pending s) -> In x (pending s')).
  { intros x Hx Ix. rewrite P. apply in_or_app. left.
    apply (@In_remove_nth_other _ x k i _ Ix N). intros ->. congruence. }
  destruct F as [F1 F2 F3 F4 F5 F6 F7
                |F1 F2 F3 F4 F5 F6 F7 F8 F9
                |F1 F2 F3 F4 F5 F6 F7 F8 F9
                |F1 F2 F3 F4 F5 F6 F7 F8 F9
                |p F1 F2 F3 F4 F5 F6 F7 F8].
  - apply F7 in KI. congruence.
  - apply flow_loading; try congruence. apply IN; auto.
  - apply flow_estimating; try congruence. apply IN; auto.
  - apply flow_aborted; try congruence. auto.
  - apply flow_finished with (p := p); congruence.
Qed.

Lemma flow_bind_step (k : Pending) (o : Outcome) (i : nat) (s s' : State) :
  is_bind k = true ->
  (loop_tokens (pending s) <= 1)%nat ->
  nth_error (pending s) i = Some k ->
  resume calculateAngle k o (with_pending (remove_nth i (pending s)) s)
  = Some s' ->
  reference_flow calculateAngle s -> reference_flow calculateAngle s'.
Proof.
  intros B L N E F.
  assert (KI : In k (pending s)) by exact (nth_error_In _ _ N).
  destruct F as [F1 F2 F3 F4 F5 F6 F7
                |F1 F2 F3 F4 F5 F6 F7 F8 F9
                |F1 F2 F3 F4 F5 F6 F7 F8 F9
                |F1 F2 F3 F4 F5 F6 F7 F8 F9
                |p F1 F2 F3 F4 F5 F6 F7 F8];
    try (pose proof (filter_nil_In is_bind _ k ltac:(eassumption) KI);
         congruence).
  rewrite (bind_alone s i L F7 N) in E.
  destruct k; try discriminate B; destruct o; cbn [resume] in E;
    try discriminate E; injection E as <-.
  - (* posenet.load resolved *)
    apply flow_not_started; cbn; rewrite ?reference_effects_app, ?F1;
      auto.
    intros k [<-|[]]; try reflexivity.
  - (* posenet.load rejected *)
    apply flow_not_started; cbn; auto; intros k [].
  - (* loadVideo resolved *)
    unfold bindPage_video, detectPoseInRealTime, poseDetectionFrame,
      testImageAndEstimatePoses, disposePoses.
    cbn. rewrite F2. cbn. rewrite F6. cbn.
    apply flow_loading; cbn; rewrite ?reference_effects_app, ?F1, ?F2;
      cbn; auto.
  - (* loadVideo rejected *)
    apply flow_not_started; cbn; rewrite ?reference_effects_app, ?F1;
      auto; intros k [].
Qed.

Lemma testImage_estimated_fields (input : tensor) (p : Pose)
    (poses : list Pose) (s : State) :
  let s' := testImage_estimated calculateAngle input (p :: poses) s in
  trace s' = trace s ++ [Dispose input]
  /\ guiState s' = guiState s
  /\ tensors s'
     = filter (fun u => negb (tensor_eqb u input)) (tensors s)
  /\ fresh s' = fresh s
  /\ predictedPoses s' = Some p
  /\ imgResult s'
     = (if JS.ge (score p)
                 (s_minPoseConfidence (singlePoseDetection (guiState s)))
        then {| leftElbow := elbow calculateAngle p |}
        else imgResult s)
  /\ pending s' = pending s /\ uncaught s' = uncaught s.
Proof.
  cbv zeta. unfold testImage_estimated.
  cbn [nth_error predictedPoses with_predictedPoses guiState].
  match goal with
  | |- context [if ?b then _ else _] => destruct b
  end; cbn; repeat split; reflexivity.
Qed.

Lemma flow_reference_step (k : Pending) (o : Outcome) (i : nat)
    (s s' : State) :
  is_reference_wait k = true ->
  nth_error (pending s) i = Some k ->
  resume calculateAngle k o (with_pending (remove_nth i (pending s)) s)
  = Some s' ->
  reference_flow calculateAngle s -> reference_flow calculateAngle s'.
Proof.
  intros R N E F.
  assert (KI : In k (pending s)) by exact (nth_error_In _ _ N).
  assert (B : is_bind k = false) by (destruct k; try discriminate R; reflexivity).
  destruct F as [F1 F2 F3 F4 F5 F6 F7
                |F1 F2 F3 F4 F5 F6 F7 F8 F9
                |F1 F2 F3 F4 F5 F6 F7 F8 F9
                |F1 F2 F3 F4 F5 F6 F7 F8 F9
                |p F1 F2 F3 F4 F5 F6 F7 F8].
  - apply F7 in KI. congruence.
  - (* the image is awaited *)
    destruct (@filter_one_unique _ is_reference_wait _ i AwaitLoadImage k
                F8 F7 eq_refl N R) as [<- Z].
    pose proof (filter_remove_any is_bind _ i F9) as Zb.
    destruct o; cbn [resume] in E; try discriminate E; injection E as <-.
    unfold testImage_loaded, fromPixels. cbn. rewrite F4, F3. cbn.
    apply flow_estimating; cbn;
      rewrite ?reference_effects_app, ?filter_app, ?F1, ?F2, ?Z, ?Zb;
      cbn; auto.
    apply in_or_app. right. left. reflexivity.
  - (* the estimation is awaited *)
    destruct (@filter_one_unique _ is_reference_wait _ i
                (AwaitReferenceEstimate O) k F8 F7 eq_refl N R) as [<- Z].
    pose proof (filter_remove_any is_bind _ i F9) as Zb.
    destruct o; cbn [resume] in E; try discriminate E; injection E as <-.
    + destruct poses as [|p poses].
      * unfold testImage_estimated. cbn. apply flow_aborted; cbn; auto.
        intros H. apply app_eq_nil in H. destruct H as [_ H]. discriminate H.
      * destruct (testImage_estimated_fields O p poses
                    (with_pending (remove_nth i (pending s)) s))
          as (T & G & Te & Fr & Pr & Im & P & U).
        cbn [trace guiState tensors fresh imgResult pending uncaught
             with_pending] in T, G, Te, Fr, Im, P, U.
        apply flow_finished with (p := p);
          rewrite ?T, ?G, ?Te, ?Fr, ?Pr, ?Im, ?P, ?reference_effects_app,
            ?F1, ?F2, ?F3, ?F5; auto.
    + cbn. apply flow_aborted; cbn; auto.
      intros H. apply app_eq_nil in H. destruct H as [_ H]. discriminate H.
  - pose proof (filter_nil_In is_reference_wait _ k F7 KI). congruence.
  - pose proof (filter_nil_In is_reference_wait _ k F7 KI). congruence.
Qed.

Lemma reference_flow_holds (html : string) (evs : list Event) (s : State) :
  run calculateAngle (start html) evs = Some s ->
  reference_flow calculateAngle s.
Proof.
  revert evs s. apply run_ind.
  - apply flow_not_started; try reflexivity.
    cbn. intros k [<-|[]]. reflexivity.
  - intros evs s ev s' R F E.
    assert (L : (loop_tokens (pending s) <= 1)%nat).
    { apply (reachable_tokens (calculateAngle := calculateAngle)).
      exists html, evs. exact R. }
    unfold step in E.
    destruct (nth_error (pending s) (target ev)) as [k|] eqn:N;
      [|discriminate E].
    destruct (is_bind k) eqn:B.
    + eapply flow_bind_step; eassumption.
    + destruct (is_reference_wait k) eqn:W.
      * eapply flow_reference_step; eassumption.
      * eapply flow_loop_step; eassumption.
Qed.

Lemma disposed_reference_effects (t : tensor) (tr : list Effect) :
  disposed t (reference_effects tr) = disposed t tr.
Proof.
  unfold disposed, reference_effects.
  induction tr as [|e tr IH]; [reflexivity|].
  cbn [filter existsb].
  destruct e as [| | | |[|]| | | | | | | | | | |]; cbn; rewrite ?IH; reflexivity.
Qed.

(** X4.  In every state of every run the calls made for the reference
    image are an initial part of: load the image, create tensor 0,
    estimate on it, dispose it; none is repeated.  The only tensor ever
    created is live exactly while that sequence stands after the
    estimation call and before the disposal. *)
Theorem reference_calls_in_order (html : string) (evs : list Event)
    (s : State) :
  run calculateAngle (start html) evs = Some s ->
  exists n : nat,
    reference_effects (trace s) = firstn n reference_script
    /\ tensors s = (if Nat.eqb n 3 then [O] else [])
    /\ (fresh s <= 1)%nat.
Proof.
  intros R. destruct (@reference_flow_holds html evs s R)
    as [F1 F2 F3 F4 F5 F6 F7
       |F1 F2 F3 F4 F5 F6 F7 F8 F9
       |F1 F2 F3 F4 F5 F6 F7 F8 F9
       |F1 F2 F3 F4 F5 F6 F7 F8 F9
       |p F1 F2 F3 F4 F5 F6 F7 F8].
  - exists 0%nat. rewrite F1, F3, F4. auto.
  - exists 1%nat. rewrite F1, F3, F4. auto.
  - exists 3%nat. rewrite F1, F3, F4. auto.
  - exists 3%nat. rewrite F1, F3, F4. auto.
  - exists 4%nat. rewrite F1, F3, F4. auto.
Qed.

(** X5.  In every state of every run the cached reference is either still
    the initial 0 or the angle of the first pose of the reference
    estimation, whose confidence is at least 0.7; in the second case the
    reference load is over and its tensor has been disposed. *)
Theorem stored_reference_is_confident (html : string) (evs : list Event)
    (s : State) :
  run calculateAngle (start html) evs = Some s ->
  imgResult s = zero_result
  \/ exists p : Pose,
       predictedPoses s = Some p
       /\ JS.ge (score p) (Fin (7 # 10)) = true
       /\ leftElbow (imgResult s) = elbow calculateAngle p
       /\ tensors s = []
       /\ disposed O (trace s) = true
       /\ ~ reference_loading s.
Proof.
  intros R. destruct (@reference_flow_holds html evs s R)
    as [F1 F2 F3 F4 F5 F6 F7
       |F1 F2 F3 F4 F5 F6 F7 F8 F9
       |F1 F2 F3 F4 F5 F6 F7 F8 F9
       |F1 F2 F3 F4 F5 F6 F7 F8 F9
       |p F1 F2 F3 F4 F5 F6 F7 F8]; auto.
  destruct (JS.ge (score p) (Fin (7 # 10))) eqn:G; [|auto].
  right. exists p. rewrite F6. repeat split; auto.
  - rewrite <- disposed_reference_effects, F1. reflexivity.
  - intros [I|[t I]];
      pose proof (@filter_nil_In _ is_reference_wait _ _ F7 I) as D;
      discriminate D.
Qed.

(** X6.  Once the reference load has run to its end, nothing that
    happens afterwards changes the cached reference. *)
Theorem finished_reference_is_final (html : string) (evs more : list Event)
    (s s' : State) :
  run calculateAngle (start html) evs = Some s ->
  reference_effects (trace s) = reference_script ->
  run calculateAngle s more = Some s' ->
  imgResult s' = imgResult s /\ predictedPoses s' = predictedPoses s.
Proof.
  intros R F. revert evs s R F.
  induction more as [|ev more IH]; intros evs s R F; cbn [run].
  - intros [= <-]. auto.
  - destruct (step calculateAngle s ev) as [s1|] eqn:E; [|discriminate].
    intros R'.
    assert (R1 : run calculateAngle (start html) (evs ++ [ev]) = Some s1).
    { rewrite (@run_snoc calculateAngle _ _ _ _ R). exact E. }
    assert (K : reference_effects (trace s1) = reference_effects (trace s)
                /\ imgResult s1 = imgResult s
                /\ predictedPoses s1 = predictedPoses s).
    { destruct (@reference_flow_holds html evs s R)
        as [F1 F2 F3 F4 F5 F6 F7
           |F1 F2 F3 F4 F5 F6 F7 F8 F9
           |F1 F2 F3 F4 F5 F6 F7 F8 F9
           |F1 F2 F3 F4 F5 F6 F7 F8 F9
           |p F1 F2 F3 F4 F5 F6 F7 F8];
        try (rewrite F in F1; discriminate F1).
      unfold step in E.
      destruct (nth_error (pending s) (target ev)) as [k|] eqn:N;
        [|discriminate E].
      pose proof (nth_error_In _ _ N) as KI.
      pose proof (@filter_nil_In _ is_bind _ _ F8 KI) as B.
      pose proof (@filter_nil_In _ is_reference_wait _ _ F7 KI) as W.
      apply (@loop_step_preserves calculateAngle k _ _ s1 B W) in E.
      cbn [trace imgResult predictedPoses with_pending] in E. tauto. }
    destruct K as (K1 & K2 & K3).
    rewrite F in K1. destruct (IH (evs ++ [ev]) s1 R1 K1 R') as [A1 A2].
    split; congruence.
Qed.

End FlowInvariant.

Lemma other_calls_recalculate (i u : number) :
  existsb is_other_video_call (recalculate_effects i u) = false.
Proof.
  unfold recalculate_effects, recalculate. case_ifs; reflexivity.
Qed.

Lemma Forall_writes_nil (es : list Effect) :
  writes es = [] -> Forall percent_text (writes es).
Proof. intros ->. constructor. Qed.

Ltac quiet_step_case :=
  cbn; rewrite <- ?app_assoc; cbn;
  first
    [ eexists; split; [reflexivity|];
      split; [apply Forall_writes_nil; reflexivity|reflexivity]
    | exists []; rewrite app_nil_r;
      split; [reflexivity|]; split; [constructor|reflexivity] ].

Ltac solve_frame_wait I a H :=
  first
    [ exact (I a H)
    | apply in_app_or in H; destruct H as [H|H];
      [solve_frame_wait I a H|solve_frame_wait I a H]
    | cbn in H; repeat (destruct H as [H|H]; try congruence);
      contradiction ].

Ltac single_person_case IH I :=
  cbn; rewrite ?existsb_app; cbn; rewrite ?IH; cbn;
  split; [reflexivity|];
  let a := fresh "a" in
  let H := fresh "H" in
  intros a H; solve_frame_wait I a H.

Section LoopInvariants.

Variable calculateAngle :
  option Keypoint -> option Keypoint -> option Keypoint -> number.

Lemma other_calls_poses (g : GuiState) (thr mp img : number)
    (ps : list Pose) :
  existsb is_other_video_call
          (flat_map (pose_effects calculateAngle g thr mp img) ps) = false.
Proof.
  induction ps as [|p ps IH]; [reflexivity|].
  cbn [flat_map]. rewrite existsb_app, IH, orb_false_r.
  unfold pose_effects. destruct (JS.ge (score p) thr); [|reflexivity].
  rewrite existsb_app, other_calls_recalculate.
  unfold draw_effects. case_ifs; reflexivity.
Qed.

(** The writes of one step, and the placeholder after it. *)
Lemma step_display (s : State) (ev : Event) (s' : State) :
  step calculateAngle s ev = Some s' ->
  exists es : list Effect,
    trace s' = trace s ++ es
    /\ Forall percent_text (writes es)
    /\ score_placeholder s' = last (writes es) (score_placeholder s).
Proof.
  unfold step.
  destruct (nth_error (pending s) (target ev)) as [k|]; [|discriminate].
  set (s0 := with_pending _ s).
  change (trace s) with (trace s0).
  change (score_placeholder s) with (score_placeholder s0).
  generalize s0. clear s0. intros s0.
  destruct k; destruct (outcome ev); cbn [resume]; intros H;
    try discriminate H; injection H as <-.
  - quiet_step_case.
  - quiet_step_case.
  - unfold bindPage_video, detectPoseInRealTime, poseDetectionFrame,
      testImageAndEstimatePoses, disposePoses. cbn.
    destruct (algorithm (guiState s0)); cbn;
      destruct (predictedPoses s0); cbn; case_ifs; quiet_step_case.
  - quiet_step_case.
  - destruct (poseDetectionFrame_resume_spec calculateAngle a poses s0)
      as (T & _).
    destruct (tick_fold_state calculateAngle a poses s0) as (P & _ & F).
    eexists. split; [exact T|]. rewrite writes_tick_effects. auto.
  - quiet_step_case.
  - unfold poseDetectionFrame.
    destruct (algorithm (guiState s0)); [| |];
      try (destruct (net (guiState s0))); cbn; case_ifs;
      try quiet_step_case.
    all: exists []; rewrite app_nil_r; repeat split; constructor.
  - unfold testImage_loaded, fromPixels. quiet_step_case.
  - destruct poses as [|p poses].
    + unfold testImage_estimated. cbn. exists []. rewrite app_nil_r.
      repeat split. constructor.
    + unfold testImage_estimated.
      cbn [nth_error predictedPoses with_predictedPoses guiState].
      case_ifs; quiet_step_case.
  - cbn. exists []. rewrite app_nil_r. repeat split. constructor.
Qed.

Lemma last_In {A : Type} (x : A) (l : list A) (d : A) :
  In (last (x :: l) d) (x :: l).
Proof.
  revert x. induction l as [|y l IH]; intros x; [left; reflexivity|].
  right. exact (IH y).
Qed.

(** X7.  In every state of every run, everything that was ever written
    to the score placeholder is a text SCORE: n with n between 0 and 100,
    and the placeholder holds the last of these writes, or the content the
    page started with if nothing was written yet. *)
Theorem placeholder_shows_last_score (html : string) (evs : list Event)
    (s : State) :
  run calculateAngle (start html) evs = Some s ->
  Forall percent_text (writes (trace s))
  /\ score_placeholder s = last (writes (trace s)) html
  /\ (score_placeholder s = html \/ percent_text (score_placeholder s)).
Proof.
  intros R.
  assert (H : Forall percent_text (writes (trace s))
              /\ score_placeholder s = last (writes (trace s)) html).
  { revert evs s R. apply run_ind.
    - split; [constructor|reflexivity].
    - intros evs s ev s' _ [F P] E.
      apply step_display in E. destruct E as (es & T & Fe & Pe).
      rewrite T, writes_app, last_app_default, <- P.
      split; [apply Forall_app; auto|exact Pe]. }
  destruct H as [F P]. split; [exact F|]. split; [exact P|].
  rewrite P. destruct (writes (trace s)) as [|h hs]; [left; reflexivity|].
  right. rewrite Forall_forall in F. apply F. apply last_In.
Qed.

(** What one step does to the loop: the calls on the video stay
    single-person calls, and unless the step is a rejection the loop keeps
    its pending continuation. *)
Lemma step_loop (s : State) (ev : Event) (s' : State) :
  reference_flow calculateAngle s ->
  step calculateAngle s ev = Some s' ->
  existsb is_other_video_call (trace s) = false ->
  (forall a, In (AwaitFrameEstimate a) (pending s) -> a = case_single_pose) ->
  (existsb is_other_video_call (trace s') = false
   /\ forall a, In (AwaitFrameEstimate a) (pending s') ->
                a = case_single_pose)
  /\ (no_rejection ev = true ->
      loop_tokens (pending s') = loop_tokens (pending s)).
Proof.
  intros F E C I.
  assert (G : guiState s = guiState0 \/ guiState s = ready_gui).
  { destruct F; auto. }
  assert (GB : forall k, In k (pending s) -> is_bind k = false ->
                         guiState s = ready_gui).
  { intros k Ik Bk. destruct F as [F1 F2 F3 F4 F5 F6 F7| | | |]; auto.
    apply F7 in Ik. congruence. }
  unfold step in E. unfold no_rejection.
  destruct (nth_error (pending s) (target ev)) as [k|] eqn:N;
    [|discriminate E].
  pose proof (nth_error_In _ _ N) as KI.
  rewrite (@loop_tokens_remove _ _ _ N).
  set (rest := remove_nth (target ev) (pending s)) in *.
  assert (IR : forall a, In (AwaitFrameEstimate a) rest ->
                         a = case_single_pose).
  { intros a H. apply In_remove_nth in H. exact (I a H). }
  destruct k; destruct (outcome ev); cbn [resume] in E;
    try discriminate E; injection E as <-.
  - split; [single_person_case C IR|].
    intros _. cbn. rewrite !loop_tokens_app. cbn. lia.
  - split; [single_person_case C IR|]. discriminate.
  - unfold bindPage_video, detectPoseInRealTime, poseDetectionFrame,
      testImageAndEstimatePoses, disposePoses. cbn.
    assert (A : algorithm (guiState s) = single_pose)
      by (destruct G as [-> | ->]; reflexivity).
    rewrite A. cbn. destruct (predictedPoses s); cbn.
    + split; [single_person_case C IR|].
      intros _. rewrite !loop_tokens_app. cbn. lia.
    + split; [single_person_case C IR|].
      intros _. rewrite !loop_tokens_app. cbn. lia.
  - split; [single_person_case C IR|]. discriminate.
  - destruct (poseDetectionFrame_resume_spec calculateAngle a poses
                (with_pending rest s)) as (T & P & _).
    cbn [trace pending guiState imgResult with_pending] in T, P.
    rewrite T, P, !existsb_app, other_calls_poses, C. split.
    + split.
      * destruct (showVideo (output (guiState s))); reflexivity.
      * intros b H. apply in_app_or in H. destruct H as [H|H]; [auto|].
        cbn in H. destruct H as [H|[]]. discriminate H.
    + intros _. rewrite !loop_tokens_app. cbn. lia.
  - split; [single_person_case C IR|]. discriminate.
  - assert (Gr : guiState s = ready_gui) by (apply (GB _ KI); reflexivity).
    unfold poseDetectionFrame. cbn. rewrite Gr. cbn.
    split; [single_person_case C IR|].
    intros _. rewrite !loop_tokens_app. cbn. lia.
  - unfold testImage_loaded, fromPixels.
    split; [single_person_case C IR|].
    intros _. cbn. rewrite !loop_tokens_app. cbn. lia.
  - destruct poses as [|p poses].
    + unfold testImage_estimated. cbn.
      split; [|intros _; lia]. split; [exact C|exact IR].
    + destruct (testImage_estimated_fields calculateAngle O p poses
                  (with_pending rest s)) as (T & _).
      destruct (testImage_estimated_fields calculateAngle input0 p poses
                  (with_pending rest s)) as (T' & _ & _ & _ & _ & _ & P' & _).
      cbn [trace pending guiState imgResult with_pending] in T', P'.
      rewrite T', P', existsb_app, C. cbn.
      split; [|intros _; lia]. split; [reflexivity|exact IR].
  - split; [|discriminate]. cbn. split; [exact C|exact IR].
Qed.

Lemma loop_tokens_split (l : list Pending) :
  loop_tokens l
  = (List.length (filter is_bind l)
     + List.length (filter is_frame_estimate l)
     + List.length (filter is_frame_request l))%nat.
Proof.
  induction l as [|k l IH]; [reflexivity|].
  destruct k; cbn [loop_tokens loop_token filter is_bind is_frame_estimate
                   is_frame_request List.length]; lia.
Qed.

Lemma run_loop (html : string) (evs : list Event) (s : State) :
  run calculateAngle (start html) evs = Some s ->
  (existsb is_other_video_call (trace s) = false
   /\ forall a, In (AwaitFrameEstimate a) (pending s) ->
                a = case_single_pose)
  /\ (forallb no_rejection evs = true ->
      loop_tokens (pending s) = 1%nat).
Proof.
  revert s. induction evs as [|ev evs IH] using rev_ind; intros s R.
  - injection R as <-. split; [split|]; auto.
    cbn. intros a [H|[]]. discriminate H.
  - apply run_snoc_inv in R. destruct R as (s1 & R1 & E).
    destruct (IH s1 R1) as [[C I] A].
    pose proof (@reference_flow_holds calculateAngle html evs s1 R1) as F.
    destruct (@step_loop s1 ev s F E C I) as [SP K].
    split; [exact SP|]. rewrite forallb_app. intros H.
    apply andb_prop in H. destruct H as [H1 H2]. cbn in H2.
    rewrite andb_true_r in H2. rewrite (K H2). exact (A H1).
Qed.

(** X8.  In every state of every run [guiState.algorithm] is
    'single-pose' and the single-pose threshold is 0.7; every estimation
    call on the video was a single-person call with mirrored keypoints,
    and a tick that awaits its estimation is in the single-pose case: the
    multi-pose case of the switch is never entered. *)
Theorem only_single_person_calls (html : string) (evs : list Event)
    (s : State) :
  run calculateAngle (start html) evs = Some s ->
  algorithm (guiState s) = single_pose
  /\ s_minPoseConfidence (singlePoseDetection (guiState s)) = Fin (7 # 10)
  /\ existsb is_other_video_call (trace s) = false
  /\ forall a, In (AwaitFrameEstimate a) (pending s) -> a = case_single_pose.
Proof.
  intros R. destruct (@run_loop html evs s R) as [[C I] _].
  assert (G : guiState s = guiState0 \/ guiState s = ready_gui).
  { destruct (@reference_flow_holds calculateAngle html evs s R); auto. }
  repeat split; auto; destruct G as [-> | ->]; reflexivity.
Qed.

(** X9.  As long as no awaited promise rejects, the loop never comes to
    a halt: after every event exactly one continuation of it is pending,
    an await of [bindPage], the estimation of a tick or the callback for
    the next animation frame. *)
Theorem loop_runs_until_rejection (html : string) (evs : list Event)
    (s : State) :
  run calculateAngle (start html) evs = Some s ->
  forallb no_rejection evs = true ->
  (List.length (filter is_bind (pending s)) + in_flight s + scheduled s
   = 1)%nat.
Proof.
  intros R H. destruct (@run_loop html evs s R) as [_ A].
  unfold in_flight, scheduled. rewrite <- loop_tokens_split. exact (A H).
Qed.

(** A step of the reference load makes no comparison and no write. *)
Lemma reference_step_quiet (k : Pending) (o : Outcome) (s s' : State) :
  is_reference_wait k = true ->
  resume calculateAngle k o s = Some s' ->
  comparisons (trace s') = comparisons (trace s)
  /\ writes (trace s') = writes (trace s)
  /\ score_placeholder s' = score_placeholder s
  /\ userResult s' = userResult s.
Proof.
  intros W.
  destruct k; try discriminate W; destruct o; cbn [resume]; intros H;
    try discriminate H; injection H as <-.
  - unfold testImage_loaded, fromPixels. cbn.
    rewrite !comparisons_app, !writes_app. cbn. rewrite !app_nil_r. auto.
  - destruct poses as [|p poses].
    + unfold testImage_estimated. cbn. auto.
    + unfold testImage_estimated.
      cbn [nth_error predictedPoses with_predictedPoses guiState].
      case_ifs; cbn; rewrite !comparisons_app, !writes_app; cbn;
        rewrite !app_nil_r; auto.
  - cbn. auto.
Qed.

(** X10.  Once no continuation of the loop is pending (its estimation
    was rejected, or [bindPage] failed), nothing restarts it: whatever
    happens afterwards, no estimation call is issued on the video, no
    comparison is made, nothing is written, and the placeholder and
    [userResult] keep their values. *)
Theorem stopped_loop_never_restarts (s : State) (more : list Event)
    (s' : State) :
  loop_tokens (pending s) = O ->
  run calculateAngle s more = Some s' ->
  loop_tokens (pending s') = O
  /\ frame_calls (trace s') = frame_calls (trace s)
  /\ comparisons (trace s') = comparisons (trace s)
  /\ writes (trace s') = writes (trace s)
  /\ score_placeholder s' = score_placeholder s
  /\ userResult s' = userResult s.
Proof.
  revert s. induction more as [|ev more IH]; intros s Z; cbn [run].
  - intros [= <-]. auto 10.
  - destruct (step calculateAngle s ev) as [s1|] eqn:E; [|discriminate].
    intros R.
    pose proof (@step_tokens calculateAngle s ev s1 E) as L.
    assert (Z1 : loop_tokens (pending s1) = O) by lia.
    destruct (IH s1 Z1 R) as (A1 & A2 & A3 & A4 & A5 & A6).
    pose proof (@step_effect calculateAngle s ev s1 E) as SE.
    destruct SE as (k & new & c & N & P & Kn & T & C & _).
    pose proof (@loop_tokens_zero_In _ k Z (nth_error_In _ _ N)) as Tk.
    pose proof (in_flight_le_tokens new) as Ln.
    assert (W : is_reference_wait k = true)
      by (destruct k; try discriminate Tk; reflexivity).
    unfold step in E. rewrite N in E.
    apply (@reference_step_quiet k _ _ s1 W) in E.
    cbn [trace score_placeholder userResult with_pending] in E.
    destruct E as (E1 & E2 & E3 & E4).
    split; [exact A1|]. split; [lia|]. repeat split; congruence.
Qed.

End LoopInvariants.

(* ================================================================== *)
(** ** Failures of [bindPage] *)

Section BindFailures.

Variable calculateAngle :
  option Keypoint -> option Keypoint -> option Keypoint -> number.

Lemma step_nothing_pending (s : State) (ev : Event) :
  pending s = [] -> step calculateAngle s ev = None.
Proof.
  intros H. unfold step. rewrite H. destruct (target ev); reflexivity.
Qed.

Lemma run_app (s s1 : State) (evs more : list Event) :
  run calculateAngle s evs = Some s1 ->
  run calculateAngle s (evs ++ more) = run calculateAngle s1 more.
Proof.
  revert s. induction evs as [|ev evs IH]; intros s; cbn [run app].
  - intros [= ->]. reflexivity.
  - destruct (step calculateAngle s ev); [apply IH|discriminate].
Qed.

(** A run that has left nothing pending cannot be continued. *)
Lemma run_ends (s s' : State) (evs : list Event) :
  pending s = [] -> run calculateAngle s evs = Some s' ->
  evs = [] /\ s' = s.
Proof.
  intros P. destruct evs as [|ev evs]; cbn [run].
  - intros [= <-]. auto.
  - rewrite (step_nothing_pending s ev P). discriminate.
Qed.

(* The statements below mention concrete runs; implicit arguments are
   not inferred for them. *)
Unset Implicit Arguments.

Lemma model_load_rejected (html e : string) :
  exists s1 : State,
    run calculateAngle (start html) [settle 0 (Rejected e)] = Some s1
    /\ trace s1 = [ToggleLoadingUI true; PosenetLoad]
    /\ uncaught s1 = [e] /\ pending s1 = []
    /\ net (guiState s1) = None.
Proof.
  eexists. split; [vm_compute; reflexivity|].
  vm_compute. repeat split; reflexivity.
Qed.

Lemma camera_rejected (html e : string) :
  exists s1 : State,
    run calculateAngle (start html)
        [settle 0 Loaded; settle 0 (Rejected e)] = Some s1
    /\ trace s1 = [ToggleLoadingUI true; PosenetLoad; ToggleLoadingUI false;
                   LoadVideo;
                   InfoText ("this browser does not support video capture,"
                             ++ "or this device does not have a camera")]
    /\ uncaught s1 = [e] /\ pending s1 = []
    /\ net (guiState s1) = None.
Proof.
  eexists. split; [vm_compute; reflexivity|].
  vm_compute. repeat split; reflexivity.
Qed.

(** X11.  When loading the model fails, [bindPage] stops there: the
    loading indicator that was switched on is never switched off, no
    message is shown, the error goes unhandled, and no further event can
    do anything to the page. *)
Theorem model_load_failure (html e : string) (evs : list Event) (s : State) :
  run calculateAngle (start html) ([settle 0 (Rejected e)] ++ evs) = Some s ->
  evs = []
  /\ trace s = [ToggleLoadingUI true; PosenetLoad]
  /\ uncaught s = [e]
  /\ pending s = []
  /\ net (guiState s) = None.
Proof.
  intros R. destruct (model_load_rejected html e) as (s1 & R1 & T & U & P & N).
  rewrite (@run_app _ _ _ evs R1) in R.
  destruct (run_ends s1 evs P R) as [-> ->]. auto.
Qed.

(** X12.  When the camera cannot be opened, [bindPage] shows its message
    and rethrows: the model is never stored in [guiState], neither the
    frame loop nor the reference load is started, and no further event can
    do anything to the page. *)
Theorem camera_failure (html e : string) (evs : list Event) (s : State) :
  run calculateAngle (start html)
      ([settle 0 Loaded; settle 0 (Rejected e)] ++ evs) = Some s ->
  evs = []
  /\ trace s = [ToggleLoadingUI true; PosenetLoad; ToggleLoadingUI false;
                LoadVideo;
                InfoText ("this browser does not support video capture,"
                          ++ "or this device does not have a camera")]
  /\ uncaught s = [e]
  /\ pending s = []
  /\ net (guiState s) = None.
Proof.
  intros R. destruct (camera_rejected html e) as (s1 & R1 & T & U & P & N).
  rewrite (@run_app _ _ _ evs R1) in R.
  destruct (run_ends s1 evs P R) as [-> ->]. auto.
Qed.

Set Implicit Arguments.

End BindFailures.

Lemma model_load_failure_witness :
  @nil Event = []
  /\ trace (after [settle 0 (Rejected "offline")])
     = [ToggleLoadingUI true; PosenetLoad]
  /\ uncaught (after [settle 0 (Rejected "offline")]) = ["offline"%string]
  /\ pending (after [settle 0 (Rejected "offline")]) = []
  /\ net (guiState (after [settle 0 (Rejected "offline")])) = None.
Proof.
  apply (@model_load_failure (constant_angle 10) "" "offline" []
           (after [settle 0 (Rejected "offline")])).
  vm_compute. reflexivity.
Defined.

Lemma camera_failure_witness :
  @nil Event = []
  /\ trace (after [settle 0 Loaded; settle 0 (Rejected "denied")])
     = [ToggleLoadingUI true; PosenetLoad; ToggleLoadingUI false;
        LoadVideo;
        InfoText ("this browser does not support video capture,"
                  ++ "or this device does not have a camera")]
  /\ uncaught (after [settle 0 Loaded; settle 0 (Rejected "denied")])
     = ["denied"%string]
  /\ pending (after [settle 0 Loaded; settle 0 (Rejected "denied")]) = []
  /\ net (guiState (after [settle 0 Loaded; settle 0 (Rejected "denied")]))
     = None.
Proof.
  apply (@camera_failure (constant_angle 10) "" "denied" []
           (after [settle 0 Loaded; settle 0 (Rejected "denied")])).
  vm_compute. reflexivity.
Defined.

(* ================================================================== *)
(** ** The run invariants on concrete sessions *)

Lemma reference_calls_in_order_witness :
  exists n : nat,
    reference_effects (trace (after full_session))
    = firstn n reference_script
    /\ tensors (after full_session) = (if Nat.eqb n 3 then [O] else [])
    /\ (fresh (after full_session) <= 1)%nat.
Proof.
  apply (@reference_calls_in_order (constant_angle 10) "" full_session
           (after full_session)).
  vm_compute. reflexivity.
Defined.

Lemma stored_reference_is_confident_witness :
  imgResult (after full_session) = zero_result
  \/ exists p : Pose,
       predictedPoses (after full_session) = Some p
       /\ JS.ge (score p) (Fin (7 # 10)) = true
       /\ leftElbow (imgResult (after full_session))
          = elbow (constant_angle 10) p
       /\ tensors (after full_session) = []
       /\ disposed O (trace (after full_session)) = true
       /\ ~ reference_loading (after full_session).
Proof.
  apply (@stored_reference_is_confident (constant_angle 10) "" full_session
           (after full_session)).
  vm_compute. reflexivity.
Defined.

Lemma finished_reference_is_final_witness :
  imgResult (after full_session) = imgResult (after reference_session)
  /\ predictedPoses (after full_session)
     = predictedPoses (after reference_session).
Proof.
  apply (@finished_reference_is_final (constant_angle 10) ""
           reference_session
           [settle 0 (Estimated [pose_of 1 sample_keypoints])]
           (after reference_session) (after full_session));
    vm_compute; reflexivity.
Defined.

Lemma placeholder_shows_last_score_witness :
  Forall percent_text (writes (trace (after full_session)))
  /\ score_placeholder (after full_session)
     = last (writes (trace (after full_session))) ""%string
  /\ (score_placeholder (after full_session) = ""%string
      \/ percent_text (score_placeholder (after full_session))).
Proof.
  apply (@placeholder_shows_last_score (constant_angle 10) "" full_session
           (after full_session)).
  vm_compute. reflexivity.
Defined.

Lemma only_single_person_calls_witness :
  algorithm (guiState (after full_session)) = single_pose
  /\ s_minPoseConfidence (singlePoseDetection (guiState (after full_session)))
     = Fin (7 # 10)
  /\ existsb is_other_video_call (trace (after full_session)) = false
  /\ forall a, In (AwaitFrameEstimate a) (pending (after full_session)) ->
               a = case_single_pose.
Proof.
  apply (@only_single_person_calls (constant_angle 10) "" full_session
           (after full_session)).
  vm_compute. reflexivity.
Defined.

Lemma loop_runs_until_rejection_witness :
  (List.length (filter is_bind (pending (after full_session)))
   + in_flight (after full_session) + scheduled (after full_session)
   = 1)%nat.
Proof.
  apply (@loop_runs_until_rejection (constant_angle 10) "" full_session
           (after full_session));
    vm_compute; reflexivity.
Defined.

Lemma stopped_loop_never_restarts_witness :
  loop_tokens (pending (after (broken_session ++ [settle 0 Loaded]))) = O
  /\ frame_calls (trace (after (broken_session ++ [settle 0 Loaded])))
     = frame_calls (trace (after broken_session))
  /\ comparisons (trace (after (broken_session ++ [settle 0 Loaded])))
     = comparisons (trace (after broken_session))
  /\ writes (trace (after (broken_session ++ [settle 0 Loaded])))
     = writes (trace (after broken_session))
  /\ score_placeholder (after (broken_session ++ [settle 0 Loaded]))
     = score_placeholder (after broken_session)
  /\ userResult (after (broken_session ++ [settle 0 Loaded]))
     = userResult (after broken_session).
Proof.
  apply (@stopped_loop_never_restarts (constant_angle 10)
           (after broken_session) [settle 0 Loaded]
           (after (broken_session ++ [settle 0 Loaded])));
    vm_compute; reflexivity.
Defined.

(* ================================================================== *)
(** ** The camera: [setupCamera] and [loadVideo] *)

Module CameraProperties.

Import Camera.

(** Whether [setupCamera] finds the API it needs, line 28. *)
Lemma loadVideo_cases (nav : Navigator) (mobile : bool) (w : Window)
    (v : Video) :
  (loadVideo nav mobile w v
   = {| video := v; waiting := None; requests := [];
        promise := RejectedWith unavailable |})
  \/ (waiting (loadVideo nav mobile w v) = Some AwaitGetUserMedia
      /\ promise (loadVideo nav mobile w v) = Unsettled
      /\ video (loadVideo nav mobile w v)
         = {| width := Some (videoWidth w); height := Some (videoHeight w);
              srcObject := srcObject v;
              onloadedmetadata := onloadedmetadata v;
              played := played v |}
      /\ requests (loadVideo nav mobile w v)
         = [{| audio := false;
               c_video :=
                 {| facingMode := "user";
                    c_width := if mobile then None else Some (videoWidth w);
                    c_height := if mobile then None
                                else Some (videoHeight w) |} |}]).
Proof.
  unfold loadVideo.
  destruct (mediaDevices nav) as [[[|]]|]; cbn [negb getUserMedia];
    [right; repeat split; reflexivity | left; reflexivity ..].
Qed.

Lemma camera_step_idle (c : CameraState) (ev : CameraEvent) :
  waiting c = None -> camera_step c ev = None.
Proof. intros H. unfold camera_step. rewrite H. reflexivity. Qed.

Lemma camera_run_idle (c c' : CameraState) (evs : list CameraEvent) :
  waiting c = None -> camera_run c evs = Some c' -> evs = [] /\ c' = c.
Proof.
  intros H. destruct evs as [|ev evs]; cbn [camera_run].
  - intros [= <-]. auto.
  - rewrite (camera_step_idle c ev H). discriminate.
Qed.

(** The four ways a call of [loadVideo] can go, with the state each one
    ends in. *)
Lemma camera_runs (nav : Navigator) (mobile : bool) (w : Window)
    (v : Video) (evs : list CameraEvent) (c : CameraState) :
  camera_run (loadVideo nav mobile w v) evs = Some c ->
  let c0 := loadVideo nav mobile w v in
  (evs = [] /\ c = c0)
  \/ (waiting c0 = Some AwaitGetUserMedia
      /\ ((exists e, evs = [Denied e]
           /\ c = {| video := video c0; waiting := None;
                     requests := requests c0; promise := RejectedWith e |})
          \/ (exists st, evs = [Granted st]
              /\ c = {| video := {| width := width (video c0);
                                    height := height (video c0);
                                    srcObject := Some st;
                                    onloadedmetadata := true;
                                    played := played (video c0) |};
                        waiting := Some AwaitLoadedMetadata;
                        requests := requests c0;
                        promise := promise c0 |})
          \/ (exists st, evs = [Granted st; LoadedMetadata]
              /\ c = {| video := {| width := width (video c0);
                                    height := height (video c0);
                                    srcObject := Some st;
                                    onloadedmetadata := true;
                                    played := S (played (video c0)) |};
                        waiting := None;
                        requests := requests c0;
                        promise := Resolved |}))).
Proof.
  intros R c0. fold c0 in R.
  destruct evs as [|ev evs]; [left; cbn in R; injection R as <-; auto|].
  right. cbn [camera_run] in R.
  destruct (waiting c0) as [[|]|] eqn:W0.
  - split; [reflexivity|].
    unfold camera_step in R. rewrite W0 in R.
    destruct ev as [st|e|]; [| |discriminate].
    + destruct evs as [|ev' evs].
      * right. left. exists st. cbn in R. injection R as <-. auto.
      * cbn [camera_run] in R. unfold camera_step in R at 1.
        cbn [waiting] in R. destruct ev'; try discriminate.
        apply camera_run_idle in R; [|reflexivity].
        destruct R as [-> ->]. right. right. exists st. auto.
    + apply camera_run_idle in R; [|reflexivity].
      destruct R as [-> ->]. left. exists e. auto.
  - exfalso. destruct (loadVideo_cases nav mobile w v) as [E|(W & _)];
      fold c0 in E || fold c0 in W; [rewrite E in W0|rewrite W in W0];
      discriminate.
  - rewrite (camera_step_idle c0 ev W0) in R. discriminate.
Qed.

(** X13.  [loadVideo] resolves only after the stream was granted and the
    video reported its metadata; the video then carries that stream and
    the size 0.7 * innerWidth by innerHeight, and [play] has been called
    on it exactly once.  In every other state of a run [play] has not
    been called.  [getUserMedia] is asked at most once, never for audio,
    for the user-facing camera, and for the size given to the video
    element unless the device is mobile. *)
Theorem camera_plays_when_ready (nav : Navigator) (mobile : bool)
    (w : Window) (v : Video) (evs : list CameraEvent) (c : CameraState) :
  camera_run (loadVideo nav mobile w v) evs = Some c ->
  (promise c = Resolved ->
   exists st, evs = [Granted st; LoadedMetadata]
     /\ video c = {| width := Some (videoWidth w);
                     height := Some (videoHeight w);
                     srcObject := Some st;
                     onloadedmetadata := true;
                     played := S (played v) |})
  /\ (promise c <> Resolved -> played (video c) = played v)
  /\ (List.length (requests c) <= 1)%nat
  /\ Forall (fun r =>
       audio r = false
       /\ facingMode (c_video r) = "user"%string
       /\ c_width (c_video r)
          = (if mobile then None else width (video c))
       /\ c_height (c_video r)
          = (if mobile then None else height (video c)))
     (requests c).
Proof.
  intros R. apply camera_runs in R. cbv zeta in R.
  destruct (loadVideo_cases nav mobile w v) as [E|(W & P & V & Q)].
  - rewrite E in R. cbn [waiting video requests promise] in R.
    destruct R as [[-> ->]|[W _]]; [|discriminate].
    cbn [promise video requests List.length].
    repeat split; try discriminate; auto.
  - rewrite V, Q, P in R. cbn [width height played] in R.
    destruct R as [[-> ->]|[_ [(e & -> & ->)|[(st & -> & ->)|(st & -> & ->)]]]];
      rewrite ?P, ?V, ?Q; cbn [promise video requests played width height
                                List.length].
    + repeat split; try discriminate; auto;
        try (constructor; [|constructor]; cbn; destruct mobile; auto).
    + repeat split; try discriminate; auto;
        try (constructor; [|constructor]; cbn; destruct mobile; auto).
    + repeat split; try discriminate; auto;
        try (constructor; [|constructor]; cbn; destruct mobile; auto).
    + repeat split; auto;
        try (constructor; [|constructor]; cbn; destruct mobile; auto).
      * intros _. exists st. auto.
      * intros H. contradiction H. reflexivity.
Qed.

(** X14.  When [loadVideo] rejects, no stream was attached to the video,
    no metadata handler was set and [play] was not called.  Either the
    API was missing: then the error is the fixed message, nothing at all
    was assigned to the video and [getUserMedia] was not called; or the
    one call of [getUserMedia] was rejected with that very error, after
    the video had been given its size. *)
Theorem camera_rejection_leaves_video (nav : Navigator) (mobile : bool)
    (w : Window) (v : Video) (evs : list CameraEvent) (c : CameraState)
    (e : string) :
  camera_run (loadVideo nav mobile w v) evs = Some c ->
  promise c = RejectedWith e ->
  srcObject (video c) = srcObject v
  /\ onloadedmetadata (video c) = onloadedmetadata v
  /\ played (video c) = played v
  /\ waiting c = None
  /\ ((evs = [] /\ e = unavailable /\ video c = v /\ requests c = [])
      \/ (evs = [Denied e]
          /\ width (video c) = Some (videoWidth w)
          /\ height (video c) = Some (videoHeight w)
          /\ List.length (requests c) = 1%nat)).
Proof.
  intros R. apply camera_runs in R. cbv zeta in R.
  destruct (loadVideo_cases nav mobile w v) as [E|(W & P & V & Q)].
  - rewrite E in R. cbn [waiting video requests promise] in R.
    destruct R as [[-> ->]|[W _]]; [|discriminate].
    cbn [promise video requests waiting]. intros [= <-].
    repeat split; auto.
  - rewrite V, Q, P in R. cbn [width height played] in R.
    destruct R as [[-> ->]|[_ [(e' & -> & ->)|[(st & -> & ->)|(st & -> & ->)]]]];
      rewrite ?P, ?V, ?Q; cbn [promise video requests played width height
                                srcObject onloadedmetadata waiting
                                List.length];
      try discriminate.
    intros [= ->]. repeat split; auto.
Qed.

Lemma camera_plays_when_ready_witness :
  let nav := {| mediaDevices := Some {| getUserMedia := true |} |} in
  let w := {| innerWidth := Fin 1000; innerHeight := Fin 600 |} in
  let c := {| video := {| width := Some (videoWidth w); height := Some (videoHeight w);
                          srcObject := Some (stream 4);
                          onloadedmetadata := true; played := 1 |};
              waiting := None;
              requests := [{| audio := false;
                              c_video := {| facingMode := "user";
                                            c_width := Some (videoWidth w);
                                            c_height := Some (videoHeight w) |} |}];
              promise := Resolved |} in
  (promise c = Resolved ->
   exists st, [Granted (stream 4); LoadedMetadata]
              = [Granted st; LoadedMetadata]
     /\ video c = {| width := Some (videoWidth w);
                     height := Some (videoHeight w);
                     srcObject := Some st;
                     onloadedmetadata := true;
                     played := S (played blank) |})
  /\ (promise c <> Resolved -> played (video c) = played blank)
  /\ (List.length (requests c) <= 1)%nat
  /\ Forall (fun r =>
       audio r = false
       /\ facingMode (c_video r) = "user"%string
       /\ c_width (c_video r) = (if false then None else width (video c))
       /\ c_height (c_video r) = (if false then None else height (video c)))
     (requests c).
Proof.
  intros nav w c.
  apply (@camera_plays_when_ready nav false w blank
           [Granted (stream 4); LoadedMetadata] c).
  vm_compute. reflexivity.
Defined.

Lemma camera_rejection_leaves_video_witness :
  let nav := {| mediaDevices := Some {| getUserMedia := true |} |} in
  let w := {| innerWidth := Fin 1000; innerHeight := Fin 600 |} in
  let c := {| video := {| width := Some (videoWidth w); height := Some (videoHeight w);
                          srcObject := None;
                          onloadedmetadata := false; played := 0 |};
              waiting := None;
              requests := [{| audio := false;
                              c_video := {| facingMode := "user";
                                            c_width := None;
                                            c_height := None |} |}];
              promise := RejectedWith "NotAllowedError" |} in
  srcObject (video c) = srcObject blank
  /\ onloadedmetadata (video c) = onloadedmetadata blank
  /\ played (video c) = played blank
  /\ waiting c = None
  /\ (([Denied "NotAllowedError"] = @nil CameraEvent
       /\ "NotAllowedError"%string = unavailable
       /\ video c = blank /\ requests c = [])
      \/ ([Denied "NotAllowedError"] = [Denied "NotAllowedError"]
          /\ width (video c) = Some (videoWidth w)
          /\ height (video c) = Some (videoHeight w)
          /\ List.length (requests c) = 1%nat)).
Proof.
  intros nav w c.
  pose proof (@camera_rejection_leaves_video nav true w blank
           [Denied "NotAllowedError"] c "NotAllowedError") as H.
  cbv zeta. apply H; vm_compute; reflexivity.
Defined.

End CameraProperties.

(* ================================================================== *)
(** ** Drawing *)

Lemma count_app (f : Effect -> bool) (a b : list Effect) :
  count f (a ++ b) = (count f a + count f b)%nat.
Proof. unfold count. rewrite filter_app, length_app. reflexivity. Qed.

Lemma balanced_app (a b : list Effect) :
  balanced a -> balanced b -> balanced (a ++ b).
Proof.
  unfold balanced. rewrite !count_app.
  intros (A1 & A2 & A3 & A4) (B1 & B2 & B3 & B4). lia.
Qed.

Lemma balanced_nil : balanced [].
Proof. repeat split. Qed.

Ltac drawing_step_case :=
  cbn; rewrite <- ?app_assoc; cbn;
  first
    [ eexists; split; [reflexivity|];
      split; [repeat constructor|repeat split]
    | exists []; rewrite app_nil_r;
      split; [reflexivity|]; split; [constructor|repeat split] ].

Section Drawing.

Variable calculateAngle :
  option Keypoint -> option Keypoint -> option Keypoint -> number.

(** What the [forEach] callback draws for one pose under the initial
    output settings. *)
Lemma drawing_pose (g : GuiState) (thr img : number) (p : Pose) :
  output g = output guiState0 ->
  let es := pose_effects calculateAngle g thr (Fin (7 # 10)) img p in
  Forall default_drawing es
  /\ count is_clear es = O /\ count is_video_drawn es = O
  /\ count is_next_frame es = O
  /\ count is_points es = count is_comparison es
  /\ count is_skeleton es = count is_comparison es.
Proof.
  intros G. cbv zeta. unfold pose_effects.
  destruct (JS.ge (score p) thr); [|repeat split; constructor].
  unfold draw_effects. rewrite G.
  cbn [output guiState0 showPoints showSkeleton showBoundingBox app].
  unfold recalculate_effects, recalculate.
  case_ifs; cbn; repeat split; repeat constructor.
Qed.

Lemma drawing_poses (g : GuiState) (thr img : number) (ps : list Pose) :
  output g = output guiState0 ->
  let es := flat_map (pose_effects calculateAngle g thr (Fin (7 # 10)) img)
                     ps in
  Forall default_drawing es
  /\ count is_clear es = O /\ count is_video_drawn es = O
  /\ count is_next_frame es = O
  /\ count is_points es = count is_comparison es
  /\ count is_skeleton es = count is_comparison es.
Proof.
  intros G. cbv zeta. induction ps as [|p ps IH].
  - repeat split. constructor.
  - cbn [flat_map]. rewrite !count_app.
    destruct IH as (F & C1 & C2 & C3 & C4 & C5).
    destruct (drawing_pose g thr img p G) as (F' & D1 & D2 & D3 & D4 & D5).
    rewrite C1, C2, C3, C4, C5, D1, D2, D3, D4, D5.
    repeat split. apply Forall_app. auto.
Qed.

(** The drawing of one step. *)
Lemma step_drawing (s : State) (ev : Event) (s' : State) :
  guiState s = guiState0 \/ guiState s = ready_gui ->
  (forall a, In (AwaitFrameEstimate a) (pending s) -> a = case_single_pose) ->
  step calculateAngle s ev = Some s' ->
  exists es : list Effect,
    trace s' = trace s ++ es /\ Forall default_drawing es /\ balanced es.
Proof.
  intros G I. unfold step.
  destruct (nth_error (pending s) (target ev)) as [k|] eqn:N; [|discriminate].
  pose proof (nth_error_In _ _ N) as KI. clear N.
  set (s0 := with_pending _ s).
  change (trace s) with (trace s0).
  assert (G0 : output (guiState s0) = output guiState0
               /\ singlePoseDetection (guiState s0)
                  = singlePoseDetection guiState0
               /\ algorithm (guiState s0) = single_pose).
  { change (guiState s0) with (guiState s).
    destruct G as [-> | ->]; repeat split; reflexivity. }
  clearbody s0. destruct G0 as (GO & GS & GA).
  destruct k; destruct (outcome ev); cbn [resume]; intros H;
    try discriminate H; injection H as <-.
  - drawing_step_case.
  - drawing_step_case.
  - unfold bindPage_video, detectPoseInRealTime, poseDetectionFrame,
      testImageAndEstimatePoses, disposePoses. cbn. rewrite GA. cbn.
    destruct (predictedPoses s0); cbn; drawing_step_case.
  - drawing_step_case.
  - rewrite (I a KI).
    destruct (poseDetectionFrame_resume_spec calculateAngle
                case_single_pose poses s0) as (T & _).
    eexists. split; [exact T|].
    unfold minPartConfidence_of, minPoseConfidence_of. rewrite GO, GS.
    cbn [output singlePoseDetection guiState0 showVideo s_minPartConfidence
         s_minPoseConfidence].
    destruct (drawing_poses (guiState s0) (Fin (7 # 10))
                (leftElbow (imgResult s0)) poses GO)
      as (F & C1 & C2 & C3 & C4 & C5).
    split.
    + rewrite !Forall_app. repeat split; auto; repeat constructor.
    + unfold balanced. rewrite !count_app, C1, C2, C3, C4, C5.
      cbn. repeat split; lia.
  - drawing_step_case.
  - unfold poseDetectionFrame. rewrite GA.
    destruct (net (guiState s0)); cbn; drawing_step_case.
  - unfold testImage_loaded, fromPixels. drawing_step_case.
  - destruct poses as [|p poses].
    + unfold testImage_estimated. cbn. exists []. rewrite app_nil_r.
      repeat split. constructor.
    + unfold testImage_estimated.
      cbn [nth_error predictedPoses with_predictedPoses guiState].
      case_ifs; drawing_step_case.
  - cbn. exists []. rewrite app_nil_r. repeat split. constructor.
Qed.

(** X15.  In every state of every run the canvas has only been drawn on
    as the initial [guiState] says: no bounding box was ever drawn, and
    points and skeletons were drawn with part threshold 0.7.  Every
    frame that cleared the canvas drew the video once and requested the
    next frame once, and every comparison of angles came with one drawing
    of the points and one of the skeleton of that pose. *)
Theorem drawing_follows_defaults (html : string) (evs : list Event)
    (s : State) :
  run calculateAngle (start html) evs = Some s ->
  Forall default_drawing (trace s) /\ balanced (trace s).
Proof.
  revert evs s. apply run_ind.
  - split; [repeat constructor|repeat split].
  - intros evs s ev s' R [F B] E.
    destruct (@run_loop calculateAngle html evs s R) as [[_ I] _].
    assert (G : guiState s = guiState0 \/ guiState s = ready_gui).
    { destruct (@reference_flow_holds calculateAngle html evs s R); auto. }
    destruct (@step_drawing s ev s' G I E) as (es & T & Fe & Be).
    rewrite T. split; [apply Forall_app; auto|apply balanced_app; auto].
Qed.

End Drawing.

Lemma drawing_follows_defaults_witness :
  Forall default_drawing (trace (after full_session))
  /\ balanced (trace (after full_session)).
Proof.
  apply (@drawing_follows_defaults (constant_angle 10) "" full_session
           (after full_session)).
  vm_compute. reflexivity.
Defined.
